(** * ConversationalHumor: the word-level LSTM script [humor/basic_lstm.py]

    A shallow embedding of the script's own logic: vocabulary construction
    ([build_dataset]), corpus reading and the optional embedding tables
    ([run]), greedy sentence generation ([generate_sentence],
    [convert_indices_to_sentence]) and the checkpointing training loop.

    The tensor framework is kept opaque: a session is an abstract state with
    a prediction function and a training step.  Numeric vectors and losses
    are exact rationals; the script only compares and averages them.  The
    minimum loss lives in a float32 variable: what an assignment stores is
    given by a rounding, which the properties leave open.
    Dictionaries and counters iterate in insertion order, as Python does
    from version 3.7 on.  Strings are byte strings, so [len] is the number
    of bytes. *)

From Stdlib Require Import Ascii String QArith.
From stdpp Require Import base list sorting strings.

Set Warnings "-abstract-large-number".

Local Open Scope string_scope.
Local Open Scope list_scope.
Local Open Scope nat_scope.

(** ** Python containers *)

(** A Python [dict] keeps its items in insertion order and its keys unique:
    an association list, updated in place when the key is already there. *)
Section PyDict.
Context {K V : Type} `{EqDecision K}.

(** [d[k]]; [None] stands for [KeyError]. *)
Fixpoint dict_get (d : list (K * V)) (k : K) : option V :=
  match d with
  | [] => None
  | (k', v) :: d' => if decide (k' = k) then Some v else dict_get d' k
  end.

(** [d[k] = v] *)
Fixpoint dict_set (d : list (K * V)) (k : K) (v : V) : list (K * V) :=
  match d with
  | [] => [(k, v)]
  | (k', v') :: d' =>
      if decide (k' = k) then (k', v) :: d' else (k', v') :: dict_set d' k v
  end.

Definition dict_keys (d : list (K * V)) : list K := d.*1.
Definition dict_values (d : list (K * V)) : list V := d.*2.

(** [dict(pairs)] *)
Definition dict_of (pairs : list (K * V)) : list (K * V) :=
  fold_left (λ d kv, dict_set d kv.1 kv.2) pairs [].
End PyDict.

(** [collections.Counter(words)]: one pass, [c[w] = c.get(w, 0) + 1]. *)
Definition Counter (words : list string) : list (string * nat) :=
  fold_left (λ c w, dict_set c w (default 0 (dict_get c w) + 1)) words [].

(** [Counter.most_common()] is [sorted(items, key=itemgetter(1), reverse=True)],
    a stable sort: items of equal count keep their order.  [insert_desc x l]
    puts [x], which came before all of [l], behind the strictly larger counts
    only. *)
Fixpoint insert_desc (x : string * nat) (l : list (string * nat))
  : list (string * nat) :=
  match l with
  | [] => [x]
  | y :: r => if decide (x.2 < y.2) then y :: insert_desc x r else x :: y :: r
  end.

Definition most_common (c : list (string * nat)) : list (string * nat) :=
  foldr insert_desc [] c.

(** ** build_dataset *)

Definition build_dataset (words : list string)
  : list (string * nat) * list (nat * string) :=
  let count := most_common (Counter words) in
  let dictionary :=
    fold_left (λ d wc, dict_set d wc.1 (length d)) count [] in
  let reverse_dictionary :=
    dict_of (zip (dict_values dictionary) (dict_keys dictionary)) in
  (dictionary, reverse_dictionary).

(** ** Python strings *)

Definition newline : Ascii.ascii := Ascii.ascii_of_nat 10.
Definition space : Ascii.ascii := Ascii.ascii_of_nat 32.

(** [s.split(' ')]: cut at every single space; never an empty list. *)
Fixpoint split_space (s : string) : list string :=
  match s with
  | EmptyString => [""]
  | String c s' =>
      if decide (c = space) then "" :: split_space s'
      else match split_space s' with
           | w :: ws => String c w :: ws
           | [] => [String c ""]
           end
  end.

(** [s[-1]]; [None] stands for the [IndexError] of the empty string. *)
Fixpoint str_last (s : string) : option Ascii.ascii :=
  match s with
  | EmptyString => None
  | String c EmptyString => Some c
  | String _ s' => str_last s'
  end.

(** [s[:-1]] *)
Fixpoint str_init (s : string) : string :=
  match s with
  | EmptyString => ""
  | String _ EmptyString => ""
  | String c s' => String c (str_init s')
  end.

(** Iterating over a text file: the lines of its content, each with its
    newline, the last one possibly without. *)
Fixpoint file_lines (content : string) : list string :=
  match content with
  | EmptyString => []
  | String c rest =>
      if decide (c = newline) then String c "" :: file_lines rest
      else match file_lines rest with
           | l :: ls => String c l :: ls
           | [] => [String c ""]
           end
  end.

(** [if line[-1] == '\n': line = line[:-1]].  File iteration yields no
    empty line, so [line[-1]] is always there. *)
Definition strip_newline (line : string) : string :=
  match str_last line with
  | Some c => if decide (c = newline) then str_init line else line
  | None => line
  end.

(** ** Module constants *)

Definition EPOCHS : nat := 100.
Definition BATCH_SIZE : nat := 1000.
Definition N_INPUT : nat := 3.
Definition GENERATE_INCREMENT : nat := 10000.

(** The marker tokens come from [word_embeddings], the folder and the
    extension from [utils.file_access]; neither module is part of the
    sources at hand, so their constants are parameters of the model. *)
Class word_embeddings := {
  END_TOKEN : string;
  START_TOKEN : string;
  UNKNOWN_TOKEN : string
}.

Class file_access := {
  SAVED_MODEL_FOLDER : string;
  PICKLE_EXTENSION : string
}.

(** [os.path.join(a, b)] on a POSIX system. *)
Definition path_join (a b : string) : string :=
  match b with
  | String "/" _ => b
  | _ => match a, str_last a with
         | "", _ => b
         | _, Some "/"%char => a +:+ b
         | _, _ => a +:+ "/" +:+ b
         end
  end.

(** ** run: reading the corpus *)

Section Corpus.
Context `{word_embeddings}.

Definition start_tokens : string :=
  fold_left (λ s _, s +:+ (START_TOKEN +:+ " ")) (seq 0 N_INPUT) "".

(** One turn of [for line in corpus_file], on the pair
    [(punch_lines, sentence_length)]. *)
Definition read_line (st : string * nat) (line : string) : string * nat :=
  let line := strip_newline line in
  if decide (line = "") then st
  else (st.1 +:+ (start_tokens +:+ line +:+ " " +:+ END_TOKEN +:+ " "),
        max st.2 (String.length line)).

Definition read_corpus (content : string) : string * nat :=
  fold_left read_line (file_lines content) ("", 1).

(** [words = punch_lines.split(' ')] *)
Definition corpus_words (content : string) : list string :=
  split_space (read_corpus content).1.

(** What [run] holds once the vocabulary is built (lines 79-104). *)
Record vocabulary := {
  words : list string;
  sentence_length : nat;
  dictionary : list (string * nat);
  reverse_dictionary : list (nat * string);
  end_key : nat;
  start_key : nat;
  vocab_size : nat;
  num_examples : nat
}.

(** [None]: the [KeyError] of [dictionary[END_TOKEN]] or
    [dictionary[START_TOKEN]]. *)
Definition run_vocabulary (content : string) : option vocabulary :=
  let ws := corpus_words content in
  let dr := build_dataset ws in
  e ← dict_get dr.1 END_TOKEN;
  s ← dict_get dr.1 START_TOKEN;
  Some {| words := ws;
          sentence_length := (read_corpus content).2;
          dictionary := dr.1;
          reverse_dictionary := dr.2;
          end_key := e;
          start_key := s;
          vocab_size := length dr.1;
          num_examples := length ws - N_INPUT |}.
End Corpus.

(** ** Exceptions

    A computation of the script returns, raises, or is still inside the
    seed-drawing loop when the supply of random draws handed to the model
    is used up. *)
Inductive exn := KeyError | IndexError | ValueError.

Inductive result (A : Type) :=
  | Ok (a : A)
  | Raise (e : exn)
  | OutOfDraws.
Arguments Ok {A} a.
Arguments Raise {A} e.
Arguments OutOfDraws {A}.

#[global] Instance result_ret : MRet result := λ A a, Ok a.
#[global] Instance result_bind : MBind result := λ A B f m,
  match m with
  | Ok a => f a
  | Raise e => Raise e
  | OutOfDraws => OutOfDraws
  end.

Definition lookup_or {A} (e : exn) (o : option A) : result A :=
  match o with Some a => Ok a | None => Raise e end.

(** ** Numeric vectors *)

Definition vector := list Q.

Definition Qltb (a b : Q) : bool :=
  match (a ?= b)%Q with Lt => true | _ => false end.

(** Scan for the first best entry: [best] at [best_i] so far, [i] next. *)
Fixpoint arg_best (better : Q → Q → bool) (best_i : nat) (best : Q)
    (i : nat) (xs : vector) : nat :=
  match xs with
  | [] => best_i
  | x :: xs' =>
      if better x best then arg_best better i x (S i) xs'
      else arg_best better best_i best (S i) xs'
  end.

(** [argmax] and [argmin] return the first extremal position, as numpy
    does (the framework's [argmax] breaks ties as it likes), and raise
    [ValueError] on an empty sequence. *)
Definition argmax (xs : vector) : result nat :=
  match xs with
  | [] => Raise ValueError
  | x :: xs' => Ok (arg_best (λ y best, Qltb best y) 0 x 1 xs')
  end.

Definition argmin (xs : vector) : result nat :=
  match xs with
  | [] => Raise ValueError
  | x :: xs' => Ok (arg_best (λ y best, Qltb y best) 0 x 1 xs')
  end.

Definition Qsum (xs : vector) : Q := foldr Qplus 0%Q xs.

(** [embeddings_list - pred_output]: the prediction is subtracted from
    every row. *)
Definition sub_rows (rows : list vector) (p : vector) : list vector :=
  map (λ e, zip_with Qminus e p) rows.

(** [np.linalg.norm(m, axis=0)]: one norm per column, taken down the
    rows.  The square root is increasing, so the position of the least
    norm is the position of the least sum of squares, which is what the
    model keeps. *)
Definition norm_axis0 (width : nat) (m : list vector) : vector :=
  map (λ j, Qsum (map (λ row, let x := nth j row 0%Q in (x * x)%Q) m))
      (seq 0 width).

(** The same along [axis=1]: one norm per row. *)
Definition norm_axis1 (m : list vector) : vector :=
  map (λ row, Qsum (map (λ x, (x * x)%Q) row)) m.

(** ** run: the embedding tables (lines 106-133) *)

Record embeddings := {
  index_embeddings : list (nat * vector);
  embeddings_list : list vector;
  embedding_order : list (nat * nat);
  emb_num_outputs : nat
}.

Section Embeddings.
Context `{word_embeddings}.

(** [None]: the [KeyError] of [embeddings_dict[UNKNOWN_TOKEN]]. *)
Definition load_embeddings (dictionary : list (string * nat))
    (embeddings_dict : list (string * vector)) : option embeddings :=
  unknown_embedding ← dict_get embeddings_dict UNKNOWN_TOKEN;
  let index_embeddings :=
    fold_left
      (λ ie wi,
         match dict_get embeddings_dict wi.1 with
         | Some e => dict_set ie wi.2 e
         | None => dict_set ie wi.2 unknown_embedding
         end)
      dictionary [] in
  let '(embeddings_list, embedding_order, _) :=
    fold_left
      (λ (st : list vector * list (nat * nat) * nat) we,
         let '(el, eo, order) := st in
         match dict_get dictionary we.1 with
         | Some index => (el ++ [we.2], dict_set eo order index, order + 1)
         | None => st
         end)
      embeddings_dict ([], [], 0) in
  Some {| index_embeddings := index_embeddings;
          embeddings_list := embeddings_list;
          embedding_order := embedding_order;
          emb_num_outputs := length unknown_embedding |}.
End Embeddings.

(** ** generate_sentence and convert_indices_to_sentence *)

Section Generation.
(** The vocabulary of [run], the embedding tables when an embedding file
    is given, and the session: [pred keys] is
    [sess.run(pred, feed_dict={x: keys})]. *)
Context (v : vocabulary) (emb : option embeddings).
Context (pred : list nat → vector).

(** The [while] loop of lines 177-179: [rand_key] is redrawn as long as
    it is the start or the end key. *)
Fixpoint draw_rand_key (draws : list nat) (rand_key : nat)
  : result (nat * list nat) :=
  if decide (rand_key = start_key v ∨ rand_key = end_key v) then
    match draws with
    | [] => OutOfDraws
    | r :: draws' => draw_rand_key draws' r
    end
  else Ok (rand_key, draws).

(** Lines 176-180. *)
Definition seed_window (draws : list nat) : result (list nat * list nat) :=
  let symbols_in_keys := map (λ _, start_key v) (seq 0 (N_INPUT - 1)) in
  rd ← draw_rand_key draws (start_key v);
  Ok (symbols_in_keys ++ [rd.1], rd.2).

(** Lines 186-190.  In embedding mode every row of the table must be as
    wide as the prediction for the subtraction to broadcast. *)
Definition predict_index (pred_output : vector) : result nat :=
  match emb with
  | Some e =>
      if bool_decide (embeddings_list e ≠ [] ∧
                      Forall (λ row, length row = length pred_output)
                             (embeddings_list e))
      then
        embedding_index ←
          argmin (norm_axis0 (length pred_output)
                    (sub_rows (embeddings_list e) pred_output));
        lookup_or KeyError (dict_get (embedding_order e) embedding_index)
      else Raise ValueError
  | None => argmax pred_output
  end.

(** The [for i in range(sentence_length)] loop, [n] turns left.  The
    reshape to [[-1, N_INPUT]] feeds one window only when the slice has
    [N_INPUT] entries. *)
Fixpoint decode (n i : nat) (symbols_in_keys : list nat)
  : result (list nat) :=
  match n with
  | 0 => Ok symbols_in_keys
  | S n' =>
      let keys := drop i symbols_in_keys in
      if decide (length keys = N_INPUT) then
        pred_index ← predict_index (pred keys);
        if decide (pred_index = end_key v) then Ok symbols_in_keys
        else decode n' (S i) (symbols_in_keys ++ [pred_index])
      else Raise ValueError
  end.

(** Lines 176-193: the index list handed to the renderer. *)
Definition generate_symbols (draws : list nat) : result (list nat) :=
  sd ← seed_window draws;
  decode (sentence_length v) 0 sd.1.

(** The loop of lines 210-212, [sentence] being built up. *)
Fixpoint convert_loop (symbols_in_keys : list nat) (sentence : string)
  : result string :=
  match symbols_in_keys with
  | [] => Ok sentence
  | symbol :: rest =>
      if decide (symbol ≠ start_key v) then
        w ← lookup_or KeyError (dict_get (reverse_dictionary v) symbol);
        convert_loop rest (sentence +:+ (w +:+ " "))
      else convert_loop rest sentence
  end.

Definition convert_indices_to_sentence (symbols_in_keys : list nat)
  : result string :=
  sentence ← convert_loop symbols_in_keys "";
  Ok (str_init sentence).

(** The sentence that is printed. *)
Definition generate_sentence (draws : list nat) : result string :=
  symbols_in_keys ← generate_symbols draws;
  convert_indices_to_sentence symbols_in_keys.
End Generation.

(** ** run: the training loop (lines 218-251) *)

(** What the variable [min_loss] holds (line 153).  It is a float32
    variable: it starts at [float('inf')], unless a checkpoint is restored,
    and an assignment stores a float32, which is an infinity or a number,
    kept here by its exact value. *)
Inductive min_loss_value :=
  | Inf
  | Finite (q : Q)
  | NegInf.

(** [min_loss.eval() > current_loss]: the float32 that is held is compared,
    by its value, with the mean of the batch. *)
Definition min_loss_gt (m : min_loss_value) (current_loss : Q) : bool :=
  match m with
  | Inf => true
  | Finite q => Qltb current_loss q
  | NegInf => false
  end.

(** What a run that goes on does to the outside: lines printed,
    checkpoints written, and calls of [generate_sentence] that returned. *)
Inductive event :=
  | Print_current_loss (epoch offset : nat) (current_loss : Q)
  | Save (path : string)
  | Print_saved (current_loss : Q)
  | Generate_sentence.

Section Training.
Context `{file_access}.
(** The [--model-file] in use, ['test_model'] when no flag is given. *)
Context (model_file : string).

Definition save_model_path : string := path_join SAVED_MODEL_FOLDER model_file.
Definition final_model_path : string := path_join SAVED_MODEL_FOLDER "final".

(** The session: [train_op s keys target] is one
    [sess.run([summary_merge, optimizer, cost, pred], ...)], giving the
    updated parameters and the loss of the example. *)
Context {net : Type}.
Context (train_op : net → list nat → vector → net * Q).
Context (v : vocabulary) (emb : option embeddings).

(** [float32 current_loss] is what [min_loss] holds after
    [min_loss.assign(current_loss)]: the mean as a float32.
    [pred s keys] is [sess.run(pred, feed_dict={x: keys})] in a session
    whose parameters are [s].  [draws epoch offset] are the numbers the
    random source hands to the call of [generate_sentence] made in the turn
    [(epoch, offset)] of the loops. *)
Context (float32 : Q → min_loss_value).
Context (pred : net → list nat → vector).
Context (draws : nat → nat → list nat).

Definition num_outputs : nat :=
  match emb with
  | Some e => emb_num_outputs e
  | None => vocab_size v
  end.

Record train_state := {
  sess : net;
  batch_counter : nat;
  total_loss : Q;
  min_loss : min_loss_value
}.

(** [dictionary[str(words[i])]] *)
Definition word_key (i : nat) : result nat :=
  w ← lookup_or IndexError (words v !! i);
  lookup_or KeyError (dict_get (dictionary v) w).

Fixpoint window_keys (positions : list nat) : result (list nat) :=
  match positions with
  | [] => Ok []
  | i :: rest => k ← word_key i; ks ← window_keys rest; Ok (k :: ks)
  end.

(** Lines 225-230: the target of the example. *)
Definition target (word_index : nat) : result vector :=
  match emb with
  | Some e => lookup_or KeyError (dict_get (index_embeddings e) word_index)
  | None =>
      if decide (word_index < num_outputs)
      then Ok (<[word_index := 1%Q]> (replicate num_outputs 0%Q))
      else Raise IndexError
  end.

(** Lines 237-244 and 247-248: what a batch boundary does before it
    generates a sentence, and whether it goes on to generate one.  The
    counter is reset, the mean is reported, and then either the minimum is
    assigned, the model saved and the loss reported again, or the final
    checkpoint is written, or nothing more is done. *)
Definition boundary_writes (epoch offset : nat) (st : train_state)
  : train_state * list event * bool :=
  let current_loss := (total_loss st / inject_Z (Z.of_nat BATCH_SIZE))%Q in
  let printed := Print_current_loss epoch offset current_loss in
  if min_loss_gt (min_loss st) current_loss then
    ({| sess := sess st; batch_counter := 0; total_loss := total_loss st;
        min_loss := float32 current_loss |},
     [printed; Save save_model_path; Print_saved current_loss], true)
  else if decide (offset `mod` GENERATE_INCREMENT = GENERATE_INCREMENT - 1) then
    ({| sess := sess st; batch_counter := 0; total_loss := total_loss st;
        min_loss := min_loss st |},
     [printed; Save final_model_path], true)
  else
    ({| sess := sess st; batch_counter := 0; total_loss := total_loss st;
        min_loss := min_loss st |},
     [printed], false).

(** Lines 237-251: the body of [if batch_counter >= BATCH_SIZE].  After
    its writes the boundary calls [generate_sentence] (lines 245 and 249),
    which runs the generation in the session as it is then; when the call
    raises, the loop ends with that exception, the writes having been
    made.  The total is reset last. *)
Definition batch_boundary (epoch offset : nat) (st : train_state)
  : result (train_state * list event) :=
  let '(st1, evs, generates) := boundary_writes epoch offset st in
  evs' ← (if generates : bool then
            _ ← generate_sentence v emb (pred (sess st1)) (draws epoch offset);
            Ok (evs ++ [Generate_sentence])
          else Ok evs);
  Ok ({| sess := sess st1; batch_counter := batch_counter st1;
         total_loss := 0%Q; min_loss := min_loss st1 |}, evs').

(** Lines 222-251: one turn of the inner loop. *)
Definition train_step (epoch offset : nat) (st : train_state)
  : result (train_state * list event) :=
  symbols_in_keys ← window_keys (seq offset N_INPUT);
  word_index ← word_key (offset + N_INPUT);
  symbols_out ← target word_index;
  let '(sess', loss) := train_op (sess st) symbols_in_keys symbols_out in
  let st1 := {| sess := sess';
                batch_counter := batch_counter st + 1;
                total_loss := (total_loss st + loss)%Q;
                min_loss := min_loss st |} in
  if decide (BATCH_SIZE ≤ batch_counter st1)
  then batch_boundary epoch offset st1
  else Ok (st1, []).

(** A [for] loop over [xs] that threads the state and collects the
    events. *)
Fixpoint for_each {A} (body : A → train_state → result (train_state * list event))
    (xs : list A) (st : train_state) : result (train_state * list event) :=
  match xs with
  | [] => Ok (st, [])
  | x :: xs' =>
      r ← body x st;
      r' ← for_each body xs' r.1;
      Ok (r'.1, r.2 ++ r'.2)
  end.

Definition train_epoch (epoch : nat) (st : train_state)
  : result (train_state * list event) :=
  for_each (train_step epoch) (seq 0 (num_examples v)) st.

(** The [else] branch of [if test]: lines 218-251. *)
Definition train (sess0 : net) (min_loss0 : min_loss_value)
  : result (train_state * list event) :=
  for_each train_epoch (seq 0 EPOCHS)
    {| sess := sess0; batch_counter := 0; total_loss := 0%Q;
       min_loss := min_loss0 |}.
End Training.

(** ** Notions the properties speak of *)

(** How often a token occurs, and where it is first met. *)
Definition occurrences (w : string) (ws : list string) : nat :=
  length (filter (λ x, x = w) ws).

Fixpoint first_position (w : string) (ws : list string) : nat :=
  match ws with
  | [] => 0
  | x :: ws' => if decide (x = w) then 0 else S (first_position w ws')
  end.

(** The order of [most_common]: larger count first, and among equal counts
    the smaller [rank] first. *)
Definition count_order (rank : string → nat) (x y : string * nat) : Prop :=
  y.2 < x.2 ∨ (x.2 = y.2 ∧ rank x.1 < rank y.1).

(** The keys of the dictionary, in index order. *)
Definition ranked_tokens (ws : list string) : list string :=
  (most_common (Counter ws)).*1.

(** A line that [run] skips: nothing but its newline. *)
Definition blank_line (line : string) : Prop := strip_newline line = "".

#[global] Instance blank_line_dec (line : string) : Decision (blank_line line) :=
  decide (strip_newline line = "").

(** The three marker tokens. *)
Definition marker_tokens `{word_embeddings} : list string :=
  [START_TOKEN; END_TOKEN; UNKNOWN_TOKEN].

(** A vocabulary of one entry that is a marker token. *)
Definition single_marker_vocabulary `{word_embeddings} (content : string)
  : Prop :=
  ∃ m, m ∈ marker_tokens ∧ (build_dataset (corpus_words content)).1 = [(m, 0)].

(** [' '.join(ws)] *)
Fixpoint join_space (ws : list string) : string :=
  match ws with
  | [] => ""
  | [w] => w
  | w :: ws' => w +:+ " " +:+ join_space ws'
  end.

(** [' ' in w] *)
Fixpoint has_space (w : string) : bool :=
  match w with
  | EmptyString => false
  | String c w' => if decide (c = space) then true else has_space w'
  end.

(** The words the renderer puts into the sentence, one per index. *)
Definition rendered_as (v : vocabulary) (symbols_in_keys : list nat)
    (ws : list string) : Prop :=
  Forall2 (λ symbol w, dict_get (reverse_dictionary v) symbol = Some w)
          (filter (λ symbol, symbol ≠ start_key v) symbols_in_keys) ws.

(** An index that belongs to none of the marker tokens. *)
Definition non_marker_key `{word_embeddings} (v : vocabulary) (r : nat) : Prop :=
  ∀ m, m ∈ marker_tokens → dict_get (dictionary v) m ≠ Some r.

(** The seed window as [N_INPUT - 1] start keys and then a key of no marker
    token. *)
Definition seed_avoids_markers `{word_embeddings} (v : vocabulary)
    (draws : list nat) : Prop :=
  ∀ window rest,
    seed_window v draws = Ok (window, rest) →
    ∃ r, window = replicate (N_INPUT - 1) (start_key v) ++ [r] ∧
         non_marker_key v r.

(** The new mean loss is strictly below the recorded minimum. *)
Definition improves (current_loss : Q) (m : min_loss_value) : Prop :=
  match m with
  | Inf => True
  | Finite q => (current_loss < q)%Q
  | NegInf => False
  end.

(** One minimum is strictly below another. *)
Definition min_loss_lt (new old : min_loss_value) : Prop :=
  match new with
  | Inf => False
  | Finite q => improves q old
  | NegInf => old ≠ NegInf
  end.

Definition min_loss_le (new old : min_loss_value) : Prop :=
  new = old ∨ min_loss_lt new old.

(** [losses] are the losses of the examples since the last batch
    boundary, in order. *)
Definition batch_of {net : Type} (st : @train_state net) (losses : list Q)
  : Prop :=
  batch_counter st = length losses ∧
  total_loss st = fold_left Qplus losses 0%Q.

(** The rule at a batch boundary that ends with mean loss [current_loss],
    as the description has it: a checkpoint goes to [model_path] exactly
    when the mean improves on the minimum, and the minimum moves, to that
    mean and so downwards, exactly then. *)
Definition stated_improvement_rule {net : Type} (model_path : string)
    (st st' : @train_state net) (evs : list event) (current_loss : Q) : Prop :=
  (Save model_path ∈ evs ↔ improves current_loss (min_loss st)) ∧
  (min_loss st' ≠ min_loss st ↔ Save model_path ∈ evs) ∧
  (min_loss st' = min_loss st ∨
   min_loss st' = Finite current_loss ∧ min_loss_lt (min_loss st') (min_loss st)).


(** The row of the table nearest to a predicted vector, as the
    description of generation has it: least Euclidean distance, row by
    row. *)
Definition nearest_row (rows : list vector) (p : vector) : result nat :=
  argmin (norm_axis1 (sub_rows rows p)).

(** The vocabulary index of that row. *)
Definition nearest_vocabulary_index (e : embeddings) (p : vector) : result nat :=
  row ← nearest_row (embeddings_list e) p;
  lookup_or KeyError (dict_get (embedding_order e) row).

(** What a full turn of the training loop is said to do, whatever the
    paths: the session makes a training step, and the rule of the
    description holds when the batch is full, while nothing is written
    otherwise. *)
Definition stated_checkpoint_rule `{file_access} (model_file : string)
    {net : Type} (train_op : net → list nat → vector → net * Q)
    (st st' : @train_state net) (evs : list event) : Prop :=
  ∃ symbols_in_keys symbols_out loss,
    train_op (sess st) symbols_in_keys symbols_out = (sess st', loss) ∧
    if decide (BATCH_SIZE ≤ batch_counter st + 1) then
      stated_improvement_rule (save_model_path model_file) st st' evs
        ((total_loss st + loss) / inject_Z (Z.of_nat BATCH_SIZE))%Q
    else evs = [] ∧ min_loss st' = min_loss st.


(** A value a float32 variable can hold: an infinity, or a number that the
    rounding leaves as it is. *)
Definition stored (float32 : Q → min_loss_value) (m : min_loss_value) : Prop :=
  match m with
  | Finite q => float32 q = Finite q
  | _ => True
  end.

(** The losses reported with a saved model, in the order of the reports. *)
Definition saved_losses (evs : list event) : list Q :=
  omap (λ ev, match ev with Print_saved l => Some l | _ => None end) evs.

(** Each of the losses improves on what the variable holds when it comes:
    [m] for the first, the float32 of the one before for the others. *)
Fixpoint improving_from (float32 : Q → min_loss_value) (m : min_loss_value)
    (losses : list Q) : Prop :=
  match losses with
  | [] => True
  | l :: losses' => improves l m ∧ improving_from float32 (float32 l) losses'
  end.

(** ** The float32 nearest to a number

    The worked examples need the rounding of [min_loss.assign]: to the
    nearest float32, ties to the even one, with 24 bits of precision, the
    least exponent -126 and an infinity from [2^128 - 2^103] on.  The
    properties hold for any rounding. *)

(** [n / d] to the nearest integer, ties to the even one, for [n] not
    negative and [d] positive. *)
Definition round_half_even (n d : Z) : Z :=
  let q := (n / d)%Z in
  match (2 * (n mod d) ?= d)%Z with
  | Lt => q
  | Gt => (q + 1)%Z
  | Eq => if Z.even q then q else (q + 1)%Z
  end.

Definition binary32 (x : Q) : min_loss_value :=
  let n := Z.abs (Qnum x) in
  let d := Z.pos (Qden x) in
  if (n =? 0)%Z then Finite 0%Q
  else
    (* the exponent [e1]: [2 ^ e1 <= n / d < 2 ^ (e1 + 1)] *)
    let e0 := (Z.log2 n - Z.log2 d)%Z in
    let e1 := if (n * 2 ^ Z.max 0 (- e0) <? d * 2 ^ Z.max 0 e0)%Z
              then (e0 - 1)%Z else e0 in
    (* the step [2 ^ u] between the float32 around [n / d] *)
    let u := (Z.max e1 (-126) - 23)%Z in
    let m := round_half_even (n * 2 ^ Z.max 0 (- u)) (d * 2 ^ Z.max 0 u) in
    let num := (m * 2 ^ Z.max 0 u)%Z in
    if (2 ^ 128 <=? num)%Z then
      if (Qnum x <? 0)%Z then NegInf else Inf
    else
      Finite (Qmake (if (Qnum x <? 0)%Z then (- num)%Z else num)
                    (Z.to_pos (2 ^ Z.max 0 (- u)))).

(** The worked examples need values for the constants of the two absent
    modules; these stand in for them.  The properties above the examples
    hold for any values. *)
Definition example_markers : word_embeddings :=
  {| END_TOKEN := "<END>"; START_TOKEN := "<START>"; UNKNOWN_TOKEN := "<UNK>" |}.

Definition example_files : file_access :=
  {| SAVED_MODEL_FOLDER := "saved_models"; PICKLE_EXTENSION := ".pickle" |}.

Definition nl : string := String newline "".

(** ** Worked inputs *)

(** The two-sentence corpus of the end-to-end scenario. *)
Definition hello_corpus : string :=
  "hello world" +:+ nl +:+ nl +:+ "hello there" +:+ nl.

Definition hello_vocabulary : vocabulary :=
  {| words := ["<START>"; "<START>"; "<START>"; "hello"; "world"; "<END>";
               "<START>"; "<START>"; "<START>"; "hello"; "there"; "<END>"; ""];
     sentence_length := 11;
     dictionary := [("<START>", 0); ("hello", 1); ("<END>", 2);
                    ("world", 3); ("there", 4); ("", 5)];
     reverse_dictionary := [(0, "<START>"); (1, "hello"); (2, "<END>");
                            (3, "world"); (4, "there"); (5, "")];
     end_key := 2;
     start_key := 0;
     vocab_size := 6;
     num_examples := 10 |}.

(** A session that predicts [world] after [hello], the end token after
    [world], and [hello] otherwise. *)
Definition hello_pred (keys : list nat) : vector :=
  match last keys with
  | Some 1 => [0; 0; 0; 1; 0; 0]%Q
  | Some 3 => [0; 0; 1; 0; 0; 0]%Q
  | _ => [0; 1; 0; 0; 0; 0]%Q
  end.

(** A corpus that spells out the unknown token. *)
Definition unk_corpus : string := "hi <UNK>" +:+ nl.

Definition unk_vocabulary : vocabulary :=
  {| words := ["<START>"; "<START>"; "<START>"; "hi"; "<UNK>"; "<END>"; ""];
     sentence_length := 8;
     dictionary := [("<START>", 0); ("hi", 1); ("<UNK>", 2); ("<END>", 3);
                    ("", 4)];
     reverse_dictionary := [(0, "<START>"); (1, "hi"); (2, "<UNK>");
                            (3, "<END>"); (4, "")];
     end_key := 3;
     start_key := 0;
     vocab_size := 5;
     num_examples := 4 |}.

(** A corpus of two words with a pretrained table of two-dimensional
    vectors. *)
Definition ab_corpus : string := "a b" +:+ nl.

Definition ab_vocabulary : vocabulary :=
  {| words := ["<START>"; "<START>"; "<START>"; "a"; "b"; "<END>"; ""];
     sentence_length := 3;
     dictionary := [("<START>", 0); ("a", 1); ("b", 2); ("<END>", 3); ("", 4)];
     reverse_dictionary := [(0, "<START>"); (1, "a"); (2, "b"); (3, "<END>");
                            (4, "")];
     end_key := 3;
     start_key := 0;
     vocab_size := 5;
     num_examples := 4 |}.

Definition ab_table : list (string * vector) :=
  [("<UNK>", [1; 1]%Q); ("a", [0; 5]%Q); ("b", [3; 0]%Q)].

Definition ab_embeddings : embeddings :=
  {| index_embeddings := [(0, [1; 1]%Q); (1, [0; 5]%Q); (2, [3; 0]%Q);
                          (3, [1; 1]%Q); (4, [1; 1]%Q)];
     embeddings_list := [[0; 5]%Q; [3; 0]%Q];
     embedding_order := [(0, 1); (1, 2)];
     emb_num_outputs := 2 |}.

(** One line of ten thousand words, long enough for the offset of the
    final-checkpoint cadence to be reached. *)
Fixpoint repeat_words (w : string) (n : nat) : string :=
  match n with
  | 0 => w
  | S n' => w +:+ " " +:+ repeat_words w n'
  end.

Definition long_corpus : string := repeat_words "ha" 9999 +:+ nl.

Definition long_vocabulary : vocabulary :=
  {| words := ["<START>"; "<START>"; "<START>"] ++ replicate 10000 "ha"
              ++ ["<END>"; ""];
     sentence_length := 29999;
     dictionary := [("ha", 0); ("<START>", 1); ("<END>", 2); ("", 3)];
     reverse_dictionary := [(0, "ha"); (1, "<START>"); (2, "<END>"); (3, "")];
     end_key := 2;
     start_key := 1;
     vocab_size := 4;
     num_examples := 10002 |}.

(** A session whose every training step has loss zero. *)
Definition zero_loss_op (s : unit) (_ : list nat) (_ : vector) : unit * Q :=
  (s, 0%Q).

(** A session whose every training step has loss one. *)
Definition unit_loss_op (s : unit) (_ : list nat) (_ : vector) : unit * Q :=
  (s, 1%Q).

(** A fresh run, and the same run 9999 examples into its first epoch. *)
Definition fresh_state : @train_state unit :=
  {| sess := tt; batch_counter := 0; total_loss := 0%Q; min_loss := Inf |}.

Definition state_9999 : @train_state unit :=
  {| sess := tt; batch_counter := 999; total_loss := 0%Q;
     min_loss := Finite 0 |}.

(** The same run [k] examples into its first epoch, for [k] up to 9999. *)
Definition state_after (k : nat) : @train_state unit :=
  {| sess := tt; batch_counter := k `mod` BATCH_SIZE; total_loss := 0%Q;
     min_loss := if decide (k < BATCH_SIZE) then Inf else Finite 0 |}.


(** A corpus of one line of eighteen words, which gives twenty examples
    an epoch. *)
Definition ha_corpus : string := repeat_words "ha" 17 +:+ nl.

Definition ha_vocabulary : vocabulary :=
  {| words := ["<START>"; "<START>"; "<START>"] ++ replicate 18 "ha"
              ++ ["<END>"; ""];
     sentence_length := 53;
     dictionary := [("ha", 0); ("<START>", 1); ("<END>", 2); ("", 3)];
     reverse_dictionary := [(0, "ha"); (1, "<START>"); (2, "<END>"); (3, "")];
     end_key := 2;
     start_key := 1;
     vocab_size := 4;
     num_examples := 20 |}.

(** A session that counts its training steps and has loss two on every
    thousandth step, from the first on, and loss one otherwise: every
    batch has the mean loss 1.001. *)
Definition counting_loss_op (s : nat) (_ : list nat) (_ : vector) : nat * Q :=
  (S s, if decide (s `mod` 1000 = 0) then 2%Q else 1%Q).

(** That run one example short of its second full batch: the first batch
    had the mean 1.001, and the minimum is the float32 of it. *)
Definition state_equal_mean : @train_state nat :=
  {| sess := 1999; batch_counter := 999; total_loss := 1000%Q;
     min_loss := Finite (8396997 # 8388608) |}.

(** The session of the two-sentence corpus whatever its parameters, and a
    random source that always draws the key of [hello]. *)
Definition hello_session (_ : unit) : list nat → vector := hello_pred.

Definition hello_draws (_ _ : nat) : list nat := [1].

(** On the long corpus: a session that predicts the end token, and a
    random source that always draws the key of [ha]. *)
Definition end_session {net : Type} (_ : net) (_ : list nat) : vector :=
  [0; 0; 1; 0]%Q.

Definition ha_draws (_ _ : nat) : list nat := [0].

(** A pretrained table that has the unknown token only, and the tables
    loaded from it for the two-sentence corpus: every index gets the
    unknown vector, and there is no row. *)
Definition unk_only_table : list (string * vector) := [("<UNK>", [1; 1]%Q)].

Definition unk_only_embeddings : embeddings :=
  {| index_embeddings := [(0, [1; 1]%Q); (1, [1; 1]%Q); (2, [1; 1]%Q);
                          (3, [1; 1]%Q); (4, [1; 1]%Q); (5, [1; 1]%Q)];
     embeddings_list := [];
     embedding_order := [];
     emb_num_outputs := 2 |}.

(** ** Further notions *)

(** The lines [run] keeps: each line without its newline, the empty ones
    left out. *)
Definition kept_lines (content : string) : list string :=
  filter (λ line, line ≠ "") (strip_newline <$> file_lines content).

(** The tokens one kept line adds: [N_INPUT] start tokens, the line cut at
    its spaces, one end token. *)
Definition line_tokens `{word_embeddings} (line : string) : list string :=
  replicate N_INPUT START_TOKEN ++ split_space line ++ [END_TOKEN].

(** The items of the pretrained table whose word is in the vocabulary, in
    the order of the table, each with the index of its word. *)
Definition table_rows (dictionary : list (string * nat))
    (embeddings_dict : list (string * vector)) : list (string * vector * nat) :=
  omap (λ we, (λ index, (we.1, we.2, index)) <$> dict_get dictionary we.1)
       embeddings_dict.

(** The lines [Print_current_loss] among the events, and the losses
    reported by [Print_saved]. *)
Definition is_report (ev : event) : bool :=
  match ev with
  | Print_current_loss _ _ _ => true
  | _ => false
  end.

Definition reports (evs : list event) : nat := length (List.filter is_report evs).

(** The events of one batch boundary (lines 237-249) of a run over the
    vocabulary [v]: the report of the mean loss, made when the number of
    examples seen so far is a multiple of [BATCH_SIZE], and after it a
    checkpoint on the model path with its report and a sentence, or a
    checkpoint on the final path and a sentence, or nothing. *)
Definition boundary_block `{file_access} (model_file : string) (v : vocabulary)
    (block : list event) : Prop :=
  ∃ epoch offset current_loss tail,
    block = Print_current_loss epoch offset current_loss :: tail ∧
    epoch < EPOCHS ∧ offset < num_examples v ∧
    (epoch * num_examples v + offset + 1) `mod` BATCH_SIZE = 0 ∧
    (tail = [Save (save_model_path model_file); Print_saved current_loss;
             Generate_sentence] ∨
     tail = [Save final_model_path; Generate_sentence] ∧
       offset `mod` GENERATE_INCREMENT = GENERATE_INCREMENT - 1 ∨
     tail = []).

(** The state at the end of the training run on the two-sentence corpus
    with a session whose every loss is one. *)
Definition hello_trained : @train_state unit :=
  {| sess := tt; batch_counter := 0; total_loss := 0%Q;
     min_loss := Finite (8388608 # 8388608) |}.

Definition hello_trace : list event :=
  [Print_current_loss 99 9 (1000 # 1000); Save "saved_models/test_model";
   Print_saved (1000 # 1000); Generate_sentence].

Example build_dataset_aab :
  build_dataset ["a"; "a"; "b"] = ([("a", 0); ("b", 1)], [(0, "a"); (1, "b")]).
Proof. reflexivity. Qed.

Example build_dataset_ties :
  build_dataset ["x"; "y"; "z"; "y"; "z"; "w"]
  = ([("y", 0); ("z", 1); ("x", 2); ("w", 3)],
     [(0, "y"); (1, "z"); (2, "x"); (3, "w")]).
Proof. reflexivity. Qed.

(** * Properties *)

(** ** Dictionaries *)

Section PyDictFacts.
Context {K V : Type} `{EqDecision K}.
Implicit Types (d : list (K * V)) (k : K) (v : V).

Lemma dict_get_None d k : dict_get d k = None ↔ k ∉ d.*1.
Proof.
  induction d as [|[k' v'] d IH]; simpl.
  - split; [intros _; apply not_elem_of_nil | done].
  - rewrite not_elem_of_cons. destruct (decide (k' = k)) as [->|Hne].
    + split; [done | intros [? _]; done].
    + rewrite IH. split; [intros ?; split; [congruence | done] | intros [_ ?]; done].
Qed.

Lemma dict_get_elem_of d k v : dict_get d k = Some v → (k, v) ∈ d.
Proof.
  induction d as [|[k' v'] d IH]; simpl; [done|].
  destruct (decide (k' = k)) as [->|Hne].
  - intros [= ->]. left.
  - intros. right. auto.
Qed.

Lemma elem_of_dict_get d k v : NoDup d.*1 → (k, v) ∈ d → dict_get d k = Some v.
Proof.
  induction d as [|[k' v'] d IH]; simpl.
  - intros _ Hin. by apply elem_of_nil in Hin.
  - rewrite NoDup_cons. intros [Hk Hd] Hin.
    apply elem_of_cons in Hin as [[= -> ->]|Hin].
    + by rewrite decide_True.
    + rewrite decide_False; [auto|].
      intros ->. apply Hk. apply list_elem_of_fmap. by exists (k, v).
Qed.

Lemma dict_get_set_eq d k v : dict_get (dict_set d k v) k = Some v.
Proof.
  induction d as [|[k' v'] d IH]; simpl.
  - by rewrite decide_True.
  - destruct (decide (k' = k)) as [->|Hne]; simpl.
    + by rewrite decide_True.
    + by rewrite decide_False.
Qed.

Lemma dict_get_set_ne d k k' v :
  k ≠ k' → dict_get (dict_set d k v) k' = dict_get d k'.
Proof.
  intros Hne. induction d as [|[k0 v0] d IH]; simpl.
  - by rewrite decide_False.
  - destruct (decide (k0 = k)) as [->|Hne0]; simpl.
    + by rewrite !decide_False.
    + by rewrite IH.
Qed.

(** A new key goes to the end. *)
Lemma dict_set_fresh d k v : k ∉ d.*1 → dict_set d k v = d ++ [(k, v)].
Proof.
  induction d as [|[k' v'] d IH]; simpl; [done|].
  rewrite not_elem_of_cons. intros [Hne Hk].
  rewrite decide_False by congruence. by rewrite IH.
Qed.

(** Assigning to a key leaves the keys and their order as they are. *)
Lemma dict_set_keys_present d k v : k ∈ d.*1 → (dict_set d k v).*1 = d.*1.
Proof.
  induction d as [|[k' v'] d IH]; simpl.
  - intros Hin. by apply elem_of_nil in Hin.
  - intros Hin. destruct (decide (k' = k)) as [->|Hne]; simpl; [done|].
    f_equal. apply IH. apply elem_of_cons in Hin as [?|?]; [congruence|done].
Qed.

(** [dict(pairs)] keeps pairs with distinct keys as they are. *)
Lemma fold_dict_set_fresh (pairs acc : list (K * V)) :
  NoDup (acc.*1 ++ pairs.*1) →
  fold_left (λ d kv, dict_set d kv.1 kv.2) pairs acc = acc ++ pairs.
Proof.
  revert acc. induction pairs as [|[k v] pairs IH]; intros acc Hnd; simpl.
  - by rewrite app_nil_r.
  - simpl in Hnd. apply NoDup_app in Hnd as Hnd'.
    destruct Hnd' as (_ & Hdisj & _).
    rewrite dict_set_fresh.
    + rewrite IH; [by rewrite <- app_assoc|].
      rewrite fmap_app. simpl. by rewrite <- app_assoc.
    + intros Hin. apply (Hdisj _ Hin). left.
Qed.

Lemma dict_of_NoDup (pairs : list (K * V)) :
  NoDup pairs.*1 → dict_of pairs = pairs.
Proof. intros Hnd. unfold dict_of. by rewrite fold_dict_set_fresh. Qed.
End PyDictFacts.

(** Looking a key up in keys zipped with their positions. *)
Lemma dict_get_zip_seq {K} `{EqDecision K} (ks : list K) (k : K) (i j : nat) :
  NoDup ks →
  dict_get (zip ks (seq j (length ks))) k = Some (j + i) ↔ ks !! i = Some k.
Proof.
  revert i j. induction ks as [|k0 ks IH]; intros i j Hnd; simpl.
  - by split.
  - apply NoDup_cons in Hnd as [Hk0 Hnd].
    destruct (decide (k0 = k)) as [->|Hne].
    + split.
      * intros [= Hij]. assert (i = 0) as -> by lia. done.
      * destruct i as [|i]; simpl.
        -- intros _. f_equal. lia.
        -- intros Hl. apply list_elem_of_lookup_2 in Hl. done.
    + destruct i as [|i]; simpl.
      * split; [|congruence]. intros Hget.
        apply dict_get_elem_of, elem_of_zip_r, elem_of_seq in Hget. lia.
      * rewrite <- (IH i (S j) Hnd). by replace (S j + i) with (j + S i) by lia.
Qed.

(** Looking a position up in positions zipped with values. *)
Lemma dict_get_seq_zip {V} (vs : list V) (i j : nat) :
  dict_get (zip (seq j (length vs)) vs) (j + i) = vs !! i.
Proof.
  revert i j. induction vs as [|v vs IH]; intros i j; simpl; [done|].
  destruct i as [|i]; simpl.
  - rewrite decide_True by lia. done.
  - rewrite decide_False by lia.
    replace (j + S i) with (S j + i) by lia. apply IH.
Qed.

Lemma fst_zip_seq {K} (ks : list K) j : (zip ks (seq j (length ks))).*1 = ks.
Proof. apply fst_zip. by rewrite length_seq. Qed.

Lemma snd_zip_seq {K} (ks : list K) j :
  (zip ks (seq j (length ks))).*2 = seq j (length ks).
Proof. apply snd_zip. by rewrite length_seq. Qed.

(** ** Counter and most_common *)

Lemma Counter_snoc ws w :
  Counter (ws ++ [w])
  = dict_set (Counter ws) w (default 0 (dict_get (Counter ws) w) + 1).
Proof. unfold Counter. by rewrite fold_left_app. Qed.

Lemma occurrences_snoc w a ws :
  occurrences a (ws ++ [w])
  = occurrences a ws + (if decide (w = a) then 1 else 0).
Proof.
  unfold occurrences. rewrite filter_app, length_app. f_equal.
  rewrite filter_cons, filter_nil. by destruct (decide (w = a)).
Qed.

Lemma occurrences_pos w ws : w ∈ ws ↔ 0 < occurrences w ws.
Proof.
  unfold occurrences. induction ws as [|x ws IH].
  - rewrite elem_of_nil. simpl. lia.
  - rewrite elem_of_cons, filter_cons.
    destruct (decide (x = w)) as [->|Hne]; simpl.
    + split; [lia | auto].
    + rewrite IH. split; [intros [?|?]; [congruence | done] | auto].
Qed.

Lemma first_position_lt w ws : w ∈ ws → first_position w ws < length ws.
Proof.
  induction ws as [|x ws IH]; simpl.
  - intros Hin. by apply elem_of_nil in Hin.
  - intros Hin. destruct (decide (x = w)); [lia|].
    apply elem_of_cons in Hin as [?|?]; [congruence|]. specialize (IH H). lia.
Qed.

Lemma first_position_app_l w ws ws' :
  w ∈ ws → first_position w (ws ++ ws') = first_position w ws.
Proof.
  induction ws as [|x ws IH]; simpl.
  - intros Hin. by apply elem_of_nil in Hin.
  - intros Hin. destruct (decide (x = w)); [done|]. f_equal. apply IH.
    apply elem_of_cons in Hin as [?|?]; [congruence | done].
Qed.

Lemma first_position_app_r w ws ws' :
  w ∉ ws → first_position w (ws ++ ws') = length ws + first_position w ws'.
Proof.
  induction ws as [|x ws IH]; simpl; [done|].
  rewrite not_elem_of_cons. intros [Hne Hin].
  rewrite decide_False by congruence. by rewrite IH.
Qed.

(** The first occurrence is an occurrence, and the first one. *)
Lemma first_position_lookup w ws :
  w ∈ ws →
  ws !! first_position w ws = Some w ∧
  ∀ j, j < first_position w ws → ws !! j ≠ Some w.
Proof.
  induction ws as [|x ws IH]; simpl.
  - intros Hin. by apply elem_of_nil in Hin.
  - intros Hin. destruct (decide (x = w)) as [->|Hne].
    + split; [done | intros; lia].
    + apply elem_of_cons in Hin as [?|Hin]; [congruence|].
      destruct (IH Hin) as [Hl Hmin]. split; [done|].
      intros [|j] Hj; simpl; [congruence | apply Hmin; lia].
Qed.

Lemma StronglySorted_on {A} (R R' : relation A) (l : list A) :
  (∀ x y, x ∈ l → y ∈ l → R x y → R' x y) →
  StronglySorted R l → StronglySorted R' l.
Proof.
  induction l as [|a l IH]; intros Himp Hs; [constructor|].
  apply StronglySorted_cons in Hs as [Hall Hs]. apply StronglySorted_cons. split.
  - rewrite Forall_forall in Hall |- *. intros y Hy.
    apply Himp; [left | by right | by apply Hall].
  - apply IH; [|done]. intros x y Hx Hy. apply Himp; by right.
Qed.

Lemma StronglySorted_lookup_lt {A} (R : relation A) (l : list A) i j x y :
  StronglySorted R l → l !! i = Some x → l !! j = Some y → i < j → R x y.
Proof.
  intros Hs Hi Hj Hij.
  rewrite <- (take_drop j l) in Hs.
  apply (StronglySorted_app_1_elem_of _ _ _ x y Hs).
  - apply list_elem_of_lookup. exists i. by rewrite lookup_take_lt.
  - apply list_elem_of_lookup. exists 0. by rewrite lookup_drop, Nat.add_0_r.
Qed.

(** The counter holds every token once, with its number of occurrences,
    in the order in which the tokens are first met. *)
Lemma Counter_inv ws :
  NoDup (Counter ws).*1 ∧
  (∀ w, w ∈ (Counter ws).*1 ↔ w ∈ ws) ∧
  (∀ w, w ∈ ws → dict_get (Counter ws) w = Some (occurrences w ws)) ∧
  StronglySorted (λ a b, first_position a ws < first_position b ws)
                 (Counter ws).*1.
Proof.
  induction ws as [|w ws IH] using rev_ind.
  - simpl. split; [apply NoDup_nil_2|]. split; [done|].
    split; [|constructor]. intros w Hin. by apply elem_of_nil in Hin.
  - destruct IH as (Hnd & Hkeys & Hget & Hsort).
    rewrite Counter_snoc. set (c := Counter ws) in *.
    destruct (decide (w ∈ ws)) as [Hin|Hnin].
    + assert (w ∈ c.*1) as Hk by by apply Hkeys.
      rewrite (dict_set_keys_present c w _ Hk).
      split; [done|]. split; [|split].
      * intros a. rewrite Hkeys, elem_of_app, list_elem_of_singleton.
        split; [auto | intros [?| ->]; done].
      * intros a Ha. rewrite occurrences_snoc.
        destruct (decide (w = a)) as [->|Hne].
        -- rewrite dict_get_set_eq, (Hget a Hin). done.
        -- rewrite dict_get_set_ne by done.
           rewrite Nat.add_0_r. apply Hget.
           apply elem_of_app in Ha as [?|Ha]; [done|].
           apply list_elem_of_singleton in Ha. congruence.
      * eapply StronglySorted_on; [|exact Hsort]. simpl.
        intros a b Ha Hb. apply Hkeys in Ha, Hb.
        by rewrite !first_position_app_l.
    + assert (w ∉ c.*1) as Hk by by rewrite Hkeys.
      rewrite (dict_set_fresh c w _ Hk), fmap_app. simpl.
      split; [|split; [|split]].
      * apply NoDup_app. split; [done|]. split; [|apply NoDup_singleton].
        intros a Ha Ha'. apply list_elem_of_singleton in Ha'. congruence.
      * intros a. rewrite !elem_of_app, Hkeys. done.
      * intros a Ha. rewrite occurrences_snoc.
        destruct (decide (w = a)) as [->|Hne].
        -- rewrite <- (dict_set_fresh c a _ Hk), dict_get_set_eq.
           apply dict_get_None in Hk. rewrite Hk. simpl.
           f_equal. destruct (occurrences_pos a ws) as [_ Hpos].
           destruct (occurrences a ws); [done|]. exfalso. apply Hnin, Hpos. lia.
        -- rewrite <- (dict_set_fresh c w _ Hk), dict_get_set_ne by done.
           rewrite Nat.add_0_r. apply Hget.
           apply elem_of_app in Ha as [?|Ha]; [done|].
           apply list_elem_of_singleton in Ha. congruence.
      * apply StronglySorted_app. split; [|split].
        -- intros a b Ha Hb. apply list_elem_of_singleton in Hb as ->.
           apply Hkeys in Ha.
           rewrite first_position_app_l, first_position_app_r by done.
           pose proof (first_position_lt a ws Ha). lia.
        -- eapply StronglySorted_on; [|exact Hsort]. simpl.
           intros a b Ha Hb. apply Hkeys in Ha, Hb.
           by rewrite !first_position_app_l.
        -- repeat constructor.
Qed.

Lemma insert_desc_perm x l : insert_desc x l ≡ₚ x :: l.
Proof.
  induction l as [|y r IH]; simpl; [done|].
  destruct (decide (x.2 < y.2)); [|done].
  rewrite IH. apply Permutation_swap.
Qed.

Lemma most_common_perm c : most_common c ≡ₚ c.
Proof.
  induction c as [|x c IH]; simpl; [done|].
  by rewrite insert_desc_perm, IH.
Qed.

Section MostCommonOrder.
Context (rank : string → nat).

(** Inserting an item that ranks before all of a sorted list keeps it
    sorted. *)
Lemma insert_desc_sorted x l :
  Forall (λ y, rank x.1 < rank y.1) l →
  StronglySorted (count_order rank) l →
  StronglySorted (count_order rank) (insert_desc x l).
Proof.
  induction l as [|y r IH]; simpl; intros Hrk Hs.
  - repeat constructor.
  - apply Forall_cons in Hrk as [Hy Hr].
    apply StronglySorted_cons in Hs as Hs'. destruct Hs' as [Hyr Hsr].
    destruct (decide (x.2 < y.2)) as [Hlt|Hge].
    + apply StronglySorted_cons. split; [|by apply IH].
      rewrite insert_desc_perm. apply Forall_cons. split; [by left | done].
    + apply StronglySorted_cons. split; [|done].
      assert (count_order rank x y) as Hxy.
      { unfold count_order. destruct (decide (y.2 < x.2)); [by left|].
        right. split; [lia | done]. }
      apply Forall_cons. split; [done|].
      rewrite Forall_forall in Hyr, Hr |- *. intros z Hz.
      specialize (Hyr z Hz). specialize (Hr z Hz).
      unfold count_order in *. destruct (decide (z.2 < x.2)); [by left|].
      right. split; [lia | done].
Qed.

(** [most_common] sorts a list that is in rank order by falling count,
    ties in rank order. *)
Lemma most_common_sorted c :
  StronglySorted (λ x y, rank x.1 < rank y.1) c →
  StronglySorted (count_order rank) (most_common c).
Proof.
  induction c as [|x c IH]; simpl; intros Hs; [constructor|].
  apply StronglySorted_cons in Hs as [Hx Hs].
  apply insert_desc_sorted; [|by apply IH].
  by rewrite most_common_perm.
Qed.

Lemma count_order_irrefl x : ¬ count_order rank x x.
Proof. unfold count_order. lia. Qed.

Lemma count_order_asym x y : count_order rank x y → ¬ count_order rank y x.
Proof. unfold count_order. lia. Qed.
End MostCommonOrder.

(** ** build_dataset *)

Lemma fold_index_fresh (count : list (string * nat)) (acc : list (string * nat)) :
  NoDup (acc.*1 ++ count.*1) →
  fold_left (λ d wc, dict_set d wc.1 (length d)) count acc
  = acc ++ zip count.*1 (seq (length acc) (length count)).
Proof.
  revert acc. induction count as [|[w n] count IH]; intros acc Hnd; simpl.
  - by rewrite app_nil_r.
  - simpl in Hnd. apply NoDup_app in Hnd as Hnd'.
    destruct Hnd' as (_ & Hdisj & _).
    rewrite dict_set_fresh.
    + rewrite IH.
      * rewrite <- app_assoc, length_app. simpl.
        by replace (length acc + 1) with (S (length acc)) by lia.
      * rewrite fmap_app. simpl. by rewrite <- app_assoc.
    + intros Hin. apply (Hdisj _ Hin). left.
Qed.

Lemma ranked_tokens_NoDup ws : NoDup (ranked_tokens ws).
Proof.
  unfold ranked_tokens. rewrite most_common_perm. apply Counter_inv.
Qed.

Lemma elem_of_ranked_tokens ws w : w ∈ ranked_tokens ws ↔ w ∈ ws.
Proof.
  unfold ranked_tokens. rewrite most_common_perm. apply Counter_inv.
Qed.

(** The two mappings are the ranked tokens, numbered from zero. *)
Lemma build_dataset_ranked ws :
  build_dataset ws
  = (zip (ranked_tokens ws) (seq 0 (length (ranked_tokens ws))),
     zip (seq 0 (length (ranked_tokens ws))) (ranked_tokens ws)).
Proof.
  unfold build_dataset.
  rewrite fold_index_fresh by (simpl; apply ranked_tokens_NoDup).
  simpl. unfold ranked_tokens. rewrite !length_fmap.
  unfold dict_values, dict_keys.
  rewrite <- (length_fmap fst (most_common (Counter ws))). rewrite fst_zip_seq, snd_zip_seq.
  f_equal. apply dict_of_NoDup.
  rewrite fst_zip by (by rewrite length_seq). apply NoDup_seq.
Qed.

Lemma build_dataset_get ws w i :
  dict_get (build_dataset ws).1 w = Some i ↔ ranked_tokens ws !! i = Some w.
Proof.
  rewrite build_dataset_ranked. simpl.
  apply (dict_get_zip_seq _ w i 0), ranked_tokens_NoDup.
Qed.

Lemma build_dataset_reverse_get ws i :
  dict_get (build_dataset ws).2 i = ranked_tokens ws !! i.
Proof.
  rewrite build_dataset_ranked. simpl. apply (dict_get_seq_zip _ i 0).
Qed.

Lemma build_dataset_length ws :
  length (build_dataset ws).1 = length (ranked_tokens ws).
Proof.
  rewrite build_dataset_ranked. simpl.
  rewrite length_zip_with, length_seq. lia.
Qed.

(** A ranked token sits in [most_common] with its number of occurrences. *)
Lemma ranked_tokens_lookup ws i w :
  ranked_tokens ws !! i = Some w →
  most_common (Counter ws) !! i = Some (w, occurrences w ws).
Proof.
  unfold ranked_tokens. rewrite list_lookup_fmap.
  destruct (most_common (Counter ws) !! i) as [[w' n]|] eqn:Hl; simpl; [|done].
  intros [= ->]. f_equal. f_equal.
  apply list_elem_of_lookup_2 in Hl. rewrite most_common_perm in Hl.
  destruct (Counter_inv ws) as (Hnd & Hkeys & Hget & _).
  apply (elem_of_dict_get _ _ _ Hnd) in Hl as Hg.
  rewrite Hget in Hg; [congruence|].
  apply Hkeys, list_elem_of_fmap. by exists (w, n).
Qed.

Lemma most_common_Counter_sorted ws :
  StronglySorted (count_order (λ w, first_position w ws))
                 (most_common (Counter ws)).
Proof.
  apply most_common_sorted.
  destruct (Counter_inv ws) as (_ & _ & _ & Hs).
  remember (Counter ws) as c eqn:Hc. clear Hc.
  induction c as [|x c IH]; [constructor|].
  simpl in Hs. apply StronglySorted_cons in Hs as [Hx Hs].
  apply StronglySorted_cons. split; [|by apply IH].
  by rewrite Forall_fmap in Hx.
Qed.

Lemma build_dataset_keys_NoDup ws : NoDup (dict_keys (build_dataset ws).1).
Proof.
  rewrite build_dataset_ranked. simpl. unfold dict_keys.
  rewrite fst_zip_seq. apply ranked_tokens_NoDup.
Qed.

Lemma build_dataset_dom ws w :
  w ∈ ws ↔ is_Some (dict_get (build_dataset ws).1 w).
Proof.
  rewrite <- elem_of_ranked_tokens, list_elem_of_lookup.
  split; intros [i Hi]; exists i; by apply build_dataset_get.
Qed.

Lemma build_dataset_range ws i :
  i < length (build_dataset ws).1 ↔ ∃ w, dict_get (build_dataset ws).1 w = Some i.
Proof.
  rewrite build_dataset_length. split.
  - intros Hi. apply lookup_lt_is_Some in Hi as [w Hw].
    exists w. by apply build_dataset_get.
  - intros [w Hw]. apply build_dataset_get in Hw.
    by apply lookup_lt_Some in Hw.
Qed.

Lemma build_dataset_inj ws w w' i :
  dict_get (build_dataset ws).1 w = Some i →
  dict_get (build_dataset ws).1 w' = Some i → w = w'.
Proof. intros Hw Hw'. apply build_dataset_get in Hw, Hw'. congruence. Qed.

Lemma build_dataset_inverse ws w i :
  dict_get (build_dataset ws).1 w = Some i ↔
  dict_get (build_dataset ws).2 i = Some w.
Proof. by rewrite build_dataset_get, build_dataset_reverse_get. Qed.

Lemma build_dataset_reverse_length ws :
  length (build_dataset ws).2 = length (build_dataset ws).1.
Proof.
  rewrite build_dataset_ranked. simpl.
  rewrite !length_zip_with, !length_seq. lia.
Qed.

(** C1.  The two mappings of [build_dataset] are a bijection between the
    distinct tokens of the input and the indices below [vocab_size]: the
    keys of the dictionary are the tokens of the input, each one once; the
    indices in use are exactly [0 .. vocab_size - 1]; no two tokens share
    an index; and the reverse dictionary sends the index of a token back
    to that token, and nothing else. *)
Theorem build_dataset_bijection (ws : list string) :
  let dictionary := (build_dataset ws).1 in
  let reverse_dictionary := (build_dataset ws).2 in
  let vocab_size := length dictionary in
  NoDup (dict_keys dictionary) ∧
  (∀ w, w ∈ ws ↔ is_Some (dict_get dictionary w)) ∧
  (∀ i, i < vocab_size ↔ ∃ w, dict_get dictionary w = Some i) ∧
  (∀ w w' i, dict_get dictionary w = Some i →
             dict_get dictionary w' = Some i → w = w') ∧
  (∀ w i, dict_get dictionary w = Some i ↔
          dict_get reverse_dictionary i = Some w) ∧
  length reverse_dictionary = vocab_size.
Proof.
  cbv zeta. split; [apply build_dataset_keys_NoDup|].
  split; [apply build_dataset_dom|].
  split; [apply build_dataset_range|].
  split; [apply build_dataset_inj|].
  split; [apply build_dataset_inverse | apply build_dataset_reverse_length].
Qed.

(** C2.  Indices follow falling frequency, and among tokens of equal
    frequency the order of first appearance: of two tokens of the
    dictionary, the one with the lower index is the one that occurs more
    often or, when both occur equally often, the one met first in the
    input. *)
Theorem build_dataset_frequency_order (ws : list string) (a b : string)
    (ia ib : nat) :
  dict_get (build_dataset ws).1 a = Some ia →
  dict_get (build_dataset ws).1 b = Some ib →
  (ia < ib ↔
   occurrences b ws < occurrences a ws ∨
   (occurrences a ws = occurrences b ws ∧
    first_position a ws < first_position b ws)).
Proof.
  intros Ha Hb. apply build_dataset_get in Ha, Hb.
  apply ranked_tokens_lookup in Ha as Ha', Hb as Hb'.
  pose proof (most_common_Counter_sorted ws) as Hs.
  set (R := count_order (λ w, first_position w ws)) in *.
  change (ia < ib ↔ R (a, occurrences a ws) (b, occurrences b ws)).
  split.
  - intros Hlt. exact (StronglySorted_lookup_lt R _ _ _ _ _ Hs Ha' Hb' Hlt).
  - intros HR. destruct (Nat.lt_trichotomy ia ib) as [Hlt|[->|Hgt]]; [done| |].
    + rewrite Ha' in Hb'. injection Hb' as <-.
      by apply count_order_irrefl in HR.
    + pose proof (StronglySorted_lookup_lt R _ _ _ _ _ Hs Hb' Ha' Hgt) as HR'.
      by apply count_order_asym in HR.
Qed.

(** The example of C2: in [a a b], [a] is numbered before [b]. *)
Lemma build_dataset_frequency_order_witness :
  dict_get (build_dataset ["a"; "a"; "b"]).1 "a" = Some 0 ∧
  dict_get (build_dataset ["a"; "a"; "b"]).1 "b" = Some 1 ∧
  (0 < 1 ↔
   occurrences "b" ["a"; "a"; "b"] < occurrences "a" ["a"; "a"; "b"] ∨
   (occurrences "a" ["a"; "a"; "b"] = occurrences "b" ["a"; "a"; "b"] ∧
    first_position "a" ["a"; "a"; "b"] < first_position "b" ["a"; "a"; "b"])).
Proof.
  split; [reflexivity|]. split; [reflexivity|].
  apply (build_dataset_frequency_order ["a"; "a"; "b"] "a" "b" 0 1);
    reflexivity.
Defined.

(** ** The embedding tables *)

Section IndexEmbeddings.
Context {A : Type} (g : string → A).
Context (f : list (nat * A) → string * nat → list (nat * A)).
Hypothesis f_set : ∀ ie wi, f ie wi = dict_set ie wi.2 (g wi.1).

Lemma fold_index_embeddings_other (d : list (string * nat)) acc i :
  i ∉ d.*2 → dict_get (fold_left f d acc) i = dict_get acc i.
Proof.
  revert acc. induction d as [|[w j] d IH]; intros acc Hi; simpl; [done|].
  simpl in Hi. apply not_elem_of_cons in Hi as [Hne Hi].
  rewrite IH, f_set by done. simpl. by apply dict_get_set_ne.
Qed.

Lemma fold_index_embeddings_get (d : list (string * nat)) acc w i :
  NoDup d.*2 → (w, i) ∈ d → dict_get (fold_left f d acc) i = Some (g w).
Proof.
  revert acc. induction d as [|[w' j] d IH]; intros acc Hnd Hin; simpl.
  - by apply elem_of_nil in Hin.
  - simpl in Hnd. apply NoDup_cons in Hnd as [Hj Hnd].
    apply elem_of_cons in Hin as [[= -> ->]|Hin].
    + rewrite fold_index_embeddings_other, f_set by done.
      apply dict_get_set_eq.
    + by apply IH.
Qed.
End IndexEmbeddings.

Lemma build_dataset_values_NoDup ws : NoDup (build_dataset ws).1.*2.
Proof.
  rewrite build_dataset_ranked. simpl. rewrite snd_zip_seq. apply NoDup_seq.
Qed.

(** The index table of [load_embeddings]: every index of the dictionary
    gets the vector of its word, or the unknown vector. *)
Lemma load_embeddings_index `{word_embeddings} ws embeddings_dict e w i :
  load_embeddings (build_dataset ws).1 embeddings_dict = Some e →
  dict_get (build_dataset ws).1 w = Some i →
  ∃ unknown_embedding,
    dict_get embeddings_dict UNKNOWN_TOKEN = Some unknown_embedding ∧
    dict_get (index_embeddings e) i
    = Some (default unknown_embedding (dict_get embeddings_dict w)).
Proof.
  unfold load_embeddings. intros Hload Hw.
  destruct (dict_get embeddings_dict UNKNOWN_TOKEN) as [u|]; [|done].
  exists u. split; [done|]. simpl in Hload.
  destruct (fold_left _ embeddings_dict _) as [[el eo] order].
  injection Hload as <-. simpl.
  apply (fold_index_embeddings_get
           (λ w, default u (dict_get embeddings_dict w))).
  - intros ie [w' j]. simpl. by destruct (dict_get embeddings_dict w').
  - apply build_dataset_values_NoDup.
  - by apply dict_get_elem_of.
Qed.

Lemma load_embeddings_is_Some `{word_embeddings} dictionary embeddings_dict :
  is_Some (load_embeddings dictionary embeddings_dict)
  ↔ is_Some (dict_get embeddings_dict UNKNOWN_TOKEN).
Proof.
  unfold load_embeddings.
  destruct (dict_get embeddings_dict UNKNOWN_TOKEN) as [u|]; simpl.
  - destruct (fold_left _ embeddings_dict _) as [[el eo] order].
    split; intros _; eauto.
  - split; intros [? ?]; done.
Qed.

(** C3.  With the embedding tables loaded, every index of the vocabulary
    has a vector, and a word of the vocabulary that the pretrained table
    lacks has exactly the vector the table keeps under the unknown
    token. *)
Theorem unknown_embedding_substitution `{word_embeddings}
    (ws : list string) (embeddings_dict : list (string * vector))
    (e : embeddings) :
  let dictionary := (build_dataset ws).1 in
  load_embeddings dictionary embeddings_dict = Some e →
  ∃ unknown_embedding,
    dict_get embeddings_dict UNKNOWN_TOKEN = Some unknown_embedding ∧
    (∀ i, i < length dictionary → is_Some (dict_get (index_embeddings e) i)) ∧
    (∀ w i, dict_get dictionary w = Some i →
            dict_get embeddings_dict w = None →
            dict_get (index_embeddings e) i = Some unknown_embedding).
Proof.
  cbv zeta. intros Hload.
  destruct (load_embeddings_is_Some (build_dataset ws).1 embeddings_dict)
    as [[u Hu] _]; [by exists e|].
  exists u. split; [done|]. split.
  - intros i Hi.
    apply build_dataset_range in Hi as [w Hw].
    destruct (load_embeddings_index ws embeddings_dict e w i Hload Hw)
      as (u' & _ & ->). done.
  - intros w i Hw Hnone.
    destruct (load_embeddings_index ws embeddings_dict e w i Hload Hw)
      as (u' & Hu' & ->).
    rewrite Hnone. simpl. congruence.
Qed.

(** ** Strings and the corpus *)

Lemma append_cons c (s t : string) : String c s +:+ t = String c (s +:+ t).
Proof. reflexivity. Qed.

Lemma append_nil_l (t : string) : "" +:+ t = t.
Proof. reflexivity. Qed.

Lemma append_assoc (s1 s2 s3 : string) :
  (s1 +:+ s2) +:+ s3 = s1 +:+ (s2 +:+ s3).
Proof.
  induction s1 as [|c s1 IH]; [done|]. rewrite !append_cons. by rewrite IH.
Qed.

Lemma split_space_nonempty s : split_space s ≠ [].
Proof.
  destruct s as [|c s]; simpl; [done|].
  destruct (decide (c = space)); [done|]. by destruct (split_space s).
Qed.

(** A trailing space leaves an empty last token. *)
Lemma split_space_trailing s : split_space (s +:+ " ") = split_space s ++ [""].
Proof.
  induction s as [|c s IH]; [done|]. rewrite append_cons. simpl.
  destruct (decide (c = space)); [by rewrite IH|].
  rewrite IH. pose proof (split_space_nonempty s).
  by destruct (split_space s).
Qed.

Lemma file_lines_nonempty content line : line ∈ file_lines content → line ≠ "".
Proof.
  revert line. induction content as [|c rest IH]; simpl; intros line Hin.
  - by apply elem_of_nil in Hin.
  - destruct (decide (c = newline)).
    + apply elem_of_cons in Hin as [->|Hin]; [done | by apply IH].
    + destruct (file_lines rest) as [|l ls].
      * apply list_elem_of_singleton in Hin as ->. done.
      * apply elem_of_cons in Hin as [->|Hin]; [done|]. apply IH. by right.
Qed.

Section CorpusFacts.
Context `{word_embeddings}.

Lemma read_line_blank st line : blank_line line → read_line st line = st.
Proof. unfold blank_line, read_line. intros ->. done. Qed.

Lemma read_line_nonblank st line :
  ¬ blank_line line → ∃ t, (read_line st line).1 = t +:+ " ".
Proof.
  unfold blank_line, read_line. intros Hnb.
  rewrite decide_False by done. cbn [fst].
  exists (st.1 +:+ start_tokens +:+ strip_newline line +:+ " " +:+ END_TOKEN).
  by rewrite !append_assoc.
Qed.

Lemma fold_read_line_trailing lines st :
  (∃ t, st.1 = t +:+ " ") ∨ (∃ line, line ∈ lines ∧ ¬ blank_line line) →
  ∃ t, (fold_left read_line lines st).1 = t +:+ " ".
Proof.
  revert st. induction lines as [|l lines IH]; intros st Hst; simpl.
  - destruct Hst as [?|(line & Hin & _)]; [done|]. by apply elem_of_nil in Hin.
  - apply IH. destruct (decide (strip_newline l = "")) as [Hb|Hnb].
    + rewrite read_line_blank by done.
      destruct Hst as [?|(line & Hin & Hline)]; [by left|].
      apply elem_of_cons in Hin as [->|Hin]; [done|]. right. eauto.
    + left. by apply read_line_nonblank.
Qed.

Lemma fold_read_line_blank lines st :
  Forall blank_line lines → fold_left read_line lines st = st.
Proof.
  revert st. induction lines as [|l lines IH]; intros st Hb; simpl; [done|].
  apply Forall_cons in Hb as [Hl Hb]. by rewrite read_line_blank, IH.
Qed.

Lemma corpus_words_last content :
  (∃ line, line ∈ file_lines content ∧ ¬ blank_line line) →
  last (corpus_words content) = Some "".
Proof.
  intros Hline. unfold corpus_words, read_corpus.
  destruct (fold_read_line_trailing (file_lines content) ("", 1)) as [t ->];
    [by right|].
  by rewrite split_space_trailing, last_snoc.
Qed.

Lemma corpus_words_blank content :
  Forall blank_line (file_lines content) → corpus_words content = [""].
Proof.
  intros Hb. unfold corpus_words, read_corpus.
  by rewrite fold_read_line_blank.
Qed.
End CorpusFacts.

(** C9.  A corpus with a line that is not blank gives a token list that
    ends with the empty string, and the empty string is a word of the
    vocabulary with an index of its own, below [vocab_size], which the
    reverse dictionary sends back to the empty string. *)
Theorem trailing_empty_token `{word_embeddings} (content : string) :
  (∃ line, line ∈ file_lines content ∧ ¬ blank_line line) →
  let ws := corpus_words content in
  let dictionary := (build_dataset ws).1 in
  let reverse_dictionary := (build_dataset ws).2 in
  last ws = Some "" ∧
  ∃ i, dict_get dictionary "" = Some i ∧
       i < length dictionary ∧
       (∀ w, dict_get dictionary w = Some i → w = "") ∧
       dict_get reverse_dictionary i = Some "".
Proof.
  intros Hline. cbv zeta.
  pose proof (corpus_words_last content Hline) as Hlast.
  split; [done|].
  assert ("" ∈ corpus_words content) as Hin.
  { apply last_Some in Hlast as [l' ->]. apply elem_of_app. right. left. }
  apply build_dataset_dom in Hin as [i Hi]. exists i. split; [done|].
  split; [apply build_dataset_range; eauto|]. split.
  - intros w Hw. exact (build_dataset_inj _ w "" i Hw Hi).
  - by apply build_dataset_inverse.
Qed.

(** Unless a marker token is the empty string, the one entry of such a
    vocabulary is no marker. *)
Lemma blank_corpus_no_marker `{word_embeddings} (content : string) :
  Forall blank_line (file_lines content) →
  "" ∉ marker_tokens → ¬ single_marker_vocabulary content.
Proof.
  intros Hb Hm (m & Hin & Hd). rewrite corpus_words_blank in Hd by done.
  simpl in Hd. congruence.
Qed.

(** C8, as the code has it.  A corpus whose lines are all blank gives the
    token list that holds the empty string alone, so the vocabulary has
    one entry: the empty string, at index 0.  It is no marker token, the
    marker tokens being non-empty. *)
Theorem blank_corpus_vocabulary `{word_embeddings} (content : string) :
  Forall blank_line (file_lines content) →
  build_dataset (corpus_words content) = ([("", 0)], [(0, "")]) ∧
  ("" ∉ marker_tokens → ¬ single_marker_vocabulary content).
Proof.
  intros Hb. split.
  - by rewrite corpus_words_blank.
  - by apply blank_corpus_no_marker.
Qed.

(** The run itself stops at [dictionary[END_TOKEN]]. *)
Lemma blank_corpus_run `{word_embeddings} (content : string) :
  Forall blank_line (file_lines content) →
  END_TOKEN ≠ "" → run_vocabulary content = None.
Proof.
  intros Hb He. unfold run_vocabulary.
  rewrite corpus_words_blank by done. simpl.
  destruct (decide ("" = END_TOKEN)) as [Heq|]; [|done].
  by rewrite <- Heq in He.
Qed.

(** ** Generation *)

Section SeedFacts.
Context (v : vocabulary).

Lemma draw_rand_key_Ok draws r0 r rest :
  draw_rand_key v draws r0 = Ok (r, rest) →
  r ≠ start_key v ∧ r ≠ end_key v ∧ (r = r0 ∨ r ∈ draws).
Proof.
  revert r0. induction draws as [|d draws IH]; intros r0; simpl.
  - destruct (decide (r0 = start_key v ∨ r0 = end_key v)) as [|Hno]; [done|].
    intros [= -> ->]. split; [tauto|]. split; [tauto | by left].
  - destruct (decide (r0 = start_key v ∨ r0 = end_key v)) as [|Hno].
    + intros Hd. destruct (IH _ Hd) as (? & ? & [->|?]).
      * repeat split; try done. right. left.
      * repeat split; try done. right. by right.
    + intros [= -> ->]. split; [tauto|]. split; [tauto | by left].
Qed.

(** The loop ends as soon as a draw is neither the start nor the end
    key. *)
Lemma draw_rand_key_fair draws r0 :
  (∃ r, r ∈ draws ∧ r ≠ start_key v ∧ r ≠ end_key v) →
  ∃ r rest, draw_rand_key v draws r0 = Ok (r, rest).
Proof.
  revert r0. induction draws as [|d draws IH]; intros r0 (r & Hin & Hs & He).
  - by apply elem_of_nil in Hin.
  - simpl. destruct (decide (r0 = start_key v ∨ r0 = end_key v)); [|eauto].
    apply elem_of_cons in Hin as [->|Hin].
    + destruct draws; simpl; rewrite decide_False by tauto; eauto.
    + apply IH. eauto.
Qed.

Lemma seed_window_Ok draws window rest :
  seed_window v draws = Ok (window, rest) →
  ∃ r, window = replicate (N_INPUT - 1) (start_key v) ++ [r] ∧
       r ∈ draws ∧ r ≠ start_key v ∧ r ≠ end_key v.
Proof.
  unfold seed_window.
  destruct (draw_rand_key v draws (start_key v)) as [[r rest']| |] eqn:Hd;
    simpl; [|done..].
  intros [= <- <-]. exists r. split; [done|].
  destruct (draw_rand_key_Ok _ _ _ _ Hd) as (Hs & He & [?|?]); done.
Qed.

Lemma seed_window_fair draws :
  (∃ r, r ∈ draws ∧ r ≠ start_key v ∧ r ≠ end_key v) →
  ∃ window rest, seed_window v draws = Ok (window, rest).
Proof.
  intros Hfair. unfold seed_window.
  destruct (draw_rand_key_fair draws (start_key v) Hfair) as (r & rest & ->).
  simpl. eauto.
Qed.

End SeedFacts.

Section DecodeFacts.
Context (v : vocabulary) (emb : option embeddings) (pred : list nat → vector).

Lemma predict_index_draws pred_output :
  predict_index emb pred_output ≠ OutOfDraws.
Proof.
  unfold predict_index. destruct emb as [e|].
  - case_bool_decide; [|done].
    destruct (argmin _) as [i| |] eqn:Hi; simpl.
    + by destruct (dict_get (embedding_order e) i).
    + done.
    + unfold argmin in Hi. by destruct (norm_axis0 _ _).
  - unfold argmax. by destruct pred_output.
Qed.

Lemma decode_draws n i symbols : decode v emb pred n i symbols ≠ OutOfDraws.
Proof.
  revert i symbols. induction n as [|n IH]; intros i symbols; simpl; [done|].
  destruct (decide (length (drop i symbols) = N_INPUT)); [|done].
  pose proof (predict_index_draws (pred (drop i symbols))) as Hp.
  destruct (predict_index emb (pred (drop i symbols))) as [p| |]; simpl;
    [|done..].
  destruct (decide (p = end_key v)); [done | apply IH].
Qed.

(** What the decoding loop returns: the list it was given and, behind
    it, at most [n] predictions, none the end key; each was predicted
    from the [N_INPUT] keys before it, and when fewer than [n] were
    appended the next prediction was the end key. *)
Lemma decode_Ok n i symbols out :
  decode v emb pred n i symbols = Ok out →
  ∃ appended,
    out = symbols ++ appended ∧
    length appended ≤ n ∧
    (∀ k x, appended !! k = Some x →
       x ≠ end_key v ∧
       predict_index emb (pred (take N_INPUT (drop (i + k) out))) = Ok x) ∧
    (length appended < n →
       predict_index emb (pred (drop (i + length appended) out))
       = Ok (end_key v)).
Proof.
  revert i symbols. induction n as [|n IH]; intros i symbols; simpl.
  - intros [= <-]. exists []. rewrite app_nil_r.
    split; [done|]. split; [done|]. split; [done | simpl; lia].
  - destruct (decide (length (drop i symbols) = N_INPUT)) as [Hlen|]; [|done].
    destruct (predict_index emb (pred (drop i symbols))) as [p| |] eqn:Hp;
      simpl; [|done..].
    destruct (decide (p = end_key v)) as [->|Hne].
    + intros [= <-]. exists []. rewrite app_nil_r.
      split; [done|]. split; [simpl; lia|]. split; [done|].
      intros _. simpl. by rewrite Nat.add_0_r.
    + intros Hd. destruct (IH _ _ Hd) as (app & -> & Hn & Hpred & Hend).
      exists (p :: app). rewrite <- app_assoc. split; [done|].
      split; [simpl; lia|]. split.
      * intros [|k] x; simpl.
        -- intros [= <-]. split; [done|]. rewrite Nat.add_0_r.
           rewrite drop_app_le by (rewrite length_drop in Hlen; unfold N_INPUT in Hlen; lia).
           rewrite take_app_length' by done. done.
        -- intros Hk. destruct (Hpred k x Hk) as [? Hx].
           split; [done|].
           rewrite <- app_assoc in Hx. simpl in Hx.
           by replace (i + S k) with (S i + k) by lia.
      * intros Hlt. simpl in Hlt.
        rewrite <- app_assoc in Hend. simpl in Hend.
        replace (i + length (p :: app)) with (S i + length app)
          by (simpl; lia).
        apply Hend. lia.
Qed.
End DecodeFacts.

(** Rendering draws nothing. *)
Lemma convert_loop_draws (v : vocabulary) symbols sentence :
  convert_loop v symbols sentence ≠ OutOfDraws.
Proof.
  revert sentence. induction symbols as [|x symbols IH]; intros sentence; simpl.
  - done.
  - destruct (decide (x ≠ start_key v)); [|apply IH].
    destruct (dict_get (reverse_dictionary v) x); simpl; [apply IH | done].
Qed.

Lemma convert_indices_to_sentence_draws (v : vocabulary) symbols :
  convert_indices_to_sentence v symbols ≠ OutOfDraws.
Proof.
  unfold convert_indices_to_sentence.
  pose proof (convert_loop_draws v symbols "") as Hc.
  by destruct (convert_loop v symbols "").
Qed.

(** C6, as the code has it.  The seed window is [N_INPUT - 1] start keys
    followed by one of the random draws, which is neither the start key
    nor the end key. *)
Theorem seed_window_start_then_draw (v : vocabulary) (draws : list nat)
    (window rest : list nat) :
  seed_window v draws = Ok (window, rest) →
  ∃ r, window = replicate (N_INPUT - 1) (start_key v) ++ [r] ∧
       r ∈ draws ∧ r ≠ start_key v ∧ r ≠ end_key v.
Proof. exact (seed_window_Ok v draws window rest). Qed.

(** C5.  With a random source that at some point draws a key other than
    the start and end keys, generation returns or raises, the rendering
    of the sentence included; when the decoding returns, the list is the
    seed window followed by at most [sentence_length] predictions, none
    of them the end key, each the prediction from the [N_INPUT] keys
    before it; and when fewer than [sentence_length] were appended, the
    loop left because the next prediction was the end key. *)
Theorem generation_terminates (v : vocabulary) (emb : option embeddings)
    (pred : list nat → vector) (draws : list nat) :
  (∃ r, r ∈ draws ∧ r ≠ start_key v ∧ r ≠ end_key v) →
  generate_sentence v emb pred draws ≠ OutOfDraws ∧
  generate_symbols v emb pred draws ≠ OutOfDraws ∧
  ∀ out, generate_symbols v emb pred draws = Ok out →
    ∃ seed rest appended,
      seed_window v draws = Ok (seed, rest) ∧
      out = seed ++ appended ∧
      length appended ≤ sentence_length v ∧
      (∀ k x, appended !! k = Some x →
         x ≠ end_key v ∧
         predict_index emb (pred (take N_INPUT (drop k out))) = Ok x) ∧
      (length appended < sentence_length v →
         predict_index emb (pred (drop (length appended) out))
         = Ok (end_key v)).
Proof.
  intros Hfair. unfold generate_sentence, generate_symbols.
  destruct (seed_window_fair v draws Hfair) as (seed & rest & ->). simpl.
  pose proof (decode_draws v emb pred (sentence_length v) 0 seed) as Hdraws.
  split.
  { destruct (decode v emb pred (sentence_length v) 0 seed); simpl;
      [apply convert_indices_to_sentence_draws | done..]. }
  split; [done|].
  intros out Hd. exists seed, rest.
  destruct (decode_Ok _ _ _ _ _ _ _ Hd) as (app & -> & Hn & Hpred & Hend).
  exists app. split; [done|]. split; [done|]. split; [done|].
  split; [exact Hpred | exact Hend].
Qed.

(** ** Rendering *)

Lemma str_last_snoc (s : string) c : str_last (s +:+ String c "") = Some c.
Proof.
  induction s as [|c' s IH]; [done|]. rewrite append_cons.
  change (str_last (String c' (s +:+ String c "")))
    with (match s +:+ String c "" with
          | EmptyString => Some c'
          | String _ _ => str_last (s +:+ String c "")
          end).
  rewrite IH. destruct s; [done|]. by rewrite append_cons.
Qed.

Lemma str_init_snoc (s : string) c : str_init (s +:+ String c "") = s.
Proof.
  induction s as [|c' s IH]; [done|]. rewrite append_cons.
  change (str_init (String c' (s +:+ String c "")))
    with (match s +:+ String c "" with
          | EmptyString => ""
          | String _ _ => String c' (str_init (s +:+ String c ""))
          end).
  rewrite IH. destruct s; [done|]. by rewrite append_cons.
Qed.

(** The accumulated sentence: every word followed by a space. *)
Lemma foldl_spaced (ws : list string) (acc : string) :
  ws ≠ [] →
  foldl (λ sentence w, sentence +:+ (w +:+ " ")) acc ws
  = (acc +:+ join_space ws) +:+ " ".
Proof.
  revert acc. induction ws as [|w ws IH]; intros acc Hne; [done|].
  simpl. destruct ws as [|w' ws].
  - simpl. by rewrite append_assoc.
  - rewrite IH by done. by rewrite !append_assoc.
Qed.

Lemma split_space_word (w : string) : has_space w = false → split_space w = [w].
Proof.
  induction w as [|c w IH]; simpl; [done|].
  destruct (decide (c = space)); [done|]. intros Hw. by rewrite IH.
Qed.

Lemma split_space_cons_word (w rest : string) :
  has_space w = false →
  split_space (w +:+ " " +:+ rest) = w :: split_space rest.
Proof.
  induction w as [|c w IH]; intros Hw.
  - rewrite append_nil_l. change (" " +:+ rest) with (String space rest).
    reflexivity.
  - simpl in Hw. rewrite append_cons. simpl.
    destruct (decide (c = space)); [done|]. by rewrite IH.
Qed.

(** Splitting the joined words gives the words back. *)
Lemma split_space_join (ws : list string) :
  ws ≠ [] → Forall (λ w, has_space w = false) ws →
  split_space (join_space ws) = ws.
Proof.
  induction ws as [|w ws IH]; intros Hne Hws; [done|].
  apply Forall_cons in Hws as [Hw Hws]. destruct ws as [|w' ws].
  - simpl. by apply split_space_word.
  - change (join_space (w :: w' :: ws))
      with (w +:+ " " +:+ join_space (w' :: ws)).
    rewrite split_space_cons_word by done. by rewrite IH.
Qed.

Lemma split_space_no_space (s w : string) :
  w ∈ split_space s → has_space w = false.
Proof.
  revert w. induction s as [|c s IH]; simpl; intros w Hin.
  - apply list_elem_of_singleton in Hin as ->. done.
  - destruct (decide (c = space)) as [|Hc].
    + apply elem_of_cons in Hin as [->|Hin]; [done | by apply IH].
    + pose proof (split_space_nonempty s).
      destruct (split_space s) as [|w0 ws0]; [done|].
      apply elem_of_cons in Hin as [->|Hin].
      * simpl. rewrite decide_False by done. apply IH. left.
      * apply IH. by right.
Qed.

Section RenderFacts.
Context (v : vocabulary).

Lemma convert_loop_Ok symbols acc sentence :
  convert_loop v symbols acc = Ok sentence →
  ∃ ws, rendered_as v symbols ws ∧
        sentence = foldl (λ sentence w, sentence +:+ (w +:+ " ")) acc ws.
Proof.
  unfold rendered_as.
  revert acc. induction symbols as [|x symbols IH]; intros acc; simpl.
  - intros [= <-]. exists []. split; [constructor | done].
  - rewrite filter_cons. destruct (decide (x ≠ start_key v)) as [Hx|Hx].
    + destruct (dict_get (reverse_dictionary v) x) as [w|] eqn:Hw; simpl;
        [|done].
      intros Hc. destruct (IH _ Hc) as (ws & Hws & ->).
      exists (w :: ws). split; [by constructor | done].
    + apply IH.
Qed.

(** The renderer returns the looked-up words, joined by single spaces. *)
Lemma convert_indices_to_sentence_Ok symbols sentence :
  convert_indices_to_sentence v symbols = Ok sentence →
  ∃ ws, rendered_as v symbols ws ∧ sentence = join_space ws.
Proof.
  unfold convert_indices_to_sentence.
  destruct (convert_loop v symbols "") as [s| |] eqn:Hc; simpl; [|done..].
  intros [= <-]. destruct (convert_loop_Ok _ _ _ Hc) as (ws & Hws & ->).
  exists ws. split; [done|]. destruct ws as [|w ws]; [done|].
  rewrite foldl_spaced by done. by rewrite append_nil_l, str_init_snoc.
Qed.
End RenderFacts.

Section RunFacts.
Context `{word_embeddings}.

Lemma run_vocabulary_Some content v :
  run_vocabulary content = Some v →
  words v = corpus_words content ∧
  dictionary v = (build_dataset (corpus_words content)).1 ∧
  reverse_dictionary v = (build_dataset (corpus_words content)).2 ∧
  dict_get (dictionary v) END_TOKEN = Some (end_key v) ∧
  dict_get (dictionary v) START_TOKEN = Some (start_key v) ∧
  vocab_size v = length (dictionary v) ∧
  sentence_length v = (read_corpus content).2.
Proof.
  unfold run_vocabulary.
  destruct (dict_get _ END_TOKEN) as [e|] eqn:He; simpl; [|done].
  destruct (dict_get _ START_TOKEN) as [s|] eqn:Hs; simpl; [|done].
  intros [= <-]. simpl. done.
Qed.

(** Distinct marker tokens have distinct keys. *)
Lemma start_key_ne_end_key content v :
  START_TOKEN ≠ END_TOKEN → run_vocabulary content = Some v →
  start_key v ≠ end_key v.
Proof.
  intros Hne Hv Heq.
  destruct (run_vocabulary_Some _ _ Hv) as (_ & Hd & _ & He & Hs & _).
  rewrite Hd in He, Hs. rewrite Heq in Hs.
  apply Hne. exact (build_dataset_inj _ _ _ _ Hs He).
Qed.

(** A rendered word is a token of the corpus whose key is the index it
    was rendered from. *)
Lemma reverse_dictionary_token content v i w :
  run_vocabulary content = Some v →
  dict_get (reverse_dictionary v) i = Some w →
  dict_get (dictionary v) w = Some i ∧ w ∈ corpus_words content.
Proof.
  intros Hv Hw.
  destruct (run_vocabulary_Some _ _ Hv) as (_ & Hd & Hr & _).
  rewrite Hr in Hw. rewrite Hd.
  apply build_dataset_inverse in Hw. split; [done|].
  apply build_dataset_dom. eauto.
Qed.
End RunFacts.

(** Every vocabulary that [run] builds from non-empty start and end
    tokens has a key the seed loop accepts: the key of the empty token
    that closes the token list. *)
Lemma run_vocabulary_seed_exists `{word_embeddings} (content : string)
    (v : vocabulary) :
  run_vocabulary content = Some v →
  START_TOKEN ≠ "" → END_TOKEN ≠ "" →
  ∃ r, r < vocab_size v ∧ r ≠ start_key v ∧ r ≠ end_key v.
Proof.
  intros Hv Hs He.
  destruct (run_vocabulary_Some _ _ Hv) as (_ & Hd & _ & Hek & Hsk & Hsize & _).
  rewrite Hd in Hek, Hsk. rewrite Hsize, Hd.
  destruct (decide (Forall blank_line (file_lines content))) as [Hb|Hnb].
  - rewrite corpus_words_blank in Hek by done. simpl in Hek.
    destruct (decide ("" = END_TOKEN)); congruence.
  - apply not_Forall_Exists in Hnb; [|apply _].
    apply Exists_exists in Hnb as (line & Hin & Hline).
    assert ("" ∈ corpus_words content) as Hempty.
    { pose proof (corpus_words_last content) as Hlast.
      destruct (last_Some (corpus_words content) "") as [[l' Hl'] _];
        [apply Hlast; eauto|].
      rewrite Hl'. apply elem_of_app. right. left. }
    apply build_dataset_dom in Hempty as [r Hr]. exists r.
    split; [apply build_dataset_range; eauto|]. split.
    + intros ->. apply Hs. exact (build_dataset_inj _ _ _ _ Hsk Hr).
    + intros ->. apply He. exact (build_dataset_inj _ _ _ _ Hek Hr).
Qed.

(** When the corpus spells out the unknown token, its key is a possible
    seed. *)
Lemma seed_unknown_when_in_vocabulary `{word_embeddings} (v : vocabulary)
    (r : nat) :
  dict_get (dictionary v) UNKNOWN_TOKEN = Some r →
  r ≠ start_key v → r ≠ end_key v →
  seed_window v [r]
  = Ok (replicate (N_INPUT - 1) (start_key v) ++ [r], []) ∧
  ¬ seed_avoids_markers v [r].
Proof.
  intros Hu Hs He.
  assert (seed_window v [r]
          = Ok (replicate (N_INPUT - 1) (start_key v) ++ [r], [])) as Hseed.
  { unfold seed_window. simpl.
    rewrite decide_True by by left. rewrite decide_False by tauto. done. }
  split; [done|]. intros Hseeds.
  destruct (Hseeds _ _ Hseed) as (r' & Hw & Hr').
  apply app_inj_tail in Hw as [_ <-].
  apply (Hr' UNKNOWN_TOKEN); [|done].
  unfold marker_tokens. right. right. left.
Qed.

(** In classification mode, with a session whose output is never empty,
    the decoding loop returns. *)
Lemma decode_classification (v : vocabulary) (pred : list nat → vector)
    (n i : nat) (symbols : list nat) :
  (∀ keys, pred keys ≠ []) →
  length symbols = i + N_INPUT →
  ∃ out, decode v None pred n i symbols = Ok out.
Proof.
  intros Hpred. revert i symbols.
  induction n as [|n IH]; intros i symbols Hlen; simpl; [eauto|].
  rewrite decide_True by (rewrite length_drop; lia).
  specialize (Hpred (drop i symbols)).
  destruct (pred (drop i symbols)) as [|x xs]; [done|]. simpl.
  destruct (decide _); [eauto|].
  apply IH. rewrite length_app. simpl. lia.
Qed.

(** C10.  In a generation run of a vocabulary whose start and end tokens
    differ, the end key is not among the decoded indices, neither at the
    end of the run nor after any number of turns of the decoding loop;
    the sentence rendered from the indices is the space-joined list of
    their words, none of which is the end token; split at its spaces,
    the sentence has no end token. *)
Theorem end_marker_never_decoded `{word_embeddings} (content : string)
    (v : vocabulary) (emb : option embeddings) (pred : list nat → vector)
    (draws out : list nat) :
  START_TOKEN ≠ END_TOKEN →
  run_vocabulary content = Some v →
  generate_symbols v emb pred draws = Ok out →
  (end_key v ∉ out) ∧
  (∀ n seed rest symbols,
     seed_window v draws = Ok (seed, rest) →
     decode v emb pred n 0 seed = Ok symbols → end_key v ∉ symbols) ∧
  (∀ sentence, convert_indices_to_sentence v out = Ok sentence →
     (∃ ws, rendered_as v out ws ∧ sentence = join_space ws ∧
            END_TOKEN ∉ ws) ∧
     END_TOKEN ∉ split_space sentence).
Proof.
  intros Hne Hv Hgen.
  pose proof (start_key_ne_end_key content v Hne Hv) as Hse.
  assert (∀ n seed rest symbols,
            seed_window v draws = Ok (seed, rest) →
            decode v emb pred n 0 seed = Ok symbols →
            (end_key v ∉ symbols) ∧
            ∃ r, r ≠ start_key v ∧ r ∈ symbols) as Hloop.
  { intros n seed rest symbols Hseed Hdec.
    destruct (seed_window_Ok _ _ _ _ Hseed) as (r & -> & _ & Hrs & Hre).
    destruct (decode_Ok _ _ _ _ _ _ _ Hdec) as (app & -> & _ & Hpred & _).
    split.
    - rewrite !elem_of_app. intros [[Hin|Hin]|Hin].
      + apply elem_of_replicate in Hin as [? _]. congruence.
      + apply list_elem_of_singleton in Hin. congruence.
      + apply list_elem_of_lookup in Hin as [k Hk].
        by destruct (Hpred k _ Hk).
    - exists r. split; [done|].
      rewrite !elem_of_app, list_elem_of_singleton. tauto. }
  unfold generate_symbols in Hgen.
  destruct (seed_window v draws) as [[seed rest]| |] eqn:Hseed; simpl in Hgen;
    [|done..].
  destruct (Hloop _ _ _ _ eq_refl Hgen) as (Hout & r & Hrs & Hr).
  split; [done|]. split; [intros n s0 r0 symbols Hs Hd; by eapply Hloop|].
  intros sentence Hsent.
  destruct (convert_indices_to_sentence_Ok _ _ _ Hsent) as (ws & Hws & ->).
  assert (Forall (λ w, w ≠ END_TOKEN ∧ has_space w = false) ws) as Hall.
  { unfold rendered_as in Hws.
    eapply Forall2_Forall_r; [exact Hws|].
    apply Forall_forall. intros x Hx w Hw.
    apply list_elem_of_filter in Hx as [_ Hx].
    destruct (reverse_dictionary_token _ _ _ _ Hv Hw) as [Hget Htok].
    split.
    - intros ->.
      destruct (run_vocabulary_Some _ _ Hv) as (_ & _ & _ & He & _).
      rewrite He in Hget. injection Hget as <-. done.
    - by apply (split_space_no_space _ _ Htok). }
  assert (END_TOKEN ∉ ws) as Hnot.
  { intros Hin. rewrite Forall_forall in Hall. by destruct (Hall _ Hin). }
  split; [by exists ws|].
  rewrite split_space_join; [done| |].
  - unfold rendered_as in Hws. intros ->. apply Forall2_nil_inv_r in Hws.
    assert (r ∈ filter (λ symbol, symbol ≠ start_key v) out) as Hr'
      by by apply list_elem_of_filter.
    rewrite Hws in Hr'. by apply elem_of_nil in Hr'.
  - eapply Forall_impl; [exact Hall|]. by intros w [_ ?].
Qed.

(** ** The training loop *)

Lemma Qltb_lt (a b : Q) : Qltb a b = true ↔ (a < b)%Q.
Proof.
  unfold Qltb. rewrite Qlt_alt. destruct (a ?= b)%Q; split; congruence.
Qed.

Lemma min_loss_gt_improves m current_loss :
  min_loss_gt m current_loss = true ↔ improves current_loss m.
Proof. destruct m as [|q|]; simpl; [done | apply Qltb_lt | done]. Qed.

Lemma min_loss_lt_trans a b c : min_loss_lt a b → min_loss_lt b c → min_loss_lt a c.
Proof.
  destruct a as [|qa|], b as [|qb|], c as [|qc|]; simpl; try done.
  apply Qlt_trans.
Qed.

Section TrainingFacts.
Context `{file_access} (model_file : string).
Context {net : Type} (train_op : net → list nat → vector → net * Q).
Context (v : vocabulary) (emb : option embeddings).
Context (float32 : Q → min_loss_value).
Context (pred : net → list nat → vector) (draws : nat → nat → list nat).

(** A boundary that returns went one of three ways. *)
Lemma batch_boundary_Ok epoch offset (st st' : @train_state net) evs :
  batch_boundary model_file v emb float32 pred draws epoch offset st
  = Ok (st', evs) →
  let current_loss := (total_loss st / inject_Z (Z.of_nat BATCH_SIZE))%Q in
  sess st' = sess st ∧ batch_counter st' = 0 ∧
  (improves current_loss (min_loss st) ∧
   min_loss st' = float32 current_loss ∧
   evs = [Print_current_loss epoch offset current_loss;
          Save (save_model_path model_file); Print_saved current_loss;
          Generate_sentence] ∨
   ¬ improves current_loss (min_loss st) ∧
   min_loss st' = min_loss st ∧
   (offset `mod` GENERATE_INCREMENT = GENERATE_INCREMENT - 1 ∧
    evs = [Print_current_loss epoch offset current_loss;
           Save final_model_path; Generate_sentence] ∨
    evs = [Print_current_loss epoch offset current_loss])).
Proof.
  cbv zeta. unfold batch_boundary, boundary_writes.
  destruct (min_loss_gt _ _) eqn:Hgt.
  - apply min_loss_gt_improves in Hgt. cbn [sess].
    destruct (generate_sentence _ _ _ _); cbn [mbind result_bind];
      [|discriminate..].
    intros [= <- <-]. split; [reflexivity|]. split; [reflexivity|]. left.
    split; [exact Hgt|]. split; reflexivity.
  - assert (¬ improves (total_loss st / inject_Z (Z.of_nat BATCH_SIZE))
              (min_loss st)) as Hno.
    { rewrite <- min_loss_gt_improves. congruence. }
    destruct (decide _) as [Hoff|Hoff]; cbn [sess].
    + destruct (generate_sentence _ _ _ _); cbn [mbind result_bind];
        [|discriminate..].
      intros [= <- <-]. split; [reflexivity|]. split; [reflexivity|]. right.
      split; [exact Hno|]. split; [reflexivity|]. left.
      split; [exact Hoff | reflexivity].
    + cbn [mbind result_bind]. intros [= <- <-].
      split; [reflexivity|]. split; [reflexivity|]. right.
      split; [exact Hno|]. split; [reflexivity|]. right. reflexivity.
Qed.

Lemma batch_boundary_total epoch offset (st st' : @train_state net) evs :
  batch_boundary model_file v emb float32 pred draws epoch offset st
  = Ok (st', evs) →
  total_loss st' = 0%Q.
Proof.
  unfold batch_boundary.
  destruct (boundary_writes _ _ _ _ _) as [[st1 evs1] [|]].
  - destruct (generate_sentence _ _ _ _); simpl; [|done..]. by intros [= <- _].
  - simpl. by intros [= <- _].
Qed.



(** What one turn of the loop that returns has done: the session made
    one training step on some example, and the state went through the
    boundary branch exactly when the batch was full. *)
Lemma train_step_Ok epoch offset st st' evs :
  train_step model_file train_op v emb float32 pred draws epoch offset st
  = Ok (st', evs) →
  ∃ symbols_in_keys symbols_out sess' loss,
    train_op (sess st) symbols_in_keys symbols_out = (sess', loss) ∧
    let st1 := {| sess := sess';
                  batch_counter := batch_counter st + 1;
                  total_loss := (total_loss st + loss)%Q;
                  min_loss := min_loss st |} in
    if decide (BATCH_SIZE ≤ batch_counter st + 1)
    then batch_boundary model_file v emb float32 pred draws epoch offset st1
         = Ok (st', evs)
    else (st', evs) = (st1, []).
Proof.
  unfold train_step.
  destruct (window_keys v _) as [keys| |]; simpl; [|done..].
  destruct (word_key v _) as [word_index| |]; simpl; [|done..].
  destruct (target v emb word_index) as [symbols_out| |]; simpl; [|done..].
  destruct (train_op (sess st) keys symbols_out) as [sess' loss] eqn:Hop.
  intros Hstep. exists keys, symbols_out, sess', loss. split; [done|].
  cbv zeta. cbn [batch_counter] in Hstep.
  destruct (decide (BATCH_SIZE ≤ batch_counter st + 1)); congruence.
Qed.
End TrainingFacts.

(** The loss that is compared at a boundary is the mean of the batch: in
    a state that has seen [losses] since the last boundary, a turn with
    loss [loss] either extends the batch, or completes it, prints the sum
    of its [BATCH_SIZE] losses divided by [BATCH_SIZE], and starts an
    empty one. *)
Lemma train_step_batch_mean `{file_access} (model_file : string) {net : Type}
    (train_op : net → list nat → vector → net * Q)
    (v : vocabulary) (emb : option embeddings)
    (float32 : Q → min_loss_value)
    (pred : net → list nat → vector) (draws : nat → nat → list nat)
    (epoch offset : nat)
    (st st' : @train_state net) (evs : list event) (losses : list Q) :
  batch_of st losses →
  train_step model_file train_op v emb float32 pred draws epoch offset st
  = Ok (st', evs) →
  ∃ symbols_in_keys symbols_out loss,
    train_op (sess st) symbols_in_keys symbols_out = (sess st', loss) ∧
    if decide (BATCH_SIZE ≤ length losses + 1) then
      batch_of st' [] ∧
      Print_current_loss epoch offset
        (fold_left Qplus (losses ++ [loss]) 0 / inject_Z (Z.of_nat BATCH_SIZE))%Q
      ∈ evs
    else batch_of st' (losses ++ [loss]) ∧ evs = [].
Proof.
  intros [Hcount Htotal] Hstep.
  destruct (train_step_Ok _ _ _ _ _ _ _ _ _ _ _ _ Hstep)
    as (keys & symbols_out & sess' & loss & Hop & Heq).
  cbv zeta in Heq. rewrite Hcount in Heq.
  exists keys, symbols_out, loss.
  assert (fold_left Qplus (losses ++ [loss]) 0%Q = (total_loss st + loss)%Q)
    as Hsum by (by rewrite fold_left_app, Htotal).
  destruct (decide (BATCH_SIZE ≤ length losses + 1)).
  - rewrite Hsum.
    pose proof (batch_boundary_total _ _ _ _ _ _ _ _ _ _ _ Heq) as Htot.
    destruct (batch_boundary_Ok _ _ _ _ _ _ _ _ _ _ _ Heq)
      as (Hsess & Hcnt & Hcases).
    cbv zeta in Hcases. cbn [sess total_loss min_loss] in Hsess, Hcases.
    split; [by rewrite Hop, Hsess|]. split; [done|].
    destruct Hcases as [(_ & _ & ->)|(_ & _ & [[_ ->]| ->])]; left.
  - injection Heq as -> ->. cbn [sess]. split; [by rewrite Hop|].
    split; [|done]. split; cbn [batch_counter total_loss].
    + rewrite length_app. simpl. lia.
    + done.
Qed.


(** ** Prediction *)

Section ArgBest.
Context (better : Q → Q → bool).
Hypothesis better_irrefl : ∀ x, better x x = false.
Hypothesis better_trans :
  ∀ x y z, better y x = true → better z y = true → better z x = true.
Hypothesis better_not :
  ∀ x y z, better y x = true → better z x = false → better z y = false.
Hypothesis better_over :
  ∀ x y z, better y x = true → better z x = false → better y z = true.

Lemma arg_best_spec xs best_i best i :
  let r := arg_best better best_i best i xs in
  (r = best_i ∧ Forall (λ y, better y best = false) xs) ∨
  (∃ k x, r = i + k ∧ xs !! k = Some x ∧ better x best = true ∧
          ∀ j y, xs !! j = Some y →
                 better y x = false ∧ (j < k → better x y = true)).
Proof.
  cbv zeta. revert best_i best i.
  induction xs as [|x xs IH]; intros best_i best i; simpl.
  - left. by split.
  - destruct (better x best) eqn:Hx.
    + right. destruct (IH i x (S i)) as [[-> Hall]|(k & x' & -> & Hk & Hx' & Hmin)].
      * exists 0, x. split; [lia|]. split; [done|]. split; [done|].
        intros [|j] y; simpl.
        -- intros [= <-]. split; [apply better_irrefl | lia].
        -- intros Hj. split; [|lia].
           rewrite Forall_forall in Hall. apply Hall.
           by apply list_elem_of_lookup_2 in Hj.
      * exists (S k), x'. split; [lia|]. split; [done|].
        split; [by eapply better_trans|].
        intros [|j] y; simpl.
        -- intros [= <-]. split; [|done].
           eapply better_not; [exact Hx' | apply better_irrefl].
        -- intros Hj. destruct (Hmin j y Hj) as [? Hlt].
           split; [done | intros; apply Hlt; lia].
    + destruct (IH best_i best (S i)) as [[-> Hall]|(k & x' & -> & Hk & Hx' & Hmin)].
      * left. split; [done|]. by constructor.
      * right. exists (S k), x'. split; [lia|]. split; [done|].
        split; [done|].
        intros [|j] y; simpl.
        -- intros [= <-]. split; [by eapply better_not|].
           intros _. by eapply better_over.
        -- intros Hj. destruct (Hmin j y Hj) as [? Hlt].
           split; [done | intros; apply Hlt; lia].
Qed.

(** The scan from the head of a list returns the first position that
    no other entry betters. *)
Lemma arg_best_first x0 xs :
  let r := arg_best better 0 x0 1 xs in
  ∃ x, (x0 :: xs) !! r = Some x ∧
       ∀ j y, (x0 :: xs) !! j = Some y →
              better y x = false ∧ (j < r → better x y = true).
Proof.
  cbv zeta.
  destruct (arg_best_spec xs 0 x0 1) as [[-> Hall]|(k & x & -> & Hk & Hx & Hmin)].
  - exists x0. split; [done|]. intros [|j] y; simpl.
    + intros [= <-]. split; [apply better_irrefl | lia].
    + intros Hj. split; [|lia]. rewrite Forall_forall in Hall.
      apply Hall. by apply list_elem_of_lookup_2 in Hj.
  - exists x. split; [done|]. intros [|j] y; simpl.
    + intros [= <-]. split; [|done].
      eapply better_not; [exact Hx | apply better_irrefl].
    + intros Hj. destruct (Hmin j y Hj) as [? Hlt].
      split; [done | intros; apply Hlt; lia].
Qed.
End ArgBest.

Lemma Qltb_ge (a b : Q) : Qltb a b = false ↔ (b <= a)%Q.
Proof.
  rewrite <- not_true_iff_false, Qltb_lt. split.
  - apply Qnot_lt_le.
  - intros Hle Hlt. by apply (Qle_not_lt _ _ Hle).
Qed.

(** [argmax] is the first position of a greatest entry. *)
Lemma argmax_spec (xs : vector) (i : nat) :
  argmax xs = Ok i →
  ∃ x, xs !! i = Some x ∧
       ∀ j y, xs !! j = Some y → (y <= x)%Q ∧ (j < i → (y < x)%Q).
Proof.
  destruct xs as [|x0 xs]; simpl; [done|]. intros [= <-].
  destruct (arg_best_first (λ y best, Qltb best y)) with (x0 := x0) (xs := xs)
    as (x & Hx & Hmax).
  - intros a. apply Qltb_ge, Qle_refl.
  - intros a b c. rewrite !Qltb_lt. apply Qlt_trans.
  - intros a b c. rewrite Qltb_lt, !Qltb_ge. intros Hab Hca.
    apply Qlt_le_weak. by apply (Qle_lt_trans _ a).
  - intros a b c. rewrite !Qltb_lt, Qltb_ge. intros Hab Hca.
    by apply (Qle_lt_trans _ a).
  - exists x. split; [done|]. intros j y Hj.
    destruct (Hmax j y Hj) as [Hle Hlt]. split.
    + by apply Qltb_ge.
    + intros Hji. by apply Qltb_lt, Hlt.
Qed.

(** [argmin] is the first position of a least entry. *)
Lemma argmin_spec (xs : vector) (i : nat) :
  argmin xs = Ok i →
  ∃ x, xs !! i = Some x ∧
       ∀ j y, xs !! j = Some y → (x <= y)%Q ∧ (j < i → (x < y)%Q).
Proof.
  destruct xs as [|x0 xs]; simpl; [done|]. intros [= <-].
  destruct (arg_best_first (λ y best, Qltb y best)) with (x0 := x0) (xs := xs)
    as (x & Hx & Hmin).
  - intros a. apply Qltb_ge, Qle_refl.
  - intros a b c. rewrite !Qltb_lt. intros Hba Hcb. by apply (Qlt_trans _ b).
  - intros a b c. rewrite Qltb_lt, !Qltb_ge. intros Hba Hac.
    apply Qlt_le_weak. by apply (Qlt_le_trans _ a).
  - intros a b c. rewrite !Qltb_lt, Qltb_ge. intros Hba Hac.
    by apply (Qlt_le_trans _ a).
  - exists x. split; [done|]. intros j y Hj.
    destruct (Hmin j y Hj) as [Hle Hlt]. split.
    + by apply Qltb_ge.
    + intros Hji. by apply Qltb_lt, Hlt.
Qed.

(** In classification mode the predicted index is the first position of
    the greatest entry of the output vector. *)
Lemma predict_index_classification (pred_output : vector) (i : nat) :
  predict_index None pred_output = Ok i →
  ∃ x, pred_output !! i = Some x ∧
       ∀ j y, pred_output !! j = Some y → (y <= x)%Q ∧ (j < i → (y < x)%Q).
Proof. apply argmax_spec. Qed.

(** In embedding mode the position that is looked up in
    [embedding_order] is a column of the table: it is below the width of
    the output vector, whatever the number of rows. *)
Lemma predict_index_embedding_column (e : embeddings) (pred_output : vector)
    (k : nat) :
  predict_index (Some e) pred_output = Ok k →
  ∃ j, argmin (norm_axis0 (length pred_output)
                 (sub_rows (embeddings_list e) pred_output)) = Ok j ∧
       j < length pred_output ∧
       dict_get (embedding_order e) j = Some k.
Proof.
  unfold predict_index. case_bool_decide; [|done].
  destruct (argmin _) as [j| |] eqn:Hj; simpl; [|done..].
  destruct (dict_get (embedding_order e) j) as [k'|] eqn:Hk; simpl; [|done].
  intros [= <-]. exists j. split; [done|]. split; [|done].
  apply argmin_spec in Hj as (x & Hx & _).
  apply lookup_lt_Some in Hx.
  unfold norm_axis0 in Hx. by rewrite length_map, length_seq in Hx.
Qed.

(** The nearest row, as described, has the least squared distance. *)
Lemma nearest_row_spec (rows : list vector) (p : vector) (i : nat) :
  nearest_row rows p = Ok i →
  ∃ d, norm_axis1 (sub_rows rows p) !! i = Some d ∧
       ∀ j d', norm_axis1 (sub_rows rows p) !! j = Some d' →
               (d <= d')%Q ∧ (j < i → (d < d')%Q).
Proof. apply argmin_spec. Qed.

(** ** Worked examples *)

Lemma hello_vocabulary_run :
  @run_vocabulary example_markers hello_corpus = Some hello_vocabulary.
Proof. reflexivity. Qed.

Lemma unk_vocabulary_run :
  @run_vocabulary example_markers unk_corpus = Some unk_vocabulary.
Proof. reflexivity. Qed.

Lemma ab_vocabulary_run :
  @run_vocabulary example_markers ab_corpus = Some ab_vocabulary.
Proof. reflexivity. Qed.

Lemma ab_embeddings_load :
  @load_embeddings example_markers (dictionary ab_vocabulary) ab_table
  = Some ab_embeddings.
Proof. reflexivity. Qed.

(** The table of [a b], for C3: the start token is not in the table and
    gets the unknown vector. *)
Lemma unknown_embedding_substitution_witness :
  @load_embeddings example_markers (build_dataset (words ab_vocabulary)).1
    ab_table = Some ab_embeddings ∧
  ∃ unknown_embedding,
    dict_get ab_table "<UNK>" = Some unknown_embedding ∧
    (∀ i, i < length (build_dataset (words ab_vocabulary)).1 →
          is_Some (dict_get (index_embeddings ab_embeddings) i)) ∧
    (∀ w i, dict_get (build_dataset (words ab_vocabulary)).1 w = Some i →
            dict_get ab_table w = None →
            dict_get (index_embeddings ab_embeddings) i = Some unknown_embedding).
Proof.
  split; [reflexivity|].
  apply (@unknown_embedding_substitution example_markers
           (words ab_vocabulary) ab_table ab_embeddings).
  reflexivity.
Defined.

(** The two-sentence corpus has a line that is not blank, for C9. *)
Lemma trailing_empty_token_witness :
  (∃ line, line ∈ file_lines hello_corpus ∧ ¬ blank_line line) ∧
  last (@corpus_words example_markers hello_corpus) = Some "" ∧
  ∃ i, dict_get (build_dataset (@corpus_words example_markers hello_corpus)).1 ""
       = Some i ∧
       i < length (build_dataset (@corpus_words example_markers hello_corpus)).1 ∧
       (∀ w, dict_get (build_dataset (@corpus_words example_markers hello_corpus)).1 w
             = Some i → w = "") ∧
       dict_get (build_dataset (@corpus_words example_markers hello_corpus)).2 i
       = Some "".
Proof.
  assert (∃ line, line ∈ file_lines hello_corpus ∧ ¬ blank_line line) as Hline.
  { exists ("hello world" +:+ nl). split.
    - left.
    - unfold blank_line. discriminate. }
  split; [exact Hline|].
  exact (@trailing_empty_token example_markers hello_corpus Hline).
Defined.

(** Two blank lines, for C8. *)
Lemma blank_corpus_vocabulary_witness :
  Forall blank_line (file_lines (nl +:+ nl)) ∧
  build_dataset (@corpus_words example_markers (nl +:+ nl))
  = ([("", 0)], [(0, "")]) ∧
  ("" ∉ @marker_tokens example_markers →
   ¬ @single_marker_vocabulary example_markers (nl +:+ nl)).
Proof.
  split; [repeat constructor|].
  apply (@blank_corpus_vocabulary example_markers (nl +:+ nl)).
  repeat constructor.
Defined.

(** C8 as stated fails on a corpus of two blank lines: its one entry is
    the empty string, which is none of the markers. *)
Lemma blank_corpus_entry_not_marker :
  Forall blank_line (file_lines (nl +:+ nl)) ∧
  ¬ @single_marker_vocabulary example_markers (nl +:+ nl).
Proof.
  split; [repeat constructor|].
  intros (m & Hm & Hd). vm_compute in Hd. injection Hd as <-.
  unfold marker_tokens in Hm. simpl in Hm.
  apply elem_of_cons in Hm as [?|Hm]; [done|].
  apply elem_of_cons in Hm as [?|Hm]; [done|].
  by apply list_elem_of_singleton in Hm.
Qed.

(** A seed drawn after a start key and an end key, for C6. *)
Lemma seed_window_start_then_draw_witness :
  seed_window hello_vocabulary [0; 2; 1] = Ok ([0; 0; 1], []) ∧
  ∃ r, [0; 0; 1] = replicate (N_INPUT - 1) (start_key hello_vocabulary) ++ [r] ∧
       r ∈ [0; 2; 1] ∧ r ≠ start_key hello_vocabulary ∧
       r ≠ end_key hello_vocabulary.
Proof.
  split; [reflexivity|].
  apply (seed_window_start_then_draw hello_vocabulary [0; 2; 1] [0; 0; 1] []).
  reflexivity.
Defined.

(** C6 as stated fails when the corpus spells out the unknown token: its
    key can be drawn as the seed. *)
Lemma seed_can_be_unknown_token :
  @run_vocabulary example_markers unk_corpus = Some unk_vocabulary ∧
  ¬ @seed_avoids_markers example_markers unk_vocabulary [2].
Proof.
  split; [reflexivity|]. intros Hseeds.
  destruct (Hseeds [0; 0; 2] [] eq_refl) as (r & Hw & Hr).
  injection Hw as <-.
  apply (Hr "<UNK>"); [|reflexivity].
  unfold marker_tokens. simpl. right. right. left.
Qed.

(** A run that predicts the end token after two words, for C5. *)
Lemma generation_terminates_witness :
  (∃ r, r ∈ [0; 2; 1] ∧ r ≠ start_key hello_vocabulary ∧
        r ≠ end_key hello_vocabulary) ∧
  generate_sentence hello_vocabulary None hello_pred [0; 2; 1] ≠ OutOfDraws ∧
  generate_symbols hello_vocabulary None hello_pred [0; 2; 1] ≠ OutOfDraws ∧
  ∀ out, generate_symbols hello_vocabulary None hello_pred [0; 2; 1] = Ok out →
    ∃ seed rest appended,
      seed_window hello_vocabulary [0; 2; 1] = Ok (seed, rest) ∧
      out = seed ++ appended ∧
      length appended ≤ sentence_length hello_vocabulary ∧
      (∀ k x, appended !! k = Some x →
         x ≠ end_key hello_vocabulary ∧
         predict_index None (hello_pred (take N_INPUT (drop k out))) = Ok x) ∧
      (length appended < sentence_length hello_vocabulary →
         predict_index None (hello_pred (drop (length appended) out))
         = Ok (end_key hello_vocabulary)).
Proof.
  assert (∃ r, r ∈ [0; 2; 1] ∧ r ≠ start_key hello_vocabulary ∧
               r ≠ end_key hello_vocabulary) as Hfair.
  { exists 1. split; [|split; discriminate]. right. right. left. }
  split; [exact Hfair|].
  exact (generation_terminates hello_vocabulary None hello_pred [0; 2; 1] Hfair).
Defined.

Example hello_generation :
  generate_sentence hello_vocabulary None hello_pred [0; 2; 1]
  = Ok "hello world".
Proof. reflexivity. Qed.

(** A session that never predicts the end token stops at the maximum
    length. *)
Example generation_stops_at_maximum :
  generate_symbols hello_vocabulary None (λ _, [0; 1; 0; 0; 0; 0]%Q) [4]
  = Ok ([0; 0; 4] ++ replicate 11 1).
Proof. reflexivity. Qed.

(** The same run, for C10. *)
Lemma end_marker_never_decoded_witness :
  "<START>" ≠ "<END>" ∧
  @run_vocabulary example_markers hello_corpus = Some hello_vocabulary ∧
  generate_symbols hello_vocabulary None hello_pred [0; 2; 1]
  = Ok [0; 0; 1; 3] ∧
  (end_key hello_vocabulary ∉ [0; 0; 1; 3]) ∧
  (∀ n seed rest symbols,
     seed_window hello_vocabulary [0; 2; 1] = Ok (seed, rest) →
     decode hello_vocabulary None hello_pred n 0 seed = Ok symbols →
     end_key hello_vocabulary ∉ symbols) ∧
  (∀ sentence,
     convert_indices_to_sentence hello_vocabulary [0; 0; 1; 3] = Ok sentence →
     (∃ ws, rendered_as hello_vocabulary [0; 0; 1; 3] ws ∧
            sentence = join_space ws ∧ "<END>" ∉ ws) ∧
     "<END>" ∉ split_space sentence).
Proof.
  split; [discriminate|]. split; [reflexivity|]. split; [reflexivity|].
  apply (@end_marker_never_decoded example_markers hello_corpus
           hello_vocabulary None hello_pred [0; 2; 1] [0; 0; 1; 3]).
  - discriminate.
  - reflexivity.
  - reflexivity.
Defined.

(** C7 in embedding mode, on the table of [a b] and the predicted vector
    [(0, 0)].  The squared distances of the two rows are 25 and 9: row 1,
    the vector [(3, 0)] of [b], is the nearest, so the description gives
    the key 2 of [b].  The code takes the norms along [axis=0], per
    column, 9 and 25 squared; column 0 has the least, and the code returns
    the key 1 of [a], whose vector [(0, 5)] is the farther one. *)
Theorem embedding_prediction_by_column_norms :
  @run_vocabulary example_markers ab_corpus = Some ab_vocabulary ∧
  @load_embeddings example_markers (dictionary ab_vocabulary) ab_table
  = Some ab_embeddings ∧
  norm_axis1 (sub_rows (embeddings_list ab_embeddings) [0; 0]%Q)
  = [25; 9]%Q ∧
  norm_axis0 2 (sub_rows (embeddings_list ab_embeddings) [0; 0]%Q)
  = [9; 25]%Q ∧
  nearest_vocabulary_index ab_embeddings [0; 0]%Q = Ok 2 ∧
  predict_index (Some ab_embeddings) [0; 0]%Q = Ok 1.
Proof.
  split; [reflexivity|]. split; [reflexivity|]. split; [reflexivity|].
  split; [reflexivity|]. split; reflexivity.
Qed.

(** When the vectors have more dimensions than the table has rows, the
    column index can fall outside [embedding_order]. *)
Example embedding_prediction_key_error :
  predict_index
    (Some {| index_embeddings := [];
             embeddings_list := [[1; 1; 0]%Q];
             embedding_order := [(0, 1)];
             emb_num_outputs := 3 |})
    [0; 0; 0]%Q
  = Raise KeyError.
Proof. reflexivity. Qed.


(** *** The long corpus and the run on it *)

Lemma strip_newline_line (s : string) : strip_newline (s +:+ nl) = s.
Proof.
  unfold strip_newline, nl. rewrite str_last_snoc.
  rewrite decide_True by done. apply str_init_snoc.
Qed.

Lemma file_lines_repeat_words n :
  file_lines (repeat_words "ha" n +:+ nl) = [repeat_words "ha" n +:+ nl].
Proof.
  induction n as [|n IH]; [reflexivity|].
  change (repeat_words "ha" (S n) +:+ nl)
    with (String "h" (String "a" (String " " (repeat_words "ha" n +:+ nl)))).
  cbn [file_lines]. rewrite IH. reflexivity.
Qed.

Lemma length_repeat_words n : String.length (repeat_words "ha" n) = 3 * n + 2.
Proof.
  induction n as [|n IH]; [reflexivity|].
  change (repeat_words "ha" (S n))
    with (String "h" (String "a" (String " " (repeat_words "ha" n)))).
  cbn [String.length]. rewrite IH. lia.
Qed.

Lemma split_space_repeat_words n rest :
  split_space (repeat_words "ha" n +:+ " " +:+ rest)
  = replicate (S n) "ha" ++ split_space rest.
Proof.
  induction n as [|n IH].
  - by rewrite split_space_cons_word.
  - change (repeat_words "ha" (S n)) with ("ha" +:+ " " +:+ repeat_words "ha" n).
    rewrite !append_assoc. rewrite split_space_cons_word by done.
    rewrite IH. done.
Qed.

Lemma repeat_words_ha_nonempty n : repeat_words "ha" n ≠ "".
Proof. by destruct n. Qed.

Lemma read_corpus_long :
  @read_corpus example_markers long_corpus
  = ("" +:+ (@start_tokens example_markers +:+ repeat_words "ha" 9999
             +:+ " " +:+ "<END>" +:+ " "),
     29999).
Proof.
  unfold read_corpus, long_corpus. rewrite file_lines_repeat_words.
  cbn [fold_left]. unfold read_line. rewrite strip_newline_line.
  rewrite decide_False by apply repeat_words_ha_nonempty.
  cbn [fst snd]. rewrite length_repeat_words. reflexivity.
Qed.

Lemma corpus_words_long :
  @corpus_words example_markers long_corpus = words long_vocabulary.
Proof.
  unfold corpus_words. rewrite read_corpus_long. cbn [fst].
  rewrite append_nil_l.
  change (@start_tokens example_markers)
    with ("<START>" +:+ " " +:+ "<START>" +:+ " " +:+ "<START>" +:+ " ").
  rewrite !append_assoc.
  rewrite !(split_space_cons_word "<START>") by done.
  rewrite split_space_repeat_words. reflexivity.
Qed.

Lemma Counter_app ws ws' :
  Counter (ws ++ ws')
  = fold_left (λ c w, dict_set c w (default 0 (dict_get c w) + 1)) ws' (Counter ws).
Proof. unfold Counter. apply fold_left_app. Qed.

Lemma Counter_ha n k :
  fold_left (λ c w, dict_set c w (default 0 (dict_get c w) + 1))
    (replicate n "ha") [("<START>", 3); ("ha", k)]
  = [("<START>", 3); ("ha", k + n)].
Proof.
  revert k. induction n as [|n IH]; intros k; simpl.
  - by rewrite Nat.add_0_r.
  - rewrite IH. do 3 f_equal. lia.
Qed.

Lemma Counter_long :
  Counter (words long_vocabulary)
  = [("<START>", 3); ("ha", 10000); ("<END>", 1); ("", 1)].
Proof.
  change (words long_vocabulary)
    with (["<START>"; "<START>"; "<START>"; "ha"]
            ++ (replicate 9999 "ha" ++ ["<END>"; ""])).
  rewrite Counter_app, fold_left_app.
  change (Counter ["<START>"; "<START>"; "<START>"; "ha"])
    with [("<START>", 3); ("ha", 1)].
  rewrite Counter_ha. reflexivity.
Qed.

Lemma build_dataset_long :
  build_dataset (words long_vocabulary)
  = (dictionary long_vocabulary, reverse_dictionary long_vocabulary).
Proof. unfold build_dataset. rewrite Counter_long. reflexivity. Qed.

(** The vocabulary of the long corpus. *)
Lemma long_vocabulary_run :
  @run_vocabulary example_markers long_corpus = Some long_vocabulary.
Proof.
  unfold run_vocabulary. rewrite corpus_words_long, build_dataset_long.
  rewrite read_corpus_long. cbn [fst snd].
  change (dict_get (dictionary long_vocabulary) END_TOKEN) with (Some 2).
  change (dict_get (dictionary long_vocabulary) START_TOKEN) with (Some 1).
  cbn [mbind option_bind]. reflexivity.
Qed.

Lemma mod_succ k n : 0 < n → k `mod` n ≠ n - 1 → (S k) `mod` n = k `mod` n + 1.
Proof.
  intros Hn Hk.
  pose proof (Nat.mod_upper_bound k n).
  rewrite <- Nat.add_1_r.
  rewrite (Nat.Div0.add_mod k 1 n).
  destruct (decide (n = 1)) as [->|]; [lia|].
  rewrite (Nat.mod_small 1 n) by lia. apply Nat.mod_small. lia.
Qed.

Lemma mod_succ_wrap k n : 0 < n → k `mod` n = n - 1 → (S k) `mod` n = 0.
Proof.
  intros Hn Hk. rewrite <- Nat.add_1_r.
  rewrite (Nat.Div0.add_mod k 1 n), Hk.
  destruct (decide (n = 1)) as [->|]; [done|].
  rewrite (Nat.mod_small 1 n) by lia.
  replace (n - 1 + 1) with n by lia. apply Nat.Div0.mod_same.
Qed.

Lemma word_key_long i :
  i < 10 * 1000 + 3 →
  word_key long_vocabulary i = Ok (if decide (i < 3) then 1 else 0).
Proof.
  intros Hi. unfold word_key.
  destruct i as [|[|[|j]]]; [reflexivity..|].
  rewrite decide_False by lia.
  change (words long_vocabulary !! S (S (S j)))
    with ((replicate (10 * 1000) "ha" ++ ["<END>"; ""]) !! j).
  rewrite lookup_app_l by (rewrite length_replicate; lia).
  rewrite lookup_replicate_2 by lia. reflexivity.
Qed.

(** A sentence generated on the long corpus by the session that predicts
    the end token. *)
Lemma generate_sentence_long (s : unit) epoch k :
  generate_sentence long_vocabulary None (end_session s) (ha_draws epoch k)
  = Ok "ha".
Proof. reflexivity. Qed.

(** A boundary on the long corpus: the sentence is generated, so the
    boundary returns. *)
Lemma batch_boundary_long model_file epoch k (st : @train_state unit) :
  @batch_boundary example_files model_file unit long_vocabulary None binary32
    end_session ha_draws epoch k st
  = (let r := @boundary_writes example_files model_file unit binary32
                epoch k st in
     Ok ({| sess := sess r.1.1; batch_counter := batch_counter r.1.1;
            total_loss := 0%Q; min_loss := min_loss r.1.1 |},
         if r.2 then r.1.2 ++ [Generate_sentence] else r.1.2)).
Proof.
  unfold batch_boundary. cbv zeta.
  destruct (boundary_writes _ _ _ _ _) as [[st1 evs] [|]]; cbn [fst snd].
  - by rewrite generate_sentence_long.
  - done.
Qed.

(** A turn of the loop over the long corpus with loss zero. *)
Lemma train_step_long model_file epoch k (st : @train_state unit) :
  k < 10 * 1000 →
  @train_step example_files model_file unit zero_loss_op long_vocabulary None
    binary32 end_session ha_draws epoch k st
  = (let st1 := {| sess := sess st;
                   batch_counter := batch_counter st + 1;
                   total_loss := (total_loss st + 0)%Q;
                   min_loss := min_loss st |} in
     if decide (BATCH_SIZE ≤ batch_counter st + 1)
     then batch_boundary (H := example_files) model_file long_vocabulary None
            binary32 end_session ha_draws epoch k st1
     else Ok (st1, [])).
Proof.
  intros Hk. unfold train_step.
  change (seq k N_INPUT) with [k; S k; S (S k)]. cbn [window_keys].
  rewrite !word_key_long by (unfold N_INPUT; lia).
  cbn [mbind result_bind]. unfold target.
  rewrite (decide_False (P := k + N_INPUT < 3)) by (unfold N_INPUT; lia).
  change (num_outputs long_vocabulary None) with 4.
  rewrite (decide_True (P := 0 < 4)) by lia.
  cbn [mbind result_bind zero_loss_op batch_counter].
  by destruct (decide (BATCH_SIZE ≤ batch_counter st + 1)).
Qed.

Lemma state_after_step k :
  k < 9 * 1000 + 999 →
  ∃ evs,
    @train_step example_files "final" unit zero_loss_op long_vocabulary None
      binary32 end_session ha_draws 0 k (state_after k)
    = Ok (state_after (S k), evs).
Proof.
  intros Hk. rewrite train_step_long by lia. cbv zeta.
  unfold state_after. cbn [sess batch_counter total_loss min_loss].
  assert (0 < BATCH_SIZE) as Hpos by (unfold BATCH_SIZE; lia).
  pose proof (Nat.mod_upper_bound k BATCH_SIZE ltac:(lia)) as Hub.
  change (0 + 0)%Q with 0%Q.
  destruct (decide (BATCH_SIZE ≤ k `mod` BATCH_SIZE + 1)) as [Hfull|Hnot].
  - assert (k `mod` BATCH_SIZE = BATCH_SIZE - 1) as Hmod by lia.
    rewrite (mod_succ_wrap k BATCH_SIZE Hpos Hmod).
    rewrite batch_boundary_long. cbv zeta. unfold boundary_writes.
    cbn [sess batch_counter total_loss min_loss].
    change (0 / inject_Z (Z.of_nat BATCH_SIZE))%Q with (0 # 1000)%Q.
    change (binary32 (0 # 1000)) with (Finite 0).
    destruct (decide (k < BATCH_SIZE)) as [Hfirst|Hlater].
    + cbn [min_loss_gt fst snd sess batch_counter min_loss].
      rewrite decide_False.
      * eexists. reflexivity.
      * pose proof (Nat.div_mod_eq k BATCH_SIZE) as Hdm.
        rewrite Hmod in Hdm. rewrite (Nat.div_small k BATCH_SIZE Hfirst) in Hdm.
        unfold BATCH_SIZE in *. lia.
    + change (min_loss_gt (Finite 0) (0 # 1000)) with false.
      rewrite (decide_False (P := k `mod` GENERATE_INCREMENT
                                  = GENERATE_INCREMENT - 1)).
      * cbn [fst snd sess batch_counter min_loss].
        rewrite decide_False by lia. eexists. reflexivity.
      * rewrite Nat.mod_small; [|change GENERATE_INCREMENT with (10 * 1000); lia].
        change (GENERATE_INCREMENT - 1) with (9 * 1000 + 999). lia.
  - rewrite (mod_succ k BATCH_SIZE Hpos) by lia.
    destruct (decide (k < BATCH_SIZE)) as [Hfirst|Hlater].
    + rewrite decide_True; [eexists; reflexivity|].
      destruct (decide (S k = BATCH_SIZE)) as [Heq|]; [|lia].
      exfalso. apply Hnot. rewrite Nat.mod_small by lia. lia.
    + rewrite decide_False by lia. eexists. reflexivity.
Qed.

Lemma state_after_run n a :
  a + n ≤ 9 * 1000 + 999 →
  ∃ evs,
    for_each (@train_step example_files "final" unit zero_loss_op
                long_vocabulary None binary32 end_session ha_draws 0)
             (seq a n) (state_after a)
    = Ok (state_after (a + n), evs).
Proof.
  revert a. induction n as [|n IH]; intros a Han; simpl.
  - rewrite Nat.add_0_r. eauto.
  - destruct (state_after_step a) as [e1 ->]; [lia|].
    cbn [mbind result_bind fst snd].
    destruct (IH (S a)) as [e2 ->]; [lia|].
    cbn [mbind result_bind fst snd].
    replace (a + S n) with (S a + n) by lia. eauto.
Qed.

(** The state of C4's failing run is reached: 9999 examples into the
    first epoch of a fresh run whose losses are all zero. *)
Lemma state_9999_reached :
  ∃ evs,
    for_each (@train_step example_files "final" unit zero_loss_op
                long_vocabulary None binary32 end_session ha_draws 0)
             (seq 0 9999) fresh_state
    = Ok (state_9999, evs).
Proof. exact (state_after_run (9 * 1000 + 999) 0 (Nat.le_refl _)). Qed.

(** The rounding at work: 1.001 goes up to [8396997 / 2^23], a tie goes
    to the even neighbour, what is too small for the least step goes to
    zero, and what reaches [2^128 - 2^103] goes to infinity. *)
Example binary32_values :
  binary32 (1001 # 1000) = Finite (8396997 # 8388608) ∧
  binary32 1 = Finite (8388608 # 8388608) ∧
  binary32 16777217 = Finite (16777216 # 1) ∧
  binary32 16777219 = Finite (16777220 # 1) ∧
  binary32 (1 # 2 ^ 150) = Finite (0 # 2 ^ 149) ∧
  binary32 (inject_Z (2 ^ 128 - 2 ^ 103)) = Inf ∧
  binary32 (inject_Z (2 ^ 128 - 2 ^ 103 - 1))
  = Finite (inject_Z (2 ^ 128 - 2 ^ 104)).
Proof. repeat split; reflexivity. Qed.

(** With [--model-file final] the two paths are one. *)
Lemma final_model_file_collides `{file_access} :
  save_model_path "final" = final_model_path.
Proof. reflexivity. Qed.


(** C4 as stated fails in a second way, whatever the paths, because
    [min_loss] is a float32 variable.  Two batches in a row have the mean
    loss 1.001.  After the first the variable holds the float32 nearest to
    it, [8396997 / 2^23], which is above 1.001; so the mean of the second
    batch is strictly below the minimum, a second checkpoint is written,
    and the minimum stays what it was. *)
Lemma equal_means_run :
  @run_vocabulary example_markers ha_corpus = Some ha_vocabulary ∧
  @train example_files "test_model" nat counting_loss_op ha_vocabulary None
     binary32 end_session ha_draws 0 Inf
  = Ok ({| sess := 2000; batch_counter := 0; total_loss := 0%Q;
           min_loss := Finite (8396997 # 8388608) |},
        [Print_current_loss 49 19 (1001 # 1000);
         Save "saved_models/test_model"; Print_saved (1001 # 1000);
         Generate_sentence;
         Print_current_loss 99 19 (1001 # 1000);
         Save "saved_models/test_model"; Print_saved (1001 # 1000);
         Generate_sentence]).
Proof. split; reflexivity. Qed.

(** The last turn of that run, against the rule of the description: a
    checkpoint is written and the minimum does not change. *)
Lemma equal_mean_saved_again :
  @train_step example_files "test_model" nat counting_loss_op ha_vocabulary
    None binary32 end_session ha_draws 99 19 state_equal_mean
  = Ok ({| sess := 2000; batch_counter := 0; total_loss := 0%Q;
           min_loss := Finite (8396997 # 8388608) |},
        [Print_current_loss 99 19 (1001 # 1000);
         Save "saved_models/test_model"; Print_saved (1001 # 1000);
         Generate_sentence]) ∧
  ¬ @stated_checkpoint_rule example_files "test_model" nat counting_loss_op
      state_equal_mean
      {| sess := 2000; batch_counter := 0; total_loss := 0%Q;
         min_loss := Finite (8396997 # 8388608) |}
      [Print_current_loss 99 19 (1001 # 1000);
       Save "saved_models/test_model"; Print_saved (1001 # 1000);
       Generate_sentence].
Proof.
  split; [reflexivity|].
  intros (keys & symbols_out & loss & Hop & Hrule).
  destruct (decide _) as [_|Hn].
  - destruct Hrule as (_ & [_ Hchange] & _).
    apply Hchange; [|reflexivity]. right. left.
  - apply Hn. apply Nat.leb_le. reflexivity.
Qed.

(** * Further properties *)

(** ** The corpus *)

(** Cutting at spaces distributes over a space between two strings. *)
Lemma split_space_app (s rest : string) :
  split_space (s +:+ " " +:+ rest) = split_space s ++ split_space rest.
Proof.
  induction s as [|c s IH].
  - rewrite append_nil_l. reflexivity.
  - rewrite append_cons. simpl. destruct (decide (c = space)).
    + by rewrite IH.
    + rewrite IH. pose proof (split_space_nonempty s).
      by destruct (split_space s).
Qed.

Section CorpusStructure.
Context `{word_embeddings}.

(** The text one kept line adds to [punch_lines]. *)
Lemma read_line_kept st line :
  strip_newline line ≠ "" →
  read_line st line
  = (st.1 +:+ (start_tokens +:+ strip_newline line +:+ " " +:+ END_TOKEN +:+ " "),
     max st.2 (String.length (strip_newline line))).
Proof. intros Hne. unfold read_line. by rewrite decide_False. Qed.

Lemma split_space_start_tokens rest :
  has_space START_TOKEN = false →
  split_space (start_tokens +:+ rest)
  = replicate N_INPUT START_TOKEN ++ split_space rest.
Proof.
  intros Hs.
  change start_tokens
    with ((("" +:+ (START_TOKEN +:+ " ")) +:+ (START_TOKEN +:+ " "))
          +:+ (START_TOKEN +:+ " ")).
  rewrite append_nil_l, !append_assoc.
  by rewrite !(split_space_cons_word START_TOKEN).
Qed.

(** The tokens after reading some lines into [punch_lines]. *)
Lemma fold_read_line_words lines st :
  has_space START_TOKEN = false →
  has_space END_TOKEN = false →
  ∀ rest,
    split_space ((fold_left read_line lines st).1 +:+ rest)
    = split_space
        (st.1 +:+ foldr (λ line acc,
                           start_tokens +:+ line +:+ " " +:+ END_TOKEN +:+ " "
                           +:+ acc)
                        rest
                        (filter (λ line, line ≠ "") (strip_newline <$> lines))).
Proof.
  intros Hs He. revert st. induction lines as [|l lines IH]; intros st rest.
  - done.
  - cbn [fold_left]. rewrite IH. rewrite fmap_cons, filter_cons.
    destruct (decide (strip_newline l ≠ "")) as [Hne|Heq].
    + rewrite read_line_kept by done. cbn [fst foldr].
      by rewrite !append_assoc.
    + unfold read_line. rewrite decide_True; [done|].
      by destruct (decide (strip_newline l = "")).
Qed.

Lemma split_space_chunks (ls : list string) :
  has_space START_TOKEN = false →
  has_space END_TOKEN = false →
  split_space
    (foldr (λ line acc,
              start_tokens +:+ line +:+ " " +:+ END_TOKEN +:+ " " +:+ acc)
           "" ls)
  = (ls ≫= line_tokens) ++ [""].
Proof.
  intros Hs He. induction ls as [|l ls IH]; [done|].
  cbn [foldr]. rewrite split_space_start_tokens by done.
  rewrite split_space_app, (split_space_cons_word END_TOKEN) by done.
  rewrite IH. unfold line_tokens. cbn [mbind list_bind].
  by rewrite <- !app_assoc.
Qed.

Lemma corpus_words_tokens content :
  has_space START_TOKEN = false →
  has_space END_TOKEN = false →
  corpus_words content = (kept_lines content ≫= line_tokens) ++ [""].
Proof.
  intros Hs He. unfold corpus_words, read_corpus, kept_lines.
  pose proof (fold_read_line_words (file_lines content) ("", 1) Hs He "") as Hw.
  cbn [fst] in Hw. rewrite append_nil_l in Hw.
  rewrite <- split_space_chunks by done. rewrite <- Hw.
  f_equal. generalize ((fold_left read_line (file_lines content) ("", 1)).1).
  intros s. induction s as [|c s IHs]; [done|]. rewrite append_cons. by f_equal.
Qed.
End CorpusStructure.

Lemma kept_lines_nil content :
  kept_lines content = [] ↔ Forall blank_line (file_lines content).
Proof.
  unfold kept_lines, blank_line.
  induction (file_lines content) as [|l ls IH]; [by split|].
  rewrite fmap_cons, filter_cons, Forall_cons.
  destruct (decide (strip_newline l ≠ "")) as [Hne|Heq].
  - split; [done | intros [? _]; done].
  - rewrite IH. split; [intros ?; split; [|done] | by intros [_ ?]].
    by destruct (decide (strip_newline l = "")).
Qed.

Lemma fold_read_line_length `{word_embeddings} lines st :
  (fold_left read_line lines st).2
  = max st.2 (max_list (String.length <$>
                          filter (λ line, line ≠ "") (strip_newline <$> lines))).
Proof.
  revert st. induction lines as [|l lines IH]; intros st.
  - simpl. lia.
  - cbn [fold_left]. rewrite IH, fmap_cons, filter_cons.
    destruct (decide (strip_newline l ≠ "")) as [Hne|Heq].
    + rewrite read_line_kept by done. cbn [snd]. rewrite fmap_cons. simpl. lia.
    + unfold read_line. rewrite decide_True; [done|].
      by destruct (decide (strip_newline l = "")).
Qed.

(** X1 (run, lines 79-95): with start and end tokens that hold no space, the token list of
    [run] is, line by line of the kept lines, [N_INPUT] start tokens, the
    words of the line, and the end token; one empty token closes the
    list. *)
Theorem corpus_words_by_line `{word_embeddings} (content : string) :
  has_space START_TOKEN = false →
  has_space END_TOKEN = false →
  corpus_words content = (kept_lines content ≫= line_tokens) ++ [""].
Proof. apply corpus_words_tokens. Qed.

Lemma corpus_words_by_line_witness :
  has_space "<START>" = false ∧ has_space "<END>" = false ∧
  @corpus_words example_markers hello_corpus
  = (kept_lines hello_corpus ≫= @line_tokens example_markers) ++ [""].
Proof.
  split; [reflexivity|]. split; [reflexivity|].
  apply (@corpus_words_by_line example_markers hello_corpus); reflexivity.
Defined.

(** X2 (run, lines 79-100): with start and end tokens that hold no space and an end token
    that is not empty, [run] gets past the two key lookups exactly when
    the corpus has a line that is kept; a corpus of blank lines, or an
    empty file, ends in the [KeyError] of [dictionary[END_TOKEN]]. *)
Theorem run_vocabulary_needs_a_line `{word_embeddings} (content : string) :
  has_space START_TOKEN = false →
  has_space END_TOKEN = false →
  END_TOKEN ≠ "" →
  is_Some (run_vocabulary content) ↔ kept_lines content ≠ [].
Proof.
  intros Hs He Hne. split.
  - intros [v Hv] Hkept. apply kept_lines_nil in Hkept.
    rewrite blank_corpus_run in Hv; done.
  - intros Hkept.
    assert (START_TOKEN ∈ corpus_words content ∧ END_TOKEN ∈ corpus_words content)
      as [Hin_s Hin_e].
    { rewrite corpus_words_tokens by done.
      destruct (kept_lines content) as [|l ls]; [done|].
      cbn [mbind list_bind].
      assert (START_TOKEN ∈ line_tokens l ∧ END_TOKEN ∈ line_tokens l) as [? ?].
      { unfold line_tokens. rewrite !elem_of_app. split.
        - left. apply elem_of_replicate. split; [done|]. unfold N_INPUT. lia.
        - right. right. left. }
      rewrite !elem_of_app. split; by left; left. }
    apply build_dataset_dom in Hin_s as [s Hsk], Hin_e as [e Hek].
    unfold run_vocabulary. rewrite Hek, Hsk. by eexists.
Qed.

Lemma run_vocabulary_needs_a_line_witness :
  has_space "<START>" = false ∧ has_space "<END>" = false ∧ "<END>" ≠ "" ∧
  (is_Some (@run_vocabulary example_markers hello_corpus)
   ↔ kept_lines hello_corpus ≠ []).
Proof.
  split; [reflexivity|]. split; [reflexivity|]. split; [discriminate|].
  apply (@run_vocabulary_needs_a_line example_markers hello_corpus);
    [reflexivity | reflexivity | discriminate].
Defined.

(** X3 (run, lines 80-94): the bound of the decoding loop is the length, in characters, of
    the longest kept line, and 1 when no line is longer. *)
Theorem sentence_length_longest_line `{word_embeddings} (content : string)
    (v : vocabulary) :
  run_vocabulary content = Some v →
  sentence_length v = max 1 (max_list (String.length <$> kept_lines content)).
Proof.
  intros Hv.
  destruct (run_vocabulary_Some _ _ Hv) as (_ & _ & _ & _ & _ & _ & ->).
  unfold read_corpus, kept_lines. by rewrite fold_read_line_length.
Qed.

Lemma sentence_length_longest_line_witness :
  @run_vocabulary example_markers hello_corpus = Some hello_vocabulary ∧
  sentence_length hello_vocabulary
  = max 1 (max_list (String.length <$> kept_lines hello_corpus)).
Proof.
  split; [reflexivity|].
  apply (@sentence_length_longest_line example_markers hello_corpus).
  reflexivity.
Defined.

(** ** The vocabulary of run *)

Lemma build_dataset_size ws :
  length (build_dataset ws).1 = length (remove_dups ws).
Proof.
  rewrite build_dataset_length. apply Permutation_length, NoDup_Permutation.
  - apply ranked_tokens_NoDup.
  - apply NoDup_remove_dups.
  - intros w. by rewrite elem_of_ranked_tokens, elem_of_remove_dups.
Qed.

(** X4 (run, lines 97-102): once [run] has its vocabulary, the start and end keys are indices
    of the vocabulary that the reverse dictionary sends back to the start
    and end tokens, they coincide only if the two tokens do, and
    [vocab_size] is the number of distinct tokens of the token list. *)
Theorem run_vocabulary_keys `{word_embeddings} (content : string)
    (v : vocabulary) :
  run_vocabulary content = Some v →
  start_key v < vocab_size v ∧
  end_key v < vocab_size v ∧
  dict_get (reverse_dictionary v) (start_key v) = Some START_TOKEN ∧
  dict_get (reverse_dictionary v) (end_key v) = Some END_TOKEN ∧
  (start_key v = end_key v ↔ START_TOKEN = END_TOKEN) ∧
  vocab_size v = length (remove_dups (words v)).
Proof.
  intros Hv.
  destruct (run_vocabulary_Some _ _ Hv) as (Hw & Hd & Hr & He & Hs & Hn & _).
  rewrite Hn, Hw, Hr. rewrite Hd in He, Hs |- *.
  split; [apply build_dataset_range; eauto|].
  split; [apply build_dataset_range; eauto|].
  split; [by apply build_dataset_inverse|].
  split; [by apply build_dataset_inverse|].
  split; [|apply build_dataset_size].
  split.
  - intros Heq. rewrite Heq in Hs. exact (build_dataset_inj _ _ _ _ Hs He).
  - intros Heq. rewrite Heq in Hs. congruence.
Qed.

Lemma run_vocabulary_keys_witness :
  @run_vocabulary example_markers hello_corpus = Some hello_vocabulary ∧
  start_key hello_vocabulary < vocab_size hello_vocabulary ∧
  end_key hello_vocabulary < vocab_size hello_vocabulary ∧
  dict_get (reverse_dictionary hello_vocabulary) (start_key hello_vocabulary)
  = Some "<START>" ∧
  dict_get (reverse_dictionary hello_vocabulary) (end_key hello_vocabulary)
  = Some "<END>" ∧
  (start_key hello_vocabulary = end_key hello_vocabulary
   ↔ "<START>" = "<END>") ∧
  vocab_size hello_vocabulary = length (remove_dups (words hello_vocabulary)).
Proof.
  split; [reflexivity|].
  apply (@run_vocabulary_keys example_markers hello_corpus hello_vocabulary).
  reflexivity.
Defined.

(** X5 (run, lines 95-102): with start and end tokens that differ and are not empty, the
    vocabulary of [run] has at least three entries, and the empty token
    that closes the token list has a key the seed loop accepts: the loop
    always has a key to end on. *)
Theorem run_vocabulary_three_tokens `{word_embeddings} (content : string)
    (v : vocabulary) :
  run_vocabulary content = Some v →
  START_TOKEN ≠ END_TOKEN → START_TOKEN ≠ "" → END_TOKEN ≠ "" →
  3 ≤ vocab_size v ∧
  ∃ r, dict_get (dictionary v) "" = Some r ∧
       r < vocab_size v ∧ r ≠ start_key v ∧ r ≠ end_key v.
Proof.
  intros Hv Hse Hs He.
  destruct (run_vocabulary_Some _ _ Hv) as (_ & Hd & _ & Hek & Hsk & Hsize & _).
  assert (start_key v ≠ end_key v) as Hkeys
    by by eapply start_key_ne_end_key.
  rewrite Hd in Hek, Hsk. rewrite Hsize, Hd.
  assert (∃ r, dict_get (build_dataset (corpus_words content)).1 "" = Some r)
    as [r Hr].
  { apply build_dataset_dom.
    destruct (decide (Forall blank_line (file_lines content))) as [Hb|Hnb].
    - rewrite corpus_words_blank by done. left.
    - apply not_Forall_Exists in Hnb; [|apply _].
      apply Exists_exists in Hnb as (line & Hin & Hline).
      destruct (last_Some (corpus_words content) "") as [[l' Hl'] _].
      { apply corpus_words_last. eauto. }
      rewrite Hl'. apply elem_of_app. right. left. }
  assert (r ≠ start_key v) as Hrs.
  { intros ->. apply Hs. exact (build_dataset_inj _ _ _ _ Hsk Hr). }
  assert (r ≠ end_key v) as Hre.
  { intros ->. apply He. exact (build_dataset_inj _ _ _ _ Hek Hr). }
  assert (r < length (build_dataset (corpus_words content)).1) as Hr_lt
    by (apply build_dataset_range; eauto).
  assert (start_key v < length (build_dataset (corpus_words content)).1)
    as Hs_lt by (apply build_dataset_range; eauto).
  assert (end_key v < length (build_dataset (corpus_words content)).1)
    as He_lt by (apply build_dataset_range; eauto).
  split; [lia|]. exists r. done.
Qed.

Lemma run_vocabulary_three_tokens_witness :
  @run_vocabulary example_markers hello_corpus = Some hello_vocabulary ∧
  "<START>" ≠ "<END>" ∧ "<START>" ≠ "" ∧ "<END>" ≠ "" ∧
  3 ≤ vocab_size hello_vocabulary ∧
  ∃ r, dict_get (dictionary hello_vocabulary) "" = Some r ∧
       r < vocab_size hello_vocabulary ∧ r ≠ start_key hello_vocabulary ∧
       r ≠ end_key hello_vocabulary.
Proof.
  split; [reflexivity|]. split; [discriminate|]. split; [discriminate|].
  split; [discriminate|].
  apply (@run_vocabulary_three_tokens example_markers hello_corpus
           hello_vocabulary); [reflexivity | discriminate..].
Defined.

(** ** The embedding tables *)

(** The second loop of the loader, from any point on. *)
Lemma embedding_rows_fold (dictionary : list (string * nat))
    (embeddings_dict : list (string * vector))
    (el : list vector) (idxs : list nat) :
  length idxs = length el →
  fold_left
    (λ (st : list vector * list (nat * nat) * nat) (we : string * vector),
       let '(el, eo, order) := st in
       match dict_get dictionary we.1 with
       | Some index => (el ++ [we.2], dict_set eo order index, order + 1)
       | None => st
       end)
    embeddings_dict (el, zip (seq 0 (length el)) idxs, length el)
  = let rows := table_rows dictionary embeddings_dict in
    (el ++ ((λ r, r.1.2) <$> rows),
     zip (seq 0 (length el + length rows)) (idxs ++ (snd <$> rows)),
     length el + length rows).
Proof.
  revert el idxs. induction embeddings_dict as [|[w vec] t IH];
    intros el idxs Hlen; cbn [fold_left table_rows omap list_omap].
  - cbv zeta. simpl. by rewrite !app_nil_r, Nat.add_0_r.
  - cbn [fst snd]. destruct (dict_get dictionary w) as [index|] eqn:Hw.
    + cbn [fmap option_fmap option_map].
      rewrite dict_set_fresh.
      2:{ rewrite fst_zip by (rewrite length_seq; lia).
          rewrite elem_of_seq. lia. }
      replace (zip (seq 0 (length el)) idxs ++ [(length el, index)])
        with (zip (seq 0 (length (el ++ [vec]))) (idxs ++ [index])).
      2:{ rewrite length_app. simpl. rewrite seq_app. simpl.
          rewrite zip_with_app by (rewrite length_seq; lia). done. }
      replace (length el + 1) with (length (el ++ [vec]))
        by (rewrite length_app; simpl; lia).
      rewrite IH by (rewrite !length_app; simpl; lia).
      cbv zeta. fold (table_rows dictionary t).
      rewrite length_app. simpl.
      rewrite <- !app_assoc. simpl.
      by replace (length el + 1 + length (table_rows dictionary t))
        with (length el + S (length (table_rows dictionary t))) by lia.
    + cbn [fmap option_fmap option_map]. by rewrite IH.
Qed.

(** The first loop of the loader: one item per item of the dictionary. *)
Lemma index_embeddings_fold {A} (g : string → A)
    (f : list (nat * A) → string * nat → list (nat * A))
    (d : list (string * nat)) (acc : list (nat * A)) :
  (∀ ie wi, f ie wi = dict_set ie wi.2 (g wi.1)) →
  NoDup (acc.*1 ++ d.*2) →
  fold_left f d acc = acc ++ ((λ wi, (wi.2, g wi.1)) <$> d).
Proof.
  intros Hf. revert acc. induction d as [|[w i] d IH]; intros acc Hnd; simpl.
  - by rewrite app_nil_r.
  - simpl in Hnd. apply NoDup_app in Hnd as Hnd'.
    destruct Hnd' as (_ & Hdisj & _).
    rewrite Hf. simpl. rewrite dict_set_fresh.
    + rewrite IH; [by rewrite <- app_assoc|].
      rewrite fmap_app. simpl. by rewrite <- app_assoc.
    + intros Hin. apply (Hdisj _ Hin). left.
Qed.

(** What a successful load returns. *)
Lemma load_embeddings_Some `{word_embeddings} ws embeddings_dict e :
  load_embeddings (build_dataset ws).1 embeddings_dict = Some e →
  ∃ unknown_embedding,
    dict_get embeddings_dict UNKNOWN_TOKEN = Some unknown_embedding ∧
    index_embeddings e
    = (λ wi, (wi.2, default unknown_embedding (dict_get embeddings_dict wi.1)))
        <$> (build_dataset ws).1 ∧
    embeddings_list e
    = (λ r, r.1.2) <$> table_rows (build_dataset ws).1 embeddings_dict ∧
    embedding_order e
    = zip (seq 0 (length (table_rows (build_dataset ws).1 embeddings_dict)))
          (snd <$> table_rows (build_dataset ws).1 embeddings_dict) ∧
    emb_num_outputs e = length unknown_embedding.
Proof.
  unfold load_embeddings. intros Hload.
  destruct (dict_get embeddings_dict UNKNOWN_TOKEN) as [u|]; [|done].
  exists u. split; [done|]. simpl in Hload.
  pose proof (embedding_rows_fold (build_dataset ws).1 embeddings_dict [] []
                eq_refl) as Hrows.
  cbv zeta in Hrows. simpl in Hrows. rewrite Hrows in Hload.
  injection Hload as <-. simpl. split; [|done].
  rewrite (index_embeddings_fold
             (λ w, default u (dict_get embeddings_dict w))); [done| |].
  - intros ie [w' j]. simpl. by destruct (dict_get embeddings_dict w').
  - simpl. apply build_dataset_values_NoDup.
Qed.

Lemma table_rows_elem_of dictionary (embeddings_dict : list (string * vector))
    w vec i :
  (w, vec, i) ∈ table_rows dictionary embeddings_dict
  ↔ (w, vec) ∈ embeddings_dict ∧ dict_get dictionary w = Some i.
Proof.
  unfold table_rows. rewrite list_elem_of_omap. split.
  - intros ([w' vec'] & Hin & Hrow). simpl in Hrow.
    destruct (dict_get dictionary w') as [j|] eqn:Hj; [|done].
    simpl in Hrow. by simplify_eq.
  - intros [Hin Hi]. exists (w, vec). split; [done|]. simpl. by rewrite Hi.
Qed.

Lemma table_rows_words_NoDup dictionary (embeddings_dict : list (string * vector)) :
  NoDup embeddings_dict.*1 →
  NoDup ((λ r, r.1.1) <$> table_rows dictionary embeddings_dict).
Proof.
  induction embeddings_dict as [|[w vec] t IH]; simpl; [constructor|].
  rewrite NoDup_cons. intros [Hw Hnd]. unfold table_rows. simpl.
  fold (table_rows dictionary t).
  destruct (dict_get dictionary w) as [i|]; simpl; [|by apply IH].
  apply NoDup_cons. split; [|by apply IH].
  rewrite list_elem_of_fmap. intros ([[w' vec'] j] & Heq & Hin).
  simpl in Heq. subst w'. apply table_rows_elem_of in Hin as [Hin _].
  apply Hw. apply list_elem_of_fmap. by exists (w, vec').
Qed.

Lemma dict_get_zip_seq_0 {V} (vs : list V) (k : nat) :
  dict_get (zip (seq 0 (length vs)) vs) k = vs !! k.
Proof. apply (dict_get_seq_zip vs k 0). Qed.

(** X6 (run, lines 121-131): the rows of [embeddings_list] are the vectors
    of the table's items whose word is in the vocabulary, in the order of
    the table, and [embedding_order] numbers them from 0 with the index of
    their word; so the two have the same length, and row [k] holds an item
    of the table whose word has index [embedding_order[k]]. *)
Theorem embedding_rows_of_table `{word_embeddings}
    (dictionary : list (string * nat)) (embeddings_dict : list (string * vector))
    (e : embeddings) :
  load_embeddings dictionary embeddings_dict = Some e →
  embeddings_list e = (λ r, r.1.2) <$> table_rows dictionary embeddings_dict ∧
  dict_keys (embedding_order e) = seq 0 (length (embeddings_list e)) ∧
  (∀ k i, dict_get (embedding_order e) k = Some i →
     ∃ w vec, embeddings_list e !! k = Some vec ∧
              (w, vec) ∈ embeddings_dict ∧ dict_get dictionary w = Some i) ∧
  (∀ w vec i, (w, vec) ∈ embeddings_dict → dict_get dictionary w = Some i →
     ∃ k, embeddings_list e !! k = Some vec ∧
          dict_get (embedding_order e) k = Some i).
Proof.
  unfold load_embeddings. intros Hload.
  destruct (dict_get embeddings_dict UNKNOWN_TOKEN) as [u|]; [|done].
  simpl in Hload.
  pose proof (embedding_rows_fold dictionary embeddings_dict [] []
                eq_refl) as Hrows.
  cbv zeta in Hrows. simpl in Hrows. rewrite Hrows in Hload.
  injection Hload as <-. simpl.
  set (rows := table_rows dictionary embeddings_dict).
  assert (Hlen : length rows = length (rows.*2))
    by by rewrite length_fmap.
  split; [done|]. split; [|split].
  - unfold dict_keys. rewrite fst_zip by (rewrite length_seq, length_fmap; lia).
    by rewrite length_fmap.
  - intros k i. rewrite Hlen, dict_get_zip_seq_0, list_lookup_fmap.
    destruct (rows !! k) as [[[w vec] j]|] eqn:Hk; [|done].
    simpl. intros [= ->]. exists w, vec.
    rewrite list_lookup_fmap, Hk. split; [done|].
    apply table_rows_elem_of. by eapply list_elem_of_lookup_2.
  - intros w vec i Hin Hi.
    assert (Hrow : (w, vec, i) ∈ rows) by by apply table_rows_elem_of.
    apply list_elem_of_lookup in Hrow as [k Hk]. exists k.
    by rewrite Hlen, dict_get_zip_seq_0, !list_lookup_fmap, Hk.
Qed.

Lemma embedding_rows_of_table_witness :
  @load_embeddings example_markers (dictionary ab_vocabulary) ab_table
  = Some ab_embeddings ∧
  embeddings_list ab_embeddings
  = (λ r, r.1.2) <$> table_rows (dictionary ab_vocabulary) ab_table.
Proof.
  split; [reflexivity|].
  apply (@embedding_rows_of_table example_markers (dictionary ab_vocabulary)
           ab_table ab_embeddings eq_refl).
Defined.

(** X7 (run, lines 112-131): with a table that has each word once, the
    three tables agree: the vector in row [k] of [embeddings_list] is the
    vector [index_embeddings] gives for the word index [embedding_order[k]],
    and no word index is listed in two rows. *)
Theorem embedding_tables_agree `{word_embeddings} (ws : list string)
    (embeddings_dict : list (string * vector)) (e : embeddings) :
  load_embeddings (build_dataset ws).1 embeddings_dict = Some e →
  NoDup embeddings_dict.*1 →
  (∀ k i vec, dict_get (embedding_order e) k = Some i →
     embeddings_list e !! k = Some vec →
     dict_get (index_embeddings e) i = Some vec) ∧
  (∀ k k' i, dict_get (embedding_order e) k = Some i →
     dict_get (embedding_order e) k' = Some i → k = k').
Proof.
  intros Hload Hnd.
  destruct (load_embeddings_Some _ _ _ Hload)
    as (u & Hu & _ & Hel & Heo & _).
  set (rows := table_rows (build_dataset ws).1 embeddings_dict) in *.
  assert (Hlen : length rows = length (rows.*2))
    by by rewrite length_fmap.
  assert (Horder : ∀ k i, dict_get (embedding_order e) k = Some i →
            ∃ w vec, rows !! k = Some (w, vec, i)).
  { intros k i. rewrite Heo, Hlen, dict_get_zip_seq_0, list_lookup_fmap.
    destruct (rows !! k) as [[[w vec] j]|]; [|done].
    simpl. intros [= ->]. by exists w, vec. }
  split.
  - intros k i vec Hk Hvec. apply Horder in Hk as (w & vec' & Hk).
    rewrite Hel, list_lookup_fmap, Hk in Hvec. simpl in Hvec.
    injection Hvec as ->.
    apply list_elem_of_lookup_2, table_rows_elem_of in Hk as [Hin Hi].
    destruct (load_embeddings_index _ _ _ _ _ Hload Hi) as (u' & _ & ->).
    by rewrite (elem_of_dict_get _ _ _ Hnd Hin).
  - intros k k' i Hk Hk'.
    apply Horder in Hk as (w & vec & Hk), Hk' as (w' & vec' & Hk').
    assert (w = w').
    { apply list_elem_of_lookup_2, table_rows_elem_of in Hk as [_ Hi].
      apply list_elem_of_lookup_2, table_rows_elem_of in Hk' as [_ Hi'].
      by eapply build_dataset_inj. }
    subst w'.
    apply (NoDup_lookup _ k k' w
             (table_rows_words_NoDup (build_dataset ws).1 _ Hnd));
      rewrite list_lookup_fmap; fold rows.
    + by rewrite Hk.
    + by rewrite Hk'.
Qed.

Lemma embedding_tables_agree_witness :
  @load_embeddings example_markers (build_dataset (words ab_vocabulary)).1
     ab_table = Some ab_embeddings ∧
  NoDup ab_table.*1 ∧
  dict_get (index_embeddings ab_embeddings) 2 = Some [3; 0]%Q.
Proof.
  assert (Hnd : NoDup ab_table.*1).
  { by apply (bool_decide_unpack _). }
  split; [reflexivity|]. split; [exact Hnd|].
  apply (proj1 (@embedding_tables_agree example_markers (words ab_vocabulary)
                  ab_table ab_embeddings eq_refl Hnd) 1 2 [3; 0]%Q);
    reflexivity.
Defined.

Lemma load_embeddings_rows `{word_embeddings} dictionary embeddings_dict e :
  load_embeddings dictionary embeddings_dict = Some e →
  embeddings_list e = (λ r, r.1.2) <$> table_rows dictionary embeddings_dict ∧
  ∀ k, dict_get (embedding_order e) k
       = (table_rows dictionary embeddings_dict).*2 !! k.
Proof.
  unfold load_embeddings. intros Hload.
  destruct (dict_get embeddings_dict UNKNOWN_TOKEN) as [u|]; [|done].
  simpl in Hload.
  pose proof (embedding_rows_fold dictionary embeddings_dict [] []
                eq_refl) as Hrows.
  cbv zeta in Hrows. simpl in Hrows. rewrite Hrows in Hload.
  injection Hload as <-. simpl. split; [done|]. intros k.
  rewrite <- (dict_get_zip_seq_0 _ k). by rewrite length_fmap.
Qed.

(** ** Generation *)

Lemma draw_rand_key_find (v : vocabulary) (draws : list nat) (r0 : nat) :
  r0 = start_key v ∨ r0 = end_key v →
  draw_rand_key v draws r0
  = match list_find (λ r, r ≠ start_key v ∧ r ≠ end_key v) draws with
    | Some (k, r) => Ok (r, drop (S k) draws)
    | None => OutOfDraws
    end.
Proof.
  revert r0. induction draws as [|d draws IH]; intros r0 Hr0.
  - simpl. by rewrite decide_True.
  - change (draw_rand_key v (d :: draws) r0)
      with (if decide (r0 = start_key v ∨ r0 = end_key v)
            then draw_rand_key v draws d else Ok (r0, d :: draws)).
    rewrite decide_True by done. cbn [list_find].
    destruct (decide (d ≠ start_key v ∧ d ≠ end_key v)) as [Hd|Hd].
    + simpl. rewrite drop_0.
      destruct draws; simpl; by rewrite decide_False by tauto.
    + rewrite IH.
      2:{ destruct (decide (d = start_key v)); [by left|].
          destruct (decide (d = end_key v)); [by right | tauto]. }
      by destruct (list_find _ draws) as [[k r]|].
Qed.

(** X8 (generate_sentence, lines 176-180): the seed loop takes the first
    draw that is neither the start key nor the end key, whatever else that
    key is, puts it behind [N_INPUT - 1] start keys, and uses up the draws
    up to it and no more; it raises nothing, and it goes on for as long as
    the draws are start or end keys. *)
Theorem seed_window_first_acceptable (v : vocabulary) (draws : list nat) :
  seed_window v draws
  = match list_find (λ r, r ≠ start_key v ∧ r ≠ end_key v) draws with
    | Some (k, r) =>
        Ok (replicate (N_INPUT - 1) (start_key v) ++ [r], drop (S k) draws)
    | None => OutOfDraws
    end.
Proof.
  unfold seed_window. rewrite draw_rand_key_find by by left.
  by destruct (list_find _ draws) as [[k r]|].
Qed.

Section RenderOutcome.
Context (v : vocabulary).

Lemma convert_loop_mapM symbols acc :
  convert_loop v symbols acc
  = match mapM (λ x, dict_get (reverse_dictionary v) x)
                (filter (λ x, x ≠ start_key v) symbols) with
    | Some ws => Ok (foldl (λ sentence w, sentence +:+ (w +:+ " ")) acc ws)
    | None => Raise KeyError
    end.
Proof.
  revert acc. induction symbols as [|x symbols IH]; intros acc; [done|].
  rewrite filter_cons. cbn [convert_loop].
  destruct (decide (x ≠ start_key v)); [|apply IH].
  cbn [mapM]. destruct (dict_get (reverse_dictionary v) x) as [w|]; [|done].
  simpl. rewrite IH.
  by destruct (mapM _ (filter _ symbols)).
Qed.

Lemma convert_indices_to_sentence_mapM symbols :
  convert_indices_to_sentence v symbols
  = match mapM (λ x, dict_get (reverse_dictionary v) x)
                (filter (λ x, x ≠ start_key v) symbols) with
    | Some ws => Ok (join_space ws)
    | None => Raise KeyError
    end.
Proof.
  unfold convert_indices_to_sentence. rewrite convert_loop_mapM.
  destruct (mapM _ _) as [ws|]; [|done]. simpl. f_equal.
  destruct ws as [|w ws]; [done|].
  rewrite foldl_spaced by done. by rewrite append_nil_l, str_init_snoc.
Qed.
End RenderOutcome.

(** X9 (convert_indices_to_sentence, lines 199-213): the renderer leaves
    the start keys out and looks every other index up in
    [reverse_dictionary]; when all are found the sentence is their words
    with single spaces between them and none at the end (the empty string
    when there is no word), and otherwise the call raises [KeyError]. *)
Theorem convert_indices_to_sentence_outcome (v : vocabulary)
    (symbols_in_keys : list nat) :
  convert_indices_to_sentence v symbols_in_keys
  = match mapM (λ symbol, dict_get (reverse_dictionary v) symbol)
                (filter (λ symbol, symbol ≠ start_key v) symbols_in_keys) with
    | Some ws => Ok (join_space ws)
    | None => Raise KeyError
    end.
Proof. apply convert_indices_to_sentence_mapM. Qed.

Lemma rendered_words `{word_embeddings} content v symbols ws :
  run_vocabulary content = Some v →
  rendered_as v symbols ws →
  Forall2 (λ w x, dict_get (dictionary v) w = Some x ∧
                  w ∈ corpus_words content ∧ has_space w = false)
          ws (filter (λ x, x ≠ start_key v) symbols).
Proof.
  intros Hv Hws. unfold rendered_as in Hws.
  apply Forall2_flip. eapply Forall2_impl; [exact Hws|].
  intros x w Hw. simpl in Hw.
  destruct (reverse_dictionary_token _ _ _ _ Hv Hw) as [Hget Htok].
  split; [done|]. split; [done|].
  by apply (split_space_no_space _ _ Htok).
Qed.

(** X10 (convert_indices_to_sentence, lines 199-213, with the vocabulary
    of lines 97-100): for a list with an index other than the start key,
    cutting the rendered sentence at its spaces and looking the words up
    in [dictionary] gives back the indices that are not the start key.
    (For a list of start keys only, the sentence is empty and splits into
    one empty word.) *)
Theorem sentence_round_trip `{word_embeddings} (content : string)
    (v : vocabulary) (symbols_in_keys : list nat) (sentence : string) :
  run_vocabulary content = Some v →
  convert_indices_to_sentence v symbols_in_keys = Ok sentence →
  (∃ symbol, symbol ∈ symbols_in_keys ∧ symbol ≠ start_key v) →
  mapM (λ w, dict_get (dictionary v) w) (split_space sentence)
  = Some (filter (λ symbol, symbol ≠ start_key v) symbols_in_keys).
Proof.
  intros Hv Hsent (x & Hx & Hxs).
  destruct (convert_indices_to_sentence_Ok _ _ _ Hsent) as (ws & Hws & ->).
  pose proof (rendered_words _ _ _ _ Hv Hws) as Hall.
  rewrite split_space_join.
  - apply mapM_Some. eapply Forall2_impl; [exact Hall|]. by intros w y [? _].
  - intros ->. apply Forall2_nil_inv_l in Hall.
    assert (x ∈ filter (λ x, x ≠ start_key v) symbols_in_keys) as Hin
      by by apply list_elem_of_filter.
    rewrite Hall in Hin. by apply elem_of_nil in Hin.
  - eapply Forall2_Forall_l; [exact Hall|].
    apply Forall_forall. by intros y _ w (_ & _ & ?).
Qed.

Lemma sentence_round_trip_witness :
  @run_vocabulary example_markers hello_corpus = Some hello_vocabulary ∧
  convert_indices_to_sentence hello_vocabulary [0; 0; 1; 3] = Ok "hello world" ∧
  mapM (λ w, dict_get (dictionary hello_vocabulary) w)
       (split_space "hello world") = Some [1; 3].
Proof.
  split; [reflexivity|]. split; [reflexivity|].
  apply (@sentence_round_trip example_markers hello_corpus hello_vocabulary
           [0; 0; 1; 3] "hello world" eq_refl eq_refl).
  exists 1. split; [|by simpl]. apply elem_of_cons; right.
  apply elem_of_cons; right. apply elem_of_cons; by left.
Defined.

(** In classification mode, with a session whose outputs have one entry
    per vocabulary index, the decoding loop returns indices of the
    vocabulary. *)
Lemma decode_classification_range (v : vocabulary) (pred : list nat → vector)
    (size n i : nat) (symbols : list nat) :
  0 < size →
  (∀ keys, length keys = N_INPUT → length (pred keys) = size) →
  length symbols = i + N_INPUT →
  Forall (λ x, x < size) symbols →
  ∃ out, decode v None pred n i symbols = Ok out ∧ Forall (λ x, x < size) out.
Proof.
  intros Hsize Hpred. revert i symbols.
  induction n as [|n IH]; intros i symbols Hlen Hall; simpl; [eauto|].
  assert (Hkeys : length (drop i symbols) = N_INPUT)
    by (rewrite length_drop; lia).
  rewrite decide_True by done.
  destruct (argmax (pred (drop i symbols))) as [p| |] eqn:Hp; simpl.
  - destruct (decide (p = end_key v)); [eauto|].
    apply IH; [rewrite length_app; simpl; lia|].
    apply Forall_app. split; [done|]. apply Forall_singleton.
    apply argmax_spec in Hp as (x & Hx & _).
    apply lookup_lt_Some in Hx. by rewrite Hpred in Hx.
  - specialize (Hpred _ Hkeys). unfold argmax in Hp.
    destruct (pred (drop i symbols)); [simpl in Hpred; lia | done].
  - unfold argmax in Hp. by destruct (pred (drop i symbols)).
Qed.

(** X11 (generate_sentence, lines 170-197, classification mode): on the
    vocabulary of a corpus, with a session whose output has one entry per
    vocabulary index and draws taken from [0 .. vocab_size - 1] of which
    one is neither the start nor the end key, generation returns: no
    lookup fails.  Every generated index is below [vocab_size], and the
    sentence is made of tokens of the corpus, none of them the start
    token. *)
Theorem classification_generation_returns `{word_embeddings}
    (content : string) (v : vocabulary) (pred : list nat → vector)
    (draws : list nat) :
  run_vocabulary content = Some v →
  (∀ keys, length keys = N_INPUT → length (pred keys) = vocab_size v) →
  Forall (λ r, r < vocab_size v) draws →
  (∃ r, r ∈ draws ∧ r ≠ start_key v ∧ r ≠ end_key v) →
  ∃ out sentence,
    generate_symbols v None pred draws = Ok out ∧
    Forall (λ x, x < vocab_size v) out ∧
    generate_sentence v None pred draws = Ok sentence ∧
    Forall (λ w, w ∈ corpus_words content ∧ w ≠ START_TOKEN)
           (split_space sentence).
Proof.
  intros Hv Hpred Hdraws Hfair.
  destruct (run_vocabulary_Some _ _ Hv)
    as (_ & Hd & Hr & _ & Hsk & Hsize & _).
  assert (Hstart : start_key v < vocab_size v).
  { rewrite Hsize, Hd. apply build_dataset_range. exists START_TOKEN.
    by rewrite <- Hd. }
  destruct (seed_window_fair v draws Hfair) as (seed & rest & Hseed).
  destruct (seed_window_Ok _ _ _ _ Hseed) as (r & -> & Hr_in & Hrs & Hre).
  destruct (decode_classification_range v pred (vocab_size v)
              (sentence_length v) 0
              (replicate (N_INPUT - 1) (start_key v) ++ [r]))
    as (out & Hout & Hall); [lia | done | done | |].
  { apply Forall_app. split.
    - apply Forall_replicate. exact Hstart.
    - apply Forall_singleton. rewrite Forall_forall in Hdraws. auto. }
  assert (Hgen : generate_symbols v None pred draws = Ok out).
  { unfold generate_symbols. by rewrite Hseed. }
  assert (Hr_out : r ∈ out).
  { destruct (decode_Ok _ _ _ _ _ _ _ Hout) as (app & -> & _).
    rewrite !elem_of_app, list_elem_of_singleton. tauto. }
  destruct (mapM (λ x, dict_get (reverse_dictionary v) x)
              (filter (λ x, x ≠ start_key v) out)) as [ws|] eqn:Hws.
  2:{ apply mapM_None in Hws. apply Exists_exists in Hws as (x & Hx & Hnone).
      apply list_elem_of_filter in Hx as [_ Hx].
      rewrite Forall_forall in Hall. specialize (Hall _ Hx).
      rewrite Hr, build_dataset_reverse_get in Hnone.
      rewrite Hsize, Hd, build_dataset_length in Hall.
      apply lookup_lt_is_Some_2 in Hall. rewrite Hnone in Hall.
      by destruct Hall. }
  exists out, (join_space ws). split; [done|]. split; [done|].
  assert (Hsent : convert_indices_to_sentence v out = Ok (join_space ws))
    by by rewrite convert_indices_to_sentence_mapM, Hws.
  split; [unfold generate_sentence; by rewrite Hgen|].
  apply mapM_Some in Hws.
  pose proof (rendered_words _ _ _ _ Hv Hws) as Hwords.
  rewrite split_space_join.
  - eapply Forall2_Forall_l; [exact Hwords|].
    apply Forall_forall. intros x Hx w (Hget & Htok & _).
    split; [done|]. intros ->.
    apply list_elem_of_filter in Hx as [Hx _]. congruence.
  - intros ->. apply Forall2_nil_inv_l in Hwords.
    assert (r ∈ filter (λ x, x ≠ start_key v) out) as Hin
      by by apply list_elem_of_filter.
    rewrite Hwords in Hin. by apply elem_of_nil in Hin.
  - eapply Forall2_Forall_l; [exact Hwords|].
    apply Forall_forall. by intros y _ w (_ & _ & ?).
Qed.

Lemma classification_generation_returns_witness :
  @run_vocabulary example_markers hello_corpus = Some hello_vocabulary ∧
  ∃ out sentence,
    generate_symbols hello_vocabulary None hello_pred [0; 2; 1] = Ok out ∧
    Forall (λ x, x < 6) out ∧
    generate_sentence hello_vocabulary None hello_pred [0; 2; 1] = Ok sentence ∧
    Forall (λ w, w ∈ @corpus_words example_markers hello_corpus ∧ w ≠ "<START>")
           (split_space sentence).
Proof.
  split; [reflexivity|].
  apply (@classification_generation_returns example_markers hello_corpus
           hello_vocabulary hello_pred [0; 2; 1] eq_refl).
  - intros keys _. unfold hello_pred.
    by destruct (last keys) as [[|[|[|[|]]]]|].
  - repeat (apply Forall_cons; split; [simpl; lia|]). constructor.
  - exists 1. split; [|by simpl].
    apply elem_of_cons; right. apply elem_of_cons; right.
    apply elem_of_cons; by left.
Defined.

(** X12 (generate_sentence, lines 186-188, with the tables of lines
    121-131): in embedding mode, with a table that has a row and whose
    rows are as wide as the prediction, the position [np.argmin] returns
    is a column: it is below the width of the vectors.  When it is also
    below the number of rows, the predicted index is the index of a word
    of the table that is in the vocabulary, the one of that row; when it
    is not, the lookup in [embedding_order] raises [KeyError]. *)
Theorem embedding_prediction_outcome `{word_embeddings}
    (dictionary : list (string * nat)) (embeddings_dict : list (string * vector))
    (e : embeddings) (pred_output : vector) :
  load_embeddings dictionary embeddings_dict = Some e →
  embeddings_list e ≠ [] →
  Forall (λ row, length row = length pred_output) (embeddings_list e) →
  pred_output ≠ [] →
  ∃ j, argmin (norm_axis0 (length pred_output)
                 (sub_rows (embeddings_list e) pred_output)) = Ok j ∧
       j < length pred_output ∧
       if decide (j < length (embeddings_list e)) then
         ∃ w vec i,
           predict_index (Some e) pred_output = Ok i ∧
           embeddings_list e !! j = Some vec ∧
           (w, vec) ∈ embeddings_dict ∧ dict_get dictionary w = Some i
       else predict_index (Some e) pred_output = Raise KeyError.
Proof.
  intros Hload Hrows Hwide Hp.
  destruct (load_embeddings_rows _ _ _ Hload) as [Hel Heo].
  destruct (argmin (norm_axis0 (length pred_output)
                      (sub_rows (embeddings_list e) pred_output)))
    as [j| |] eqn:Hj.
  2,3: unfold argmin, norm_axis0 in Hj; destruct pred_output; [done|];
       by simpl in Hj.
  exists j. split; [done|].
  assert (Hlt : j < length pred_output).
  { apply argmin_spec in Hj as (x & Hx & _). apply lookup_lt_Some in Hx.
    unfold norm_axis0 in Hx. by rewrite length_map, length_seq in Hx. }
  split; [done|].
  assert (Hpredict : predict_index (Some e) pred_output
                     = lookup_or KeyError (dict_get (embedding_order e) j)).
  { unfold predict_index. rewrite bool_decide_eq_true_2 by done.
    by rewrite Hj. }
  destruct (decide (j < length (embeddings_list e))) as [Hrow|Hrow].
  - apply lookup_lt_is_Some_2 in Hrow as [vec Hvec].
    pose proof Hvec as Hrow. rewrite Hel, list_lookup_fmap in Hrow.
    destruct (table_rows dictionary embeddings_dict !! j)
      as [[[w vec'] i]|] eqn:Hj'; [|done].
    simpl in Hrow. injection Hrow as ->.
    exists w, vec, i. rewrite Hpredict, Heo, list_lookup_fmap, Hj'.
    split; [done|]. split; [done|].
    apply table_rows_elem_of. by eapply list_elem_of_lookup_2.
  - rewrite Hpredict, Heo, list_lookup_fmap, lookup_ge_None_2; [done|].
    rewrite Hel, length_fmap in Hrow. lia.
Qed.

Lemma embedding_prediction_outcome_witness :
  @load_embeddings example_markers (dictionary ab_vocabulary) ab_table
  = Some ab_embeddings ∧
  ∃ j, argmin (norm_axis0 2 (sub_rows (embeddings_list ab_embeddings)
                               [0; 0]%Q)) = Ok j ∧
       j < 2 ∧
       if decide (j < 2) then
         ∃ w vec i,
           predict_index (Some ab_embeddings) [0; 0]%Q = Ok i ∧
           embeddings_list ab_embeddings !! j = Some vec ∧
           (w, vec) ∈ ab_table ∧
           dict_get (dictionary ab_vocabulary) w = Some i
       else predict_index (Some ab_embeddings) [0; 0]%Q = Raise KeyError.
Proof.
  split; [reflexivity|].
  apply (@embedding_prediction_outcome example_markers
           (dictionary ab_vocabulary) ab_table ab_embeddings [0; 0]%Q eq_refl).
  - done.
  - repeat (apply Forall_cons; split; [reflexivity|]). constructor.
  - done.
Defined.

(** ** The training run *)

Section TrainingTrace.
Context `{file_access} (model_file : string).
Context {net : Type} (train_op : net → list nat → vector → net * Q).
Context (v : vocabulary) (emb : option embeddings).
Context (float32 : Q → min_loss_value).
Context (pred : net → list nat → vector) (draws : nat → nat → list nat).

(** The two ways a turn of the loop that returns can have gone, and the
    three ways of a boundary. *)
Lemma train_step_cases epoch offset (st st' : @train_state net) evs :
  train_step model_file train_op v emb float32 pred draws epoch offset st
  = Ok (st', evs) →
  (batch_counter st + 1 < BATCH_SIZE ∧ batch_counter st' = batch_counter st + 1 ∧
   evs = [] ∧ min_loss st' = min_loss st) ∨
  (BATCH_SIZE ≤ batch_counter st + 1 ∧ batch_counter st' = 0 ∧
   ∃ current_loss,
     (evs = [Print_current_loss epoch offset current_loss;
             Save (save_model_path model_file); Print_saved current_loss;
             Generate_sentence] ∧
      min_loss st' = float32 current_loss ∧
      improves current_loss (min_loss st)) ∨
     (evs = [Print_current_loss epoch offset current_loss;
             Save final_model_path; Generate_sentence] ∧
      offset `mod` GENERATE_INCREMENT = GENERATE_INCREMENT - 1 ∧
      min_loss st' = min_loss st) ∨
     (evs = [Print_current_loss epoch offset current_loss] ∧
      min_loss st' = min_loss st)).
Proof.
  intros Hstep.
  destruct (train_step_Ok _ _ _ _ _ _ _ _ _ _ _ _ Hstep)
    as (keys & symbols_out & sess' & loss & _ & Heq).
  cbv zeta in Heq.
  destruct (decide (BATCH_SIZE ≤ batch_counter st + 1)) as [Hfull|Hfull].
  - right. split; [done|].
    destruct (batch_boundary_Ok _ _ _ _ _ _ _ _ _ _ _ Heq)
      as (_ & Hcount & Hcases).
    split; [done|]. cbv zeta in Hcases. cbn [total_loss min_loss] in Hcases.
    eexists.
    destruct Hcases as [(Himp & Hmin & ->)|(_ & Hmin & [[Hoff ->]| ->])].
    + left. done.
    + right. left. done.
    + right. right. done.
  - left. injection Heq as -> ->. split; [lia | done].
Qed.

(** A loop over [seq a n]: a relation between the states and events of
    spans of turns that holds of every turn, of no turn, and of two spans
    put together, holds of the loop. *)
Lemma for_each_seq_rel
    (T : nat → nat → @train_state net → @train_state net → list event → Prop)
    (body : nat → train_state → result (@train_state net * list event))
    (a n : nat) st st' evs :
  (∀ i s, T i i s s []) →
  (∀ i j k s1 s2 s3 e1 e2, i ≤ j → j ≤ k →
     T i j s1 s2 e1 → T j k s2 s3 e2 → T i k s1 s3 (e1 ++ e2)) →
  (∀ i s s' e, a ≤ i < a + n → body i s = Ok (s', e) → T i (S i) s s' e) →
  for_each body (seq a n) st = Ok (st', evs) →
  T a (a + n) st st' evs.
Proof.
  intros Hnil Happ. revert a st st' evs.
  induction n as [|n IH]; intros a st st' evs Hbody; simpl.
  - intros [= <- <-]. rewrite Nat.add_0_r. apply Hnil.
  - destruct (body a st) as [[s1 e1]| |] eqn:Hb; simpl; [|done..].
    destruct (for_each body (seq (S a) n) s1) as [[s2 e2]| |] eqn:Hf; simpl;
      [|done..].
    intros [= <- <-].
    apply (Happ a (S a) (a + S n) st s1 s2 e1 e2); [lia | lia | |].
    + apply Hbody; [lia | done].
    + replace (a + S n) with (S a + n) by lia.
      apply IH; [|done]. intros i s s' e Hi. apply Hbody. lia.
Qed.

Lemma reports_app evs evs' : reports (evs ++ evs') = reports evs + reports evs'.
Proof. unfold reports. by rewrite List.filter_app, length_app. Qed.

(** The counter and the number of reports along the turns of a run. *)
Lemma train_count sess0 min_loss0 st' evs :
  train model_file train_op v emb float32 pred draws sess0 min_loss0
  = Ok (st', evs) →
  batch_counter st' < BATCH_SIZE ∧
  batch_counter st' + BATCH_SIZE * reports evs = EPOCHS * num_examples v.
Proof.
  unfold train. intros Htrain.
  set (T := λ (k i j : nat) (s s' : @train_state net) (e : list event),
              batch_counter s < BATCH_SIZE →
              batch_counter s' < BATCH_SIZE ∧
              batch_counter s' + BATCH_SIZE * reports e
              = batch_counter s + k * (j - i)).
  assert (Hnil : ∀ k i s, T k i i s s []).
  { intros k i s Hs. split; [done|]. unfold reports. simpl. lia. }
  assert (Happ : ∀ n i j k s1 s2 s3 e1 e2, i ≤ j → j ≤ k →
            T n i j s1 s2 e1 → T n j k s2 s3 e2 → T n i k s1 s3 (e1 ++ e2)).
  { intros n i j k s1 s2 s3 e1 e2 Hij Hjk H12 H23 Hs.
    destruct (H12 Hs) as [Hs2 H12']. destruct (H23 Hs2) as [Hs3 H23'].
    split; [done|]. rewrite reports_app. nia. }
  assert (Hstep : ∀ epoch offset s s' e,
            train_step model_file train_op v emb float32 pred draws
              epoch offset s = Ok (s', e) →
            T 1 offset (S offset) s s' e).
  { intros epoch offset s s' e Hstep Hs.
    destruct (train_step_cases _ _ _ _ _ Hstep)
      as [(Hlt & -> & -> & _)|(Hfull & -> & l & Hcases)].
    - split; [done|]. unfold reports. simpl. lia.
    - split; [unfold BATCH_SIZE; lia|].
      assert (reports e = 1) as ->
        by (destruct Hcases as [(-> & _)|[(-> & _)|(-> & _)]]; done).
      lia. }
  assert (Hepoch : ∀ epoch s s' e,
            train_epoch model_file train_op v emb float32 pred draws epoch s
            = Ok (s', e) →
            T (num_examples v) epoch (S epoch) s s' e).
  { intros epoch s s' e Hrun Hs. unfold train_epoch in Hrun.
    apply (for_each_seq_rel (T 1)) in Hrun;
      [|apply Hnil|apply Happ|intros; by eapply Hstep].
    destruct (Hrun Hs) as [? ?]. split; [done|]. lia. }
  apply (for_each_seq_rel (T (num_examples v))) in Htrain;
    [|apply Hnil|apply Happ|intros; by apply Hepoch].
  destruct Htrain as [? Hsum]; [cbn [batch_counter]; unfold BATCH_SIZE; lia|].
  split; [done|]. cbn [batch_counter] in Hsum. unfold EPOCHS in *. lia.
Qed.

(** The trace of a run: boundary blocks, one after the other. *)
Lemma train_trace sess0 min_loss0 st' evs :
  train model_file train_op v emb float32 pred draws sess0 min_loss0
  = Ok (st', evs) →
  ∃ blocks, evs = concat blocks ∧ Forall (boundary_block model_file v) blocks.
Proof.
  unfold train. intros Htrain.
  set (N := num_examples v).
  set (T := λ (k base i j : nat) (s s' : @train_state net) (e : list event),
              batch_counter s = (base + i * k) `mod` BATCH_SIZE →
              batch_counter s' = (base + j * k) `mod` BATCH_SIZE ∧
              ∃ blocks, e = concat blocks ∧
                        Forall (boundary_block model_file v) blocks).
  assert (Hnil : ∀ k base i s, T k base i i s s []).
  { intros k base i s Hs. split; [done|]. by exists []. }
  assert (Happ : ∀ n base i j k s1 s2 s3 e1 e2, i ≤ j → j ≤ k →
            T n base i j s1 s2 e1 → T n base j k s2 s3 e2 →
            T n base i k s1 s3 (e1 ++ e2)).
  { intros n base i j k s1 s2 s3 e1 e2 _ _ H12 H23 Hs.
    destruct (H12 Hs) as (Hs2 & b1 & -> & Hb1).
    destruct (H23 Hs2) as (Hs3 & b2 & -> & Hb2).
    split; [done|]. exists (b1 ++ b2).
    split; [by rewrite concat_app | by apply Forall_app]. }
  assert (HB : 0 < BATCH_SIZE) by (unfold BATCH_SIZE; lia).
  assert (Hstep : ∀ epoch offset s s' e,
            epoch < EPOCHS → offset < N →
            train_step model_file train_op v emb float32 pred draws
              epoch offset s = Ok (s', e) →
            T 1 (epoch * N) offset (S offset) s s' e).
  { intros epoch offset s s' e Hepoch Hoffset Hstep Hs.
    rewrite Nat.mul_1_r in Hs.
    pose proof (Nat.mod_upper_bound (epoch * N + offset) BATCH_SIZE
                  ltac:(lia)) as Hbound.
    replace (epoch * N + S offset * 1) with (S (epoch * N + offset)) by lia.
    destruct (train_step_cases _ _ _ _ _ Hstep)
      as [(Hlt & -> & -> & _)|(Hfull & -> & l & Hcases)].
    - split; [|by exists []].
      rewrite mod_succ by (rewrite <- ?Hs; lia). lia.
    - assert (Hwrap : S (epoch * N + offset) `mod` BATCH_SIZE = 0)
        by (apply mod_succ_wrap; lia).
      split; [done|]. exists [e]. split; [simpl; by rewrite app_nil_r|].
      apply Forall_singleton.
      destruct Hcases as [(-> & _)|[(-> & Hoff & _)|(-> & _)]];
        eexists epoch, offset, l, _;
        (split; [reflexivity|]); (split; [done|]); (split; [done|]);
        (split; [by replace (epoch * num_examples v + offset + 1)
                   with (S (epoch * N + offset)) by (unfold N; lia)|]).
      + by left.
      + right. by left.
      + right. by right. }
  assert (Hepoch : ∀ epoch s s' e,
            epoch < EPOCHS →
            train_epoch model_file train_op v emb float32 pred draws epoch s
            = Ok (s', e) →
            T N 0 epoch (S epoch) s s' e).
  { intros epoch s s' e Hlt Hrun Hs. unfold train_epoch in Hrun. fold N in Hrun.
    apply (for_each_seq_rel (T 1 (epoch * N))) in Hrun;
      [|apply Hnil|apply Happ|intros i ? ? ? [_ Hi]; by apply Hstep].
    destruct Hrun as [Hs' Hblocks]; [rewrite Hs; f_equal; lia|].
    split; [|done]. rewrite Hs'. f_equal. lia. }
  apply (for_each_seq_rel (T N 0)) in Htrain;
    [|apply Hnil|apply Happ|intros i ? ? ? [_ Hi]; by apply Hepoch].
  by destruct Htrain as [_ Hblocks].
Qed.

Lemma saved_losses_app evs evs' :
  saved_losses (evs ++ evs') = saved_losses evs ++ saved_losses evs'.
Proof. apply omap_app. Qed.

Lemma improving_from_app m losses losses' :
  improving_from float32 m (losses ++ losses')
  ↔ improving_from float32 m losses ∧
    improving_from float32 (fold_left (λ _ l, float32 l) losses m) losses'.
Proof.
  revert m. induction losses as [|l losses IH]; intros m; simpl; [tauto|].
  rewrite IH. tauto.
Qed.

Lemma fold_left_last {A B} (f : A → B) (xs : list A) (b : B) :
  fold_left (λ _ x, f x) xs b = from_option f b (last xs).
Proof.
  revert b. induction xs as [|x xs IH]; intros b; [done|].
  simpl. rewrite IH, last_cons. by destruct (last xs).
Qed.

(** The recorded minimum against the reported checkpoints. *)
Lemma train_minimum sess0 min_loss0 st' evs :
  train model_file train_op v emb float32 pred draws sess0 min_loss0
  = Ok (st', evs) →
  min_loss st' = fold_left (λ _ l, float32 l) (saved_losses evs) min_loss0 ∧
  improving_from float32 min_loss0 (saved_losses evs).
Proof.
  unfold train. intros Htrain.
  set (T := λ (_ _ : nat) (s s' : @train_state net) (e : list event),
              min_loss s'
              = fold_left (λ _ l, float32 l) (saved_losses e) (min_loss s) ∧
              improving_from float32 (min_loss s) (saved_losses e)).
  assert (Hnil : ∀ i s, T i i s s []) by done.
  assert (Happ : ∀ i j k s1 s2 s3 e1 e2, i ≤ j → j ≤ k →
            T i j s1 s2 e1 → T j k s2 s3 e2 → T i k s1 s3 (e1 ++ e2)).
  { intros i j k s1 s2 s3 e1 e2 _ _ [Hm1 Hi1] [Hm2 Hi2]. unfold T.
    rewrite saved_losses_app, fold_left_app, improving_from_app.
    rewrite <- Hm1. done. }
  apply (for_each_seq_rel T) in Htrain; [done|done|done|].
  intros epoch s s' e _ Hepoch. unfold train_epoch in Hepoch.
  apply (for_each_seq_rel T) in Hepoch; [done|done|done|].
  intros offset s0 s0' e0 _ Hstep.
  destruct (train_step_cases _ _ _ _ _ Hstep)
    as [(_ & _ & -> & Hmin)|(_ & _ & l & Hcases)]; [done|].
  destruct Hcases as [(-> & Hmin & Himp)|[(-> & _ & Hmin)|(-> & Hmin)]];
    done.
Qed.

Lemma min_loss_le_trans a b c :
  min_loss_le a b → min_loss_le b c → min_loss_le a c.
Proof.
  intros [->|Hab] [->|Hbc]; [by left | by right | by right|].
  right. by eapply min_loss_lt_trans.
Qed.

(** With a rounding that sends a mean below a stored number to no more
    than that number, as rounding to the nearest float32 does, the
    minimum never rises over a run. *)
Lemma train_never_rises sess0 min_loss0 st' evs :
  (∀ l, stored float32 (float32 l)) →
  (∀ l m, stored float32 m → improves l m → min_loss_le (float32 l) m) →
  stored float32 min_loss0 →
  train model_file train_op v emb float32 pred draws sess0 min_loss0
  = Ok (st', evs) →
  min_loss_le (min_loss st') min_loss0.
Proof.
  intros Hstored Hbelow Hstart. unfold train. intros Htrain.
  set (T := λ (_ _ : nat) (s s' : @train_state net) (e : list event),
              stored float32 (min_loss s) →
              stored float32 (min_loss s') ∧
              min_loss_le (min_loss s') (min_loss s)).
  assert (Hnil : ∀ i s, T i i s s []).
  { intros i s Hs. split; [done | by left]. }
  assert (Happ : ∀ i j k s1 s2 s3 e1 e2, i ≤ j → j ≤ k →
            T i j s1 s2 e1 → T j k s2 s3 e2 → T i k s1 s3 (e1 ++ e2)).
  { intros i j k s1 s2 s3 e1 e2 _ _ H12 H23 Hs.
    destruct (H12 Hs) as [Hs2 Hle1]. destruct (H23 Hs2) as [Hs3 Hle2].
    split; [done|]. by eapply min_loss_le_trans. }
  apply (for_each_seq_rel T) in Htrain; [|done|done|].
  - by apply Htrain.
  - intros epoch s s' e _ Hepoch. unfold train_epoch in Hepoch.
    apply (for_each_seq_rel T) in Hepoch; [done|done|done|].
    intros offset s0 s0' e0 _ Hstep Hs0.
    destruct (train_step_cases _ _ _ _ _ Hstep)
      as [(_ & _ & _ & Hmin)|(_ & _ & l & Hcases)].
    + rewrite Hmin. split; [done | by left].
    + destruct Hcases as [(_ & Hmin & Himp)|[(_ & _ & Hmin)|(_ & Hmin)]];
        rewrite Hmin; (split; [done || apply Hstored | (by left) || by apply Hbelow]).
Qed.
End TrainingTrace.

Lemma hello_training_run :
  @train example_files "test_model" unit unit_loss_op hello_vocabulary None
     binary32 hello_session hello_draws tt Inf
  = Ok (hello_trained, hello_trace).
Proof. reflexivity. Qed.

Lemma example_paths_differ :
  @save_model_path example_files "test_model" ≠ @final_model_path example_files.
Proof. done. Qed.

(** X13 (run, lines 218-251): the batch counter runs on from one epoch to
    the next.  At the end of training it holds what is left of the
    [EPOCHS * num_examples] examples after the full batches, and the mean
    loss has been reported once per full batch. *)
Theorem report_cadence `{file_access} (model_file : string) {net : Type}
    (train_op : net → list nat → vector → net * Q)
    (v : vocabulary) (emb : option embeddings)
    (float32 : Q → min_loss_value)
    (pred : net → list nat → vector) (draws : nat → nat → list nat)
    (sess0 : net) (min_loss0 : min_loss_value)
    (st' : @train_state net) (evs : list event) :
  train model_file train_op v emb float32 pred draws sess0 min_loss0
  = Ok (st', evs) →
  batch_counter st' = (EPOCHS * num_examples v) `mod` BATCH_SIZE ∧
  reports evs = (EPOCHS * num_examples v) `div` BATCH_SIZE.
Proof.
  intros Htrain.
  destruct (train_count _ _ _ _ _ _ _ _ _ _ _ Htrain) as [Hlt Hsum].
  split.
  - apply (Nat.mod_unique _ _ (reports evs)); [done | lia].
  - apply (Nat.div_unique _ _ _ (batch_counter st')); [done | lia].
Qed.

Lemma report_cadence_witness :
  @train example_files "test_model" unit unit_loss_op hello_vocabulary None
     binary32 hello_session hello_draws tt Inf
  = Ok (hello_trained, hello_trace) ∧
  batch_counter hello_trained = (EPOCHS * 10) `mod` BATCH_SIZE ∧
  reports hello_trace = (EPOCHS * 10) `div` BATCH_SIZE.
Proof.
  split; [exact hello_training_run|].
  exact (@report_cadence example_files "test_model" unit unit_loss_op
           hello_vocabulary None binary32 hello_session hello_draws tt Inf
           hello_trained hello_trace hello_training_run).
Defined.

(** X14 (run, lines 218-251): what a training run prints and writes is a
    sequence of batch boundaries.  Each starts with the report of the mean
    loss, made in a turn [(epoch, offset)] of the loops at which the number
    of examples seen, [epoch * num_examples + offset + 1], is a multiple of
    [BATCH_SIZE]; then comes either a checkpoint on the model path, the
    report of that same loss and a generated sentence, or, only at an
    offset one short of a multiple of [GENERATE_INCREMENT], a checkpoint on
    the final path and a generated sentence, or nothing. *)
Theorem training_trace `{file_access} (model_file : string) {net : Type}
    (train_op : net → list nat → vector → net * Q)
    (v : vocabulary) (emb : option embeddings)
    (float32 : Q → min_loss_value)
    (pred : net → list nat → vector) (draws : nat → nat → list nat)
    (sess0 : net) (min_loss0 : min_loss_value)
    (st' : @train_state net) (evs : list event) :
  train model_file train_op v emb float32 pred draws sess0 min_loss0
  = Ok (st', evs) →
  ∃ blocks, evs = concat blocks ∧ Forall (boundary_block model_file v) blocks.
Proof. apply train_trace. Qed.

Lemma training_trace_witness :
  @train example_files "test_model" unit unit_loss_op hello_vocabulary None
     binary32 hello_session hello_draws tt Inf
  = Ok (hello_trained, hello_trace) ∧
  ∃ blocks, hello_trace = concat blocks ∧
            Forall (@boundary_block example_files "test_model" hello_vocabulary)
                   blocks.
Proof.
  split; [exact hello_training_run|].
  exact (@training_trace example_files "test_model" unit unit_loss_op
           hello_vocabulary None binary32 hello_session hello_draws tt Inf
           hello_trained hello_trace hello_training_run).
Defined.

(** X15 (run, lines 246-248): when the model path is not the final path
    and the corpus gives fewer than [GENERATE_INCREMENT] examples, training
    never writes the final checkpoint: no offset is one short of a multiple
    of [GENERATE_INCREMENT]. *)
Theorem final_checkpoint_needs_long_corpus `{file_access} (model_file : string)
    {net : Type} (train_op : net → list nat → vector → net * Q)
    (v : vocabulary) (emb : option embeddings)
    (float32 : Q → min_loss_value)
    (pred : net → list nat → vector) (draws : nat → nat → list nat)
    (sess0 : net) (min_loss0 : min_loss_value)
    (st' : @train_state net) (evs : list event) :
  save_model_path model_file ≠ final_model_path →
  num_examples v < GENERATE_INCREMENT →
  train model_file train_op v emb float32 pred draws sess0 min_loss0
  = Ok (st', evs) →
  Forall (λ ev, ev ≠ Save final_model_path) evs.
Proof.
  intros Hpaths Hshort Htrain.
  destruct (train_trace _ _ _ _ _ _ _ _ _ _ _ Htrain)
    as (blocks & -> & Hblocks).
  apply Forall_concat. eapply Forall_impl; [exact Hblocks|].
  intros block (epoch & offset & l & tail & -> & _ & Hoffset & _ & Htail).
  apply Forall_cons. split; [done|].
  destruct Htail as [->|[[-> Hmod]| ->]].
  - apply Forall_cons. split; [by intros [= ?]|].
    apply Forall_cons. split; [done|]. by apply Forall_singleton.
  - rewrite Nat.mod_small in Hmod by lia. lia.
  - constructor.
Qed.

Lemma final_checkpoint_needs_long_corpus_witness :
  @save_model_path example_files "test_model" ≠ @final_model_path example_files ∧
  num_examples hello_vocabulary < GENERATE_INCREMENT ∧
  Forall (λ ev, ev ≠ Save (@final_model_path example_files)) hello_trace.
Proof.
  assert (Hshort : num_examples hello_vocabulary < GENERATE_INCREMENT).
  { change GENERATE_INCREMENT with (10 * 1000). simpl. lia. }
  split; [exact example_paths_differ|]. split; [exact Hshort|].
  exact (@final_checkpoint_needs_long_corpus example_files "test_model" unit
           unit_loss_op hello_vocabulary None binary32 hello_session
           hello_draws tt Inf hello_trained hello_trace
           example_paths_differ Hshort hello_training_run).
Defined.

(** X16 (run, lines 153 and 240-244): at the end of training [min_loss]
    holds the float32 stored for the last loss reported with a saved model,
    and the value the run started with when no model was saved; and every
    loss so reported was strictly below what the variable held when it was
    reported: the starting value for the first, the float32 stored for the
    one before for the others. *)
Theorem final_minimum `{file_access} (model_file : string) {net : Type}
    (train_op : net → list nat → vector → net * Q)
    (v : vocabulary) (emb : option embeddings)
    (float32 : Q → min_loss_value)
    (pred : net → list nat → vector) (draws : nat → nat → list nat)
    (sess0 : net) (min_loss0 : min_loss_value)
    (st' : @train_state net) (evs : list event) :
  train model_file train_op v emb float32 pred draws sess0 min_loss0
  = Ok (st', evs) →
  min_loss st' = from_option float32 min_loss0 (last (saved_losses evs)) ∧
  improving_from float32 min_loss0 (saved_losses evs).
Proof.
  intros Htrain.
  destruct (train_minimum _ _ _ _ _ _ _ _ _ _ _ Htrain) as [Hmin Himp].
  split; [|done]. by rewrite Hmin, fold_left_last.
Qed.

Lemma final_minimum_witness :
  @train example_files "test_model" nat counting_loss_op ha_vocabulary None
     binary32 end_session ha_draws 0 Inf
  = Ok ({| sess := 2000; batch_counter := 0; total_loss := 0%Q;
           min_loss := Finite (8396997 # 8388608) |},
        [Print_current_loss 49 19 (1001 # 1000);
         Save "saved_models/test_model"; Print_saved (1001 # 1000);
         Generate_sentence;
         Print_current_loss 99 19 (1001 # 1000);
         Save "saved_models/test_model"; Print_saved (1001 # 1000);
         Generate_sentence]) ∧
  Finite (8396997 # 8388608)
  = from_option binary32 Inf (last [(1001 # 1000)%Q; (1001 # 1000)%Q]) ∧
  improving_from binary32 Inf [(1001 # 1000)%Q; (1001 # 1000)%Q].
Proof.
  split; [exact (proj2 equal_means_run)|].
  exact (@final_minimum example_files "test_model" nat counting_loss_op
           ha_vocabulary None binary32 end_session ha_draws 0 Inf _ _
           (proj2 equal_means_run)).
Defined.

Section TrainingExamples.
Context `{word_embeddings}.

Lemma run_vocabulary_num_examples content v :
  run_vocabulary content = Some v →
  num_examples v = length (words v) - N_INPUT.
Proof.
  unfold run_vocabulary.
  destruct (dict_get _ END_TOKEN) as [e|]; simpl; [|done].
  destruct (dict_get _ START_TOKEN) as [s|]; simpl; [|done].
  by intros [= <-].
Qed.

(** Every word of the token list has a key, below [vocab_size]. *)
Lemma word_key_run content v i :
  run_vocabulary content = Some v →
  i < length (words v) →
  ∃ w k, words v !! i = Some w ∧ dict_get (dictionary v) w = Some k ∧
         k < vocab_size v ∧ word_key v i = Ok k.
Proof.
  intros Hv Hi.
  destruct (run_vocabulary_Some _ _ Hv) as (Hw & Hd & _ & _ & _ & Hsize & _).
  apply lookup_lt_is_Some_2 in Hi as [w Hw_i].
  assert (Hin : w ∈ corpus_words content)
    by (rewrite <- Hw; by eapply list_elem_of_lookup_2).
  apply build_dataset_dom in Hin as [k Hk]. rewrite <- Hd in Hk.
  exists w, k. split; [done|]. split; [done|]. split.
  - rewrite Hsize, Hd. apply build_dataset_range. exists w. by rewrite <- Hd.
  - unfold word_key. rewrite Hw_i. simpl. by rewrite Hk.
Qed.

Lemma window_keys_run content v positions :
  run_vocabulary content = Some v →
  Forall (λ i, i < length (words v)) positions →
  ∃ keys, window_keys v positions = Ok keys ∧
          Forall2 (λ i k, ∃ w, words v !! i = Some w ∧
                               dict_get (dictionary v) w = Some k ∧
                               k < vocab_size v) positions keys.
Proof.
  intros Hv. induction positions as [|i positions IH]; intros Hall.
  - exists []. split; [done | constructor].
  - apply Forall_cons in Hall as [Hi Hall].
    destruct (word_key_run _ _ _ Hv Hi) as (w & k & Hw & Hk & Hlt & Hkey).
    destruct (IH Hall) as (keys & Hkeys & Hwin).
    exists (k :: keys). split.
    + simpl. rewrite Hkey. simpl. by rewrite Hkeys.
    + constructor; [by exists w | done].
Qed.


End TrainingExamples.




(** With a pretrained table that holds the unknown token only, the tables
    load and every example has its target, but [embeddings_list] has no
    row: the first call of [generate_sentence], at the first batch
    boundary, raises [ValueError], and training ends there. *)
Example training_stops_in_generation :
  @load_embeddings example_markers (dictionary hello_vocabulary) unk_only_table
  = Some unk_only_embeddings ∧
  generate_sentence hello_vocabulary (Some unk_only_embeddings)
    (hello_session tt) (hello_draws 99 9)
  = Raise ValueError ∧
  @train example_files "test_model" unit unit_loss_op hello_vocabulary
     (Some unk_only_embeddings) binary32 hello_session hello_draws tt Inf
  = Raise ValueError.
Proof. split; [reflexivity|]. split; reflexivity. Qed.

(** X18 (run, lines 222-230): on the vocabulary of a corpus, the example
    at an offset below [num_examples] is made of the keys of the
    [N_INPUT] words from that offset on and of the key of the word after
    them; every one of these words is in the dictionary, with a key below
    [vocab_size], and in classification mode the target is the vector of
    [vocab_size] zeros with a one at the key of the next word. *)
Theorem training_example `{word_embeddings} (content : string)
    (v : vocabulary) (offset : nat) :
  run_vocabulary content = Some v →
  offset < num_examples v →
  ∃ symbols_in_keys next_word word_index,
    window_keys v (seq offset N_INPUT) = Ok symbols_in_keys ∧
    Forall2 (λ i k, ∃ w, words v !! i = Some w ∧
                         dict_get (dictionary v) w = Some k ∧
                         k < vocab_size v)
            (seq offset N_INPUT) symbols_in_keys ∧
    words v !! (offset + N_INPUT) = Some next_word ∧
    dict_get (dictionary v) next_word = Some word_index ∧
    word_key v (offset + N_INPUT) = Ok word_index ∧
    target v None word_index
    = Ok (<[word_index := 1%Q]> (replicate (vocab_size v) 0%Q)).
Proof.
  intros Hv Hoffset.
  pose proof (run_vocabulary_num_examples _ _ Hv) as Hnum.
  unfold N_INPUT in Hnum.
  destruct (window_keys_run content v (seq offset N_INPUT) Hv)
    as (keys & Hkeys & Hwin).
  { apply Forall_forall. intros i Hi. apply elem_of_seq in Hi.
    unfold N_INPUT in Hi. lia. }
  destruct (word_key_run content v (offset + N_INPUT) Hv)
    as (w & k & Hw & Hk & Hlt & Hkey); [unfold N_INPUT; lia|].
  exists keys, w, k. split; [done|]. split; [done|]. split; [done|].
  split; [done|]. split; [done|].
  unfold target, num_outputs. by rewrite decide_True.
Qed.

Lemma training_example_witness :
  @run_vocabulary example_markers hello_corpus = Some hello_vocabulary ∧
  ∃ symbols_in_keys next_word word_index,
    window_keys hello_vocabulary (seq 2 N_INPUT) = Ok symbols_in_keys ∧
    Forall2 (λ i k, ∃ w, words hello_vocabulary !! i = Some w ∧
                         dict_get (dictionary hello_vocabulary) w = Some k ∧
                         k < 6)
            (seq 2 N_INPUT) symbols_in_keys ∧
    words hello_vocabulary !! (2 + N_INPUT) = Some next_word ∧
    dict_get (dictionary hello_vocabulary) next_word = Some word_index ∧
    word_key hello_vocabulary (2 + N_INPUT) = Ok word_index ∧
    target hello_vocabulary None word_index
    = Ok (<[word_index := 1%Q]> (replicate 6 0%Q)).
Proof.
  split; [reflexivity|].
  apply (@training_example example_markers hello_corpus hello_vocabulary 2
           eq_refl).
  simpl. lia.
Defined.
